(** * The reconciliation matching engine (utils/reconciliationUtils.ts)

    A shallow embedding of [reconcileTransactions] and of the data it works
    on, followed by the properties of the matching engine.  The exports,
    the rows of a parsed file and the handlers of App.tsx come after the
    engine, each with its own modelling choices.

    Modelling choices.
    - A JavaScript number is an IEEE 754 double, and a finite double is a
      rational: an amount is the exact value ([Q]) of its double.  The
      subtraction and the division whose results the predicates compare
      round to the nearest double as the engine does ([fsub], [fdiv]), and
      the literal [0.01] is the double nearest to 1/100.  The three totals
      of the summary are added exactly.  NaN only arises from date parsing
      and is [None].
    - A string is the sequence of the bytes of its UTF-8 form.
    - What [new Date] makes of a string outside the date-time format of
      ECMAScript, and what [toLowerCase] makes of a character outside
      ASCII, is up to the engine that runs the code: both functions are
      parameters of the development ([Host]), known where ECMAScript fixes
      them.
    - A [Transaction] object lives in a heap and is named by its address;
      an array of transactions is a heap cell holding a list of addresses.
      The function receives the addresses of its two argument arrays.
    - The function body runs in a state-and-exception monad over that heap:
      property access on [undefined] throws, as in JavaScript.
    - The three [for] loops of the source have the same text up to the
      predicate given to [findIndex], the confidence and the note; they are
      one loop [matchLoop] here, instantiated three times. *)

From stdpp Require Import base option list gmap strings sorting pretty.
From Stdlib Require Import Ascii ZArith QArith Qabs Qround Lia Lqa.

Close Scope Q_scope.

(** ** Data model (types.ts) *)

Inductive TransactionType := DEBIT | CREDIT.

Inductive Source := BANK | LEDGER.

Record Transaction := mkTransaction {
  id : string;
  date : string;
  description : string;
  amount : Q;
  reference : option string;
  type : TransactionType;
  source : Source
}.

#[global] Instance TransactionType_eq_dec : EqDecision TransactionType.
Proof. solve_decision. Defined.

#[global] Instance Transaction_inhabited : Inhabited Transaction :=
  populate (mkTransaction "" "" "" 0%Q None DEBIT BANK).

(** Addresses of heap cells. *)
Definition loc := nat.

Record MatchedTransaction := mkMatched {
  bankParams : loc;
  ledgerParams : loc;
  confidence : Q;
  notes : option string
}.

Record Summary := mkSummary {
  totalMatchedAmount : Q;
  totalUnmatchedBankAmount : Q;
  totalUnmatchedLedgerAmount : Q;
  matchCount : nat;
  discrepancyCount : nat
}.

Record ReconciliationReport := mkReport {
  matches : list MatchedTransaction;
  unmatchedBank : list loc;
  unmatchedLedger : list loc;
  summary : Summary
}.

(** ** The heap *)

Record Store := mkStore {
  txs : gmap loc Transaction;
  arrays : gmap loc (list loc)
}.

Inductive Result (A : Type) :=
| Ok (a : A) (σ : Store)
| Throw.
Arguments Ok {A} a σ.
Arguments Throw {A}.

Definition M (A : Type) := Store → Result A.

#[global] Instance M_ret : MRet M := λ A a σ, Ok a σ.

#[global] Instance M_bind : MBind M := λ A B k m σ,
  match m σ with
  | Ok a σ' => k a σ'
  | Throw => Throw
  end.

(** [[...a]]: a fresh array with the elements of [a]. *)
Definition spread (a : loc) : M loc :=
  λ σ, match arrays σ !! a with
       | Some l =>
           let a' := fresh (dom (arrays σ)) in
           Ok a' (mkStore (txs σ) (<[a' := l]> (arrays σ)))
       | None => Throw
       end.

(** [a.length] *)
Definition arrayLength (a : loc) : M nat :=
  λ σ, match arrays σ !! a with
       | Some l => Ok (length l) σ
       | None => Throw
       end.

(** [a[i]]; [None] is [undefined]. *)
Definition arrayGet (a : loc) (i : nat) : M (option loc) :=
  λ σ, match arrays σ !! a with
       | Some l => Ok (l !! i) σ
       | None => Throw
       end.

(** [a.splice(i, 1)] *)
Definition splice1 (a : loc) (i : nat) : M unit :=
  λ σ, match arrays σ !! a with
       | Some l => Ok tt (mkStore (txs σ) (<[a := delete i l]> (arrays σ)))
       | None => Throw
       end.

(** The whole array, for iteration by [findIndex] and [reduce]. *)
Definition arrayElements (a : loc) : M (list loc) :=
  λ σ, match arrays σ !! a with
       | Some l => Ok l σ
       | None => Throw
       end.

(** Reading the fields of [r]: a TypeError when [r] is [undefined]. *)
Definition deref (r : option loc) : M Transaction :=
  λ σ, match r with
       | Some p =>
           match txs σ !! p with
           | Some t => Ok t σ
           | None => Throw
           end
       | None => Throw
       end.

(** [Array.prototype.findIndex] on the elements [l], counting from [k];
    [None] is the source's [-1]. *)
Fixpoint findIndexFrom (pred : loc → M bool) (l : list loc) (k : nat)
  : M (option nat) :=
  match l with
  | [] => mret None
  | x :: l' =>
      pred x ≫= λ b : bool,
      if b then mret (Some k) else findIndexFrom pred l' (S k)
  end.

Definition findIndex (a : loc) (pred : loc → M bool) : M (option nat) :=
  l ← arrayElements a;
  findIndexFrom pred l 0.

(** [a.reduce((acc, t) => acc + t.amount, 0)] *)
Fixpoint sumAmountsFrom (l : list loc) (acc : Q) : M Q :=
  match l with
  | [] => mret acc
  | x :: l' =>
      t ← deref (Some x);
      sumAmountsFrom l' (acc + amount t)%Q
  end.

(** ** The JavaScript library functions the engine calls *)

(** [x < y] on numbers. *)
Definition Qltb (x y : Q) : bool := negb (Qle_bool y x).

(** *** Numbers

    The nearest integer of a rational, the even one of two. *)
Definition roundTiesToEven (x : Q) : Z :=
  let f := Qfloor x in
  match ((x - inject_Z f) ?= (1 # 2))%Q with
  | Lt => f
  | Gt => (f + 1)%Z
  | Eq => if Z.even f then f else (f + 1)%Z
  end.

(** A nonnegative [y], counted in units of [2^-1074], the least positive
    double, has its 53 significant bits from bit [binade y] on. *)
Definition binade (y : Q) : Z := Z.max (Z.log2 (Qfloor y) - 52) 0.

(** The double nearest to [y] units, in units. *)
Definition roundUnits (y : Q) : Z :=
  (roundTiesToEven (y / inject_Z (2 ^ binade y)) * 2 ^ binade y)%Z.

(** The double nearest to a nonnegative [x]. *)
Definition roundMagnitude (x : Q) : Q :=
  (inject_Z (roundUnits (x * inject_Z (2 ^ 1074))) / inject_Z (2 ^ 1074))%Q.

(** IEEE 754 rounding of a real result to binary64, to nearest and ties to
    even.  A result beyond the largest double, which the engine makes
    [Infinity], stays a large number here: it compares with [0.01] and with
    [3] as [Infinity] does. *)
Definition roundDouble (x : Q) : Q :=
  Qred (if Qle_bool 0 x then roundMagnitude x else - roundMagnitude (- x))%Q.

(** [x - y] and [x / y] on doubles. *)
Definition fsub (x y : Q) : Q := roundDouble (x - y).
Definition fdiv (x y : Q) : Q := roundDouble (x / y).

(** The number literal [0.01]: the double nearest to 1/100, which is
    [roundDouble (1 # 100)]. *)
Definition tolerance : Q := 5764607523034235 # 576460752303423488.

(** *** Calendar dates

    The day number (days since 1970-01-01) of a date-only string
    [YYYY-MM-DD], the form the extraction service is asked to deliver;
    [None] for every other string. *)

Definition digitValue (c : ascii) : option Z :=
  let n := Z.of_nat (nat_of_ascii c) in
  if ((48 <=? n) && (n <=? 57))%Z then Some (n - 48)%Z else None.

Definition isLeapYear (y : Z) : bool :=
  ((y mod 4 =? 0) && (negb (y mod 100 =? 0) || (y mod 400 =? 0)))%Z.

Definition daysInMonth (y m : Z) : Z :=
  (if m =? 2 then (if isLeapYear y then 29 else 28)
   else if (m =? 4) || (m =? 6) || (m =? 9) || (m =? 11) then 30
   else 31)%Z.

(** Days of the year [y] before its month [m]. *)
Definition daysBeforeMonth (y m : Z) : Z :=
  foldr Z.add 0%Z ((daysInMonth y ∘ Z.of_nat) <$> seq 1 (Z.to_nat m - 1)).

(** ECMAScript's DayFromYear. *)
Definition DayFromYear (y : Z) : Z :=
  (365 * (y - 1970) + (y - 1969) / 4 - (y - 1901) / 100 + (y - 1601) / 400)%Z.

(** The day number of a valid calendar date. *)
Definition dayNumber (y m d : Z) : option Z :=
  if ((1 <=? m) && (m <=? 12) && (1 <=? d) && (d <=? daysInMonth y m))%Z
  then Some (DayFromYear y + daysBeforeMonth y m + (d - 1))%Z
  else None.

Definition calendarDay (s : string) : option Z :=
  match String.list_ascii_of_string s with
  | [y1; y2; y3; y4; s1; m1; m2; s2; d1; d2] =>
      if (Ascii.eqb s1 "-" && Ascii.eqb s2 "-")%bool then
        a ← digitValue y1; b ← digitValue y2; c ← digitValue y3;
        d ← digitValue y4; e ← digitValue m1; f ← digitValue m2;
        g ← digitValue d1; h ← digitValue d2;
        dayNumber (1000 * a + 100 * b + 10 * c + d) (10 * e + f) (10 * g + h)
      else None
  | _ => None
  end.

Definition msPerDay : Z := (1000 * 60 * 60 * 24)%Z.

(** *** Strings *)

Fixpoint allChars (f : ascii → bool) (s : string) : bool :=
  match s with
  | EmptyString => true
  | String c s' => f c && allChars f s'
  end.

(** The bytes of the ASCII characters, and those of [A-Z]. *)
Definition isAscii (c : ascii) : bool := nat_of_ascii c <? 128.

Definition isUpper (c : ascii) : bool :=
  let n := nat_of_ascii c in (65 <=? n) && (n <=? 90).

(** Lowercasing of ASCII text: [A-Z] go to [a-z]. *)
Definition asciiToLowerCaseChar (c : ascii) : ascii :=
  let n := nat_of_ascii c in
  if (65 <=? n) && (n <=? 90) then ascii_of_nat (n + 32) else c.

Fixpoint asciiToLowerCase (s : string) : string :=
  match s with
  | EmptyString => EmptyString
  | String c s' => String (asciiToLowerCaseChar c) (asciiToLowerCase s')
  end.

(** The character class [[a-z0-9]]. *)
Definition isLowerOrDigit (c : ascii) : bool :=
  let n := nat_of_ascii c in
  ((97 <=? n) && (n <=? 122)) || ((48 <=? n) && (n <=? 57)).

(** [s.replace(/[^a-z0-9]/g, '')]: every character but [a-z0-9] goes, and
    with it every byte of a character outside ASCII. *)
Fixpoint removeOthers (s : string) : string :=
  match s with
  | EmptyString => EmptyString
  | String c s' =>
      if isLowerOrDigit c then String c (removeOthers s') else removeOthers s'
  end.

(** [s.includes(t)] *)
Fixpoint includes (s t : string) : bool :=
  String.prefix t s ||
  match s with
  | EmptyString => false
  | String _ s' => includes s' t
  end.

(** *** The host

    The two library functions whose result is not fixed by the text of the
    program, with what ECMAScript says of them: a date-only string
    [YYYY-MM-DD] that names a calendar date is midnight UTC of that day,
    in milliseconds; ASCII text is lowercased letter by letter; and no
    lowercased text holds a letter of [A-Z]. *)
Class Host := {
  (** [new Date(s).getTime()]; [None] for NaN *)
  Date_getTime : string → option Z;
  (** [s.toLowerCase()] *)
  toLowerCase : string → string;
  Date_getTime_calendar (s : string) (d : Z) :
    calendarDay s = Some d → Date_getTime s = Some (d * msPerDay)%Z;
  toLowerCase_ascii (s : string) :
    allChars isAscii s = true → toLowerCase s = asciiToLowerCase s;
  toLowerCase_lower (s : string) :
    allChars (λ c, negb (isUpper c)) (toLowerCase s) = true
}.

(** The host of the examples: it reads calendar dates only and lowercases
    [A-Z] only.  A statement that names no host is about this one. *)
#[global] Instance asciiHost : Host.
Proof.
  refine {| Date_getTime := λ s, (λ d, d * msPerDay)%Z <$> calendarDay s;
            toLowerCase := asciiToLowerCase |}.
  - by intros s d ->.
  - done.
  - intros s. induction s as [|c s IH]; [done|]. simpl. rewrite IH.
    rewrite andb_true_r. unfold isUpper, asciiToLowerCaseChar.
    destruct c as [[] [] [] [] [] [] [] []]; reflexivity.
Defined.

(** Another host, which reads every string that is no calendar date as
    the first of January 1970. *)
Definition lenientHost : Host.
Proof.
  refine {| Date_getTime :=
              λ s, Some (default 0%Z ((λ d, d * msPerDay)%Z <$> calendarDay s));
            toLowerCase := asciiToLowerCase |}.
  - intros s d H. by rewrite H.
  - done.
  - apply (toLowerCase_lower (Host := asciiHost)).
Defined.

(** ** reconcileTransactions *)

Section Engine.
Context {host : Host}.

(** Helper to normalize strings for fuzzy matching *)
Definition normalize (str : string) : string := removeOthers (toLowerCase str).

Definition amountMatch (bankTx ledgerTx : Transaction) : bool :=
  Qltb (Qabs (fsub (amount ledgerTx) (amount bankTx))) tolerance.

Definition typeMatch (bankTx ledgerTx : Transaction) : bool :=
  bool_decide (type ledgerTx = type bankTx).

(** The [findIndex] predicate of the exact pass. *)
Definition exactPredicate (bankTx ledgerTx : Transaction) : bool :=
  amountMatch bankTx ledgerTx &&
  String.eqb (date ledgerTx) (date bankTx) &&
  typeMatch bankTx ledgerTx.

(** [Math.abs((d1 - d2) / (1000 * 60 * 60 * 24))]; [None] is NaN. *)
Definition dayDiff (bankTx ledgerTx : Transaction) : option Q :=
  d1 ← Date_getTime (date bankTx);
  d2 ← Date_getTime (date ledgerTx);
  Some (Qabs (fdiv (fsub (inject_Z d1) (inject_Z d2)) (inject_Z msPerDay))).

(** The [findIndex] predicate of the fuzzy pass; [NaN <= 3] is false. *)
Definition fuzzyPredicate (bankTx ledgerTx : Transaction) : bool :=
  amountMatch bankTx ledgerTx &&
  typeMatch bankTx ledgerTx &&
  match dayDiff bankTx ledgerTx with
  | Some dd => Qle_bool dd 3
  | None => false
  end.

Definition descSim (bankTx ledgerTx : Transaction) : bool :=
  includes (normalize (description bankTx)) (normalize (description ledgerTx)) ||
  includes (normalize (description ledgerTx)) (normalize (description bankTx)).

(** The [findIndex] predicate of the description pass. *)
Definition descriptionPredicate (bankTx ledgerTx : Transaction) : bool :=
  amountMatch bankTx ledgerTx &&
  typeMatch bankTx ledgerTx &&
  descSim bankTx ledgerTx.

(** The arrow function handed to [findIndex]: it reads the fields of
    [ledgerTx] and of the captured [bankTx]. *)
Definition callback (P : Transaction → Transaction → bool)
    (bankTx : option loc) (ledgerTx : loc) : M bool :=
  l ← deref (Some ledgerTx);
  b ← deref bankTx;
  mret (P b l).

(** The object literal pushed on [matches].  Both operands have been read
    by the callback when this point is reached; an [undefined] operand is
    rejected here. *)
Definition newMatch (bankTx ledgerTx : option loc) (conf : Q) (note : string)
  : M MatchedTransaction :=
  λ σ, match bankTx, ledgerTx with
       | Some b, Some l => Ok (mkMatched b l conf (Some note)) σ
       | _, _ => Throw
       end.

(** [for (let i = n - 1; i >= 0; i--) { ... }] with [n] the loop counter
    plus one.  We iterate backwards to safely splice items out. *)
Fixpoint matchLoop (P : Transaction → Transaction → bool) (conf : Q)
    (note : string) (unmatchedBank unmatchedLedger : loc) (n : nat)
    (matches : list MatchedTransaction) : M (list MatchedTransaction) :=
  match n with
  | 0 => mret matches
  | S i =>
      bankTx ← arrayGet unmatchedBank i;
      matchIndex ← findIndex unmatchedLedger (callback P bankTx);
      match matchIndex with
      | Some j =>
          ledgerTx ← arrayGet unmatchedLedger j;
          m ← newMatch bankTx ledgerTx conf note;
          (* Remove from pools *)
          splice1 unmatchedBank i;;
          splice1 unmatchedLedger j;;
          matchLoop P conf note unmatchedBank unmatchedLedger i (matches ++ [m])
      | None =>
          matchLoop P conf note unmatchedBank unmatchedLedger i matches
      end
  end.

Definition matchPass (P : Transaction → Transaction → bool) (conf : Q)
    (note : string) (unmatchedBank unmatchedLedger : loc)
    (matches : list MatchedTransaction) : M (list MatchedTransaction) :=
  n ← arrayLength unmatchedBank;
  matchLoop P conf note unmatchedBank unmatchedLedger n matches.

(** [matches.reduce((acc, m) => acc + m.bankParams.amount, 0)] *)
Fixpoint sumMatchedFrom (l : list MatchedTransaction) (acc : Q) : M Q :=
  match l with
  | [] => mret acc
  | m :: l' =>
      t ← deref (Some (bankParams m));
      sumMatchedFrom l' (acc + amount t)%Q
  end.

Definition sumAmounts (a : loc) : M Q :=
  l ← arrayElements a;
  sumAmountsFrom l 0%Q.

Definition note1 : string := "Exact match on Date, Amount, and Type".
Definition note2 : string := "Match on Amount/Type within 3 days".
Definition note3 : string := "Match on Amount and similar Description".

Definition reconcileTransactions (bankTransactions ledgerTransactions : loc)
  : M ReconciliationReport :=
  unmatchedBank ← spread bankTransactions;
  unmatchedLedger ← spread ledgerTransactions;
  (* 1. Exact Match Pass (Amount + Date + Type) *)
  matches ← matchPass exactPredicate 1 note1 unmatchedBank unmatchedLedger [];
  (* 2. Fuzzy Match Pass (Same Amount + Type, Close Date +/- 3 days) *)
  matches ← matchPass fuzzyPredicate (9 # 10) note2
              unmatchedBank unmatchedLedger matches;
  (* 3. Amount Match only (Warning level) *)
  matches ← matchPass descriptionPredicate (7 # 10) note3
              unmatchedBank unmatchedLedger matches;
  (* Calculate totals *)
  totalMatched ← sumMatchedFrom matches 0%Q;
  totalBank ← sumAmounts unmatchedBank;
  totalLedger ← sumAmounts unmatchedLedger;
  ub ← arrayElements unmatchedBank;
  ul ← arrayElements unmatchedLedger;
  mret (mkReport matches ub ul
          (mkSummary totalMatched totalBank totalLedger
             (length matches) (length ub + length ul))).

End Engine.

(** ** The sample fixtures (utils/sampleData.ts)

    A number literal is the double nearest to it; the literals below that
    are written as they are have a double of their own value. *)

Definition SAMPLE_BANK_DATA : list Transaction := [
  mkTransaction "bank-1" "2024-03-01" "TechSolutions Inc - Inv #2024-001"
    12500 (Some "WIRE-998877") CREDIT BANK;
  mkTransaction "bank-2" "2024-03-03" "Office Depot - Supplies"
    (24550 # 100) None DEBIT BANK;
  mkTransaction "bank-3" "2024-03-05" "Uber Ride - Client Meeting"
    (roundDouble (4520 # 100)) None DEBIT BANK;
  mkTransaction "bank-4" "2024-03-10" "Monthly Bank Service Fee"
    35 None DEBIT BANK;
  mkTransaction "bank-5" "2024-03-15" "Check Deposit - Client B"
    4500 (Some "CHK-1002") CREDIT BANK;
  mkTransaction "bank-6" "2024-03-20" "AWS Cloud Services"
    890 None DEBIT BANK
].

Definition SAMPLE_LEDGER_DATA : list Transaction := [
  mkTransaction "ledger-1" "2024-03-01" "TechSolutions Invoice Payment"
    12500 None CREDIT LEDGER;
  mkTransaction "ledger-2" "2024-03-03" "Office Supplies"
    (24550 # 100) None DEBIT LEDGER;
  (* Ledger date is 3 days earlier than bank date (Fuzzy Match) *)
  mkTransaction "ledger-3" "2024-03-12" "Client B Payment (Check)"
    4500 None CREDIT LEDGER;
  mkTransaction "ledger-4" "2024-03-20" "Amazon Web Services"
    890 None DEBIT LEDGER;
  mkTransaction "ledger-5" "2024-03-25" "Software License Annual"
    1200 None DEBIT LEDGER
].

(** A heap holding the records of [bank] at addresses [0, 1, ...], those of
    [ledger] after them, the bank array at array address [0] and the ledger
    array at array address [1]. *)
Definition heapOf (bank ledger : list Transaction) : Store :=
  mkStore (list_to_map (zip (seq 0 (length bank + length ledger)) (bank ++ ledger)))
          (<[0 := seq 0 (length bank)]>
             (<[1 := seq (length bank) (length ledger)]> ∅)).

Definition sampleStore : Store := heapOf SAMPLE_BANK_DATA SAMPLE_LEDGER_DATA.


(** A heap with two empty arrays. *)
Definition emptyStore : Store := heapOf [] [].


(** One bank record and two ledger candidates for it: the first within
    three days, the second of the same date. *)
Definition precedenceStore : Store :=
  heapOf
    [mkTransaction "b" "2024-03-15" "Check Deposit"
       4500 None CREDIT BANK]
    [mkTransaction "l-fuzzy" "2024-03-14" "Check Deposit"
       4500 None CREDIT LEDGER;
     mkTransaction "l-exact" "2024-03-15" "Check Deposit"
       4500 None CREDIT LEDGER].

(** A bank record and a ledger record of the same date and type whose
    amounts differ by half a cent. *)
Definition toleranceStore : Store :=
  heapOf
    [mkTransaction "b" "2024-03-15" "Fee" 100 None DEBIT BANK]
    [mkTransaction "l" "2024-03-15" "Fee" (roundDouble (100005 # 1000))
       None DEBIT LEDGER].

(** Two pairs at the edge of the tolerance, all of one date and type: the
    doubles of 245.51 and 245.50, and those of 0.0101 and 0.0001. *)
Definition centStore : Store :=
  heapOf
    [mkTransaction "b" "2024-03-15" "Fee" (roundDouble (24551 # 100))
       None DEBIT BANK]
    [mkTransaction "l" "2024-03-15" "Fee" (roundDouble (24550 # 100))
       None DEBIT LEDGER].

Definition edgeStore : Store :=
  heapOf
    [mkTransaction "b" "2024-03-15" "Fee" (roundDouble (101 # 10000))
       None DEBIT BANK]
    [mkTransaction "l" "2024-03-15" "Fee" (roundDouble (1 # 10000))
       None DEBIT LEDGER].

(** Two records for the description pass: different dates far apart, the
    bank description without any letter or digit. *)
Definition blankBankTx : Transaction :=
  mkTransaction "b" "2024-01-02" "--- ***" 75 None DEBIT BANK.

Definition someLedgerTx : Transaction :=
  mkTransaction "l" "2024-03-20" "Amazon Web Services" 75 None DEBIT LEDGER.

(** A heap with these two records only. *)
Definition descriptionStore : Store := heapOf [blankBankTx] [someLedgerTx].

(** A bank record and two ledger records none of which agrees with it on
    both amount and type. *)
Definition disjointStore : Store :=
  heapOf
    [mkTransaction "b" "2024-03-15" "Fee" 100 None DEBIT BANK]
    [mkTransaction "l1" "2024-03-15" "Fee" 200 None DEBIT LEDGER;
     mkTransaction "l2" "2024-03-15" "Fee" 100 None CREDIT LEDGER].

(** ** A functional reading of one pass

    [matchPairs P ub ul] is what one [for] loop computes on the pools [ub]
    and [ul]: the pairs found, in the order found, and the two pools that
    remain.  The tail of the bank pool is treated before its head, which is
    the backward iteration of the source. *)

Section MatchPairs.
Context {A B : Type}.
Variable P : A → B → bool.

Definition matchStep (b : A) (r : list (A * B) * list A * list B)
  : list (A * B) * list A * list B :=
  let '(ms, bs, ul) := r in
  match list_find (λ l, Is_true (P b l)) ul with
  | Some (j, l) => (ms ++ [(b, l)], bs, delete j ul)
  | None => (ms, b :: bs, ul)
  end.

Fixpoint matchPairs (ub : list A) (ul : list B)
  : list (A * B) * list A * list B :=
  match ub with
  | [] => ([], [], ul)
  | b :: bs => matchStep b (matchPairs bs ul)
  end.

End MatchPairs.

Section Readings.
Context {host : Host}.

(** The three passes in sequence: the pairs of each pass and the pools left
    at the end. *)
Definition threePasses {A B : Type} (P1 P2 P3 : A → B → bool)
    (ub : list A) (ul : list B)
  : list (A * B) * list (A * B) * list (A * B) * list A * list B :=
  let '(m1, ub1, ul1) := matchPairs P1 ub ul in
  let '(m2, ub2, ul2) := matchPairs P2 ub1 ul1 in
  let '(m3, ub3, ul3) := matchPairs P3 ub2 ul2 in
  (m1, m2, m3, ub3, ul3).

(** A predicate on records, read through the heap. *)
Definition onHeap (h : gmap loc Transaction)
    (P : Transaction → Transaction → bool) (b l : loc) : bool :=
  match h !! b, h !! l with
  | Some tb, Some tl => P tb tl
  | _, _ => false
  end.

Definition toMatch (conf : Q) (note : string) (p : loc * loc)
  : MatchedTransaction :=
  mkMatched p.1 p.2 conf (Some note).

(** The amount of the record at address [r]. *)
Definition amountAt (h : gmap loc Transaction) (r : loc) : Q :=
  from_option amount 0%Q (h !! r).

(** The sum of the amounts at [l], added up from the left as [reduce]
    does. *)
Definition sumLeft (h : gmap loc Transaction) (l : list loc) : Q :=
  foldl (λ acc r, (acc + amountAt h r)%Q) 0%Q l.

(** The three passes of the engine on the heap [h]. *)
Definition passes (h : gmap loc Transaction) (bank ledger : list loc) :=
  threePasses (onHeap h exactPredicate) (onHeap h fuzzyPredicate)
    (onHeap h descriptionPredicate) bank ledger.

Definition matchesOf (m1 m2 m3 : list (loc * loc)) : list MatchedTransaction :=
  (toMatch 1 note1 <$> m1) ++ (toMatch (9 # 10) note2 <$> m2) ++
  (toMatch (7 # 10) note3 <$> m3).

(** The report built from the outcome of the three passes. *)
Definition reportOf (h : gmap loc Transaction)
    (r : list (loc * loc) * list (loc * loc) * list (loc * loc) *
         list loc * list loc) : ReconciliationReport :=
  let '(m1, m2, m3, ub, ul) := r in
  let ms := matchesOf m1 m2 m3 in
  mkReport ms ub ul
    (mkSummary (sumLeft h (bankParams <$> ms)) (sumLeft h ub) (sumLeft h ul)
       (length ms) (length ub + length ul)).

(** ** Inputs *)

(** The two arguments are arrays of transaction objects. *)
Definition validInput (σ : Store) (bankTransactions ledgerTransactions : loc)
    (bank ledger : list loc) : Prop :=
  arrays σ !! bankTransactions = Some bank ∧
  arrays σ !! ledgerTransactions = Some ledger ∧
  Forall (λ r, is_Some (txs σ !! r)) (bank ++ ledger).

(** Each element of [l] with its position in [l]. *)
Definition tagged {X} (l : list X) : list (nat * X) :=
  zip (seq 0 (length l)) l.

(** [l] without the elements at the positions [claimed]. *)
Definition unclaimed {X} (claimed : list nat) (l : list X) : list X :=
  (filter (λ ix, ix.1 ∉ claimed) (tagged l)).*2.

(** ** The passes in the words of the specification *)

(** [l] is the first record of the pool, scanned forward, that is eligible
    for [b]; it sits at index [j]. *)
Definition FirstEligible {A B} (eligible : A → B → Prop)
    (b : A) (pool : list B) (j : nat) (l : B) : Prop :=
  pool !! j = Some l ∧ eligible b l ∧
  ∀ j' l', j' < j → pool !! j' = Some l' → ¬ eligible b l'.

(** [SpecPass eligible ub ul found ub' ul']: one pass over the pools [ub]
    and [ul] emits the pairs [found], in that order, and leaves [ub'] and
    [ul'].  The bank pool is processed last-to-first; a bank record takes
    the first eligible ledger record of what remains of the ledger pool,
    and both leave their pools at once. *)
Inductive SpecPass {A B} (eligible : A → B → Prop)
  : list A → list B → list (A * B) → list A → list B → Prop :=
| SpecPass_done ul :
    SpecPass eligible [] ul [] [] ul
| SpecPass_hit ub b ul j l found ub' ul' :
    FirstEligible eligible b ul j l →
    SpecPass eligible ub (delete j ul) found ub' ul' →
    SpecPass eligible (ub ++ [b]) ul ((b, l) :: found) ub' ul'
| SpecPass_miss ub b ul found ub' ul' :
    (∀ l, l ∈ ul → ¬ eligible b l) →
    SpecPass eligible ub ul found ub' ul' →
    SpecPass eligible (ub ++ [b]) ul found (ub' ++ [b]) ul'.

(** Eligibility of two heap objects. *)
Definition eligibleOn (h : gmap loc Transaction)
    (E : Transaction → Transaction → Prop) (b l : loc) : Prop :=
  ∃ tb tl, h !! b = Some tb ∧ h !! l = Some tl ∧ E tb tl.

(** The amounts differ by less than 0.01, difference and bound being the
    doubles the engine computes. *)
Definition AmountWithinTolerance (bankTx ledgerTx : Transaction) : Prop :=
  (Qabs (fsub (amount ledgerTx) (amount bankTx)) < tolerance)%Q.

(** Pass 1: amount within tolerance, equal date string, equal type. *)
Definition ExactEligible (bankTx ledgerTx : Transaction) : Prop :=
  AmountWithinTolerance bankTx ledgerTx ∧
  date ledgerTx = date bankTx ∧
  type ledgerTx = type bankTx.

(** Pass 2: amount within tolerance, equal type, and two dates at most
    three whole days apart. *)
Definition FuzzyEligible (bankTx ledgerTx : Transaction) : Prop :=
  AmountWithinTolerance bankTx ledgerTx ∧
  type ledgerTx = type bankTx ∧
  ∃ t1 t2 : Z, Date_getTime (date bankTx) = Some t1 ∧
               Date_getTime (date ledgerTx) = Some t2 ∧
               (Z.abs (t1 - t2) ≤ 3 * msPerDay)%Z.

(** [t] occurs in [s] as a substring. *)
Definition Substring (t s : string) : Prop :=
  ∃ p q : string, s = p +:+ t +:+ q.

(** ASCII letters and digits. *)
Definition isLetterOrDigit (c : ascii) : bool :=
  let n := nat_of_ascii c in
  ((65 <=? n) && (n <=? 90)) || ((97 <=? n) && (n <=? 122)) ||
  ((48 <=? n) && (n <=? 57)).

Fixpoint keepChars (f : ascii → bool) (s : string) : string :=
  match s with
  | EmptyString => EmptyString
  | String c s' => if f c then String c (keepChars f s') else keepChars f s'
  end.

(** Normalization in the words of the specification: lowercase, and strip
    every character that is not an ASCII letter or digit. *)
Definition specNormalize (s : string) : string :=
  keepChars isLetterOrDigit (toLowerCase s).

(** Pass 3: amount within tolerance, equal type, and one normalized
    description contained in the other. *)
Definition DescriptionEligible (bankTx ledgerTx : Transaction) : Prop :=
  AmountWithinTolerance bankTx ledgerTx ∧
  type ledgerTx = type bankTx ∧
  (Substring (specNormalize (description ledgerTx))
             (specNormalize (description bankTx)) ∨
   Substring (specNormalize (description bankTx))
             (specNormalize (description ledgerTx))).

(** ** Stores during a run *)

(** The store [σ] with the two working pools set to [ub] and [ul]. *)
Definition withPools (σ : Store) (uB uL : loc) (ub ul : list loc) : Store :=
  mkStore (txs σ) (<[uL := ul]> (<[uB := ub]> (arrays σ))).

(** Every address of [l] holds a transaction object. *)
Definition allocated (σ : Store) (l : list loc) : Prop :=
  Forall (λ r, is_Some (txs σ !! r)) l.

(** Pairs of tagged records without the tags, and a predicate of a pass on
    tagged records. *)
Definition untag (tm : list ((nat * loc) * (nat * loc))) : list (loc * loc) :=
  prod_map snd snd <$> tm.

Definition onTagged (h : gmap loc Transaction)
    (P : Transaction → Transaction → bool) (a b : nat * loc) : bool :=
  onHeap h P a.2 b.2.

End Readings.

(** * The rest of the engine's surroundings

    Definitions for further properties of [reconcileTransactions], for the
    exports of reconciliationUtils.ts and sampleData.ts, for the rows of
    services/geminiService.ts and for the handlers of App.tsx. *)

(** ** More on the engine *)

(** What the three predicates have in common: amount within tolerance and
    equal type. *)
Definition Compatible (bankTx ledgerTx : Transaction) : Prop :=
  AmountWithinTolerance bankTx ledgerTx ∧ type ledgerTx = type bankTx.

(** A record as the extraction service is asked to deliver it: its date is
    a calendar date [YYYY-MM-DD]; and its description is ASCII text. *)
Definition plainRecord (t : Transaction) : bool :=
  bool_decide (is_Some (calendarDay (date t))) &&
  allChars isAscii (description t).

(** ** Text exports (sampleData.ts, reconciliationUtils.ts)

    The exports read the records of a report and build rows of cells, a
    text and a file name.  What they hand to the browser, to [encodeURI] and
    to the spreadsheet and PDF libraries afterwards is outside this
    development; the current date, which they read from the clock, is an
    argument [today]. *)

(** The double quote and the line feed. *)
Definition dquote : ascii := ascii_of_nat 34.
Definition dq : string := String dquote "".
Definition nl : string := String (ascii_of_nat 10) "".

(** The [replace] of [generateSampleCSV]: every double quote of [s] becomes
    two double quotes. *)
Fixpoint replaceQuotes (s : string) : string :=
  match s with
  | EmptyString => EmptyString
  | String c s' =>
      if Ascii.eqb c dquote
      then String dquote (String dquote (replaceQuotes s'))
      else String c (replaceQuotes s')
  end.

(** [a.join(sep)] on an array of strings. *)
Fixpoint join (sep : string) (a : list string) : string :=
  match a with
  | [] => ""
  | [x] => x
  | x :: a' => x +:+ sep +:+ join sep a'
  end.

(** The enum value as the string it is. *)
Definition typeString (t : TransactionType) : string :=
  match t with DEBIT => "DEBIT" | CREDIT => "CREDIT" end.

(** [r || d] on an optional string: [undefined] and the empty string are
    falsy. *)
Definition orElse (r : option string) (d : string) : string :=
  match r with
  | Some (String c s) => String c s
  | _ => d
  end.

(** [s.replace(/[^a-z0-9]/gi, '_')]: the pattern is tried at every UTF-16
    unit of the text.  A character outside ASCII is one unit, or two when
    it takes four bytes, and each unit becomes an underscore; the bytes
    after its first are passed over. *)
Fixpoint replaceNonAlnum (s : string) : string :=
  match s with
  | EmptyString => EmptyString
  | String c s' =>
      let n := nat_of_ascii c in
      if isLetterOrDigit c then String c (replaceNonAlnum s')
      else if n <? 128 then String "_" (replaceNonAlnum s')
      else if n <? 192 then replaceNonAlnum s'
      else if n <? 240 then String "_" (replaceNonAlnum s')
      else String "_" (String "_" (replaceNonAlnum s'))
  end.

Section Exports.

(** [String(x)] for a number: the shortest decimal that reads back as the
    same double is not a function of the rational value, so it is left
    open. *)
Variable NumberToString : Q → string.

(** [x.toFixed(2)] after ECMAScript: the sign, then the integer [n] nearest
    to [100 x], the larger one on a tie, in decimal with at least three
    digits and a point before the last two; from [10^21] on, [String(x)]. *)
Definition toFixed2 (x : Q) : string :=
  let s := if Qltb x 0 then "-" else "" in
  let x := Qabs x in
  if Qle_bool (inject_Z (10 ^ 21)) x then s +:+ NumberToString x
  else
    let n := Qfloor (x * 100 + (1 # 2)) in
    let whole := pretty (Z.to_N (n / 100)) in
    let cents := Z.to_N (n mod 100) in
    s +:+ whole +:+ "." +:+
    (if (cents <? 10)%N then "0" +:+ pretty cents else pretty cents).

(** One row of the sample file. *)
Definition sampleRow (t : Transaction) : list string :=
  [ date t;
    dq +:+ replaceQuotes (description t) +:+ dq; (* Escape quotes *)
    toFixed2 (amount t);
    typeString (type t);
    orElse (reference t) "" ].

Definition generateSampleCSV (type : Source) : string :=
  let data := match type with
              | BANK => SAMPLE_BANK_DATA
              | LEDGER => SAMPLE_LEDGER_DATA
              end in
  let headers := ["Date"; "Description"; "Amount"; "Type"; "Reference"] in
  let rows := sampleRow <$> data in
  join nl (join "," headers :: (join "," <$> rows)).

(** A cell of a row: a string, a number or [undefined]. *)
Inductive Cell :=
| CString (s : string)
| CNumber (x : Q)
| CNat (n : nat)
| CUndefined.

(** What [join] makes of a cell. *)
Definition cellToString (c : Cell) : string :=
  match c with
  | CString s => s
  | CNumber x => NumberToString x
  | CNat n => pretty n
  | CUndefined => ""
  end.

Definition optionCell (o : option string) : Cell :=
  match o with
  | Some s => CString s
  | None => CUndefined
  end.

(** The row of one side of a match in the CSV export. *)
Definition matchedRow (src : string) (t : Transaction)
    (m : MatchedTransaction) : list Cell :=
  [ CString "MATCHED"; CString src; CString (date t);
    CString (dq +:+ description t +:+ dq); CNumber (amount t);
    CString (orElse (reference t) ""); CString (typeString (type t));
    optionCell (notes m) ].

Definition unmatchedRow (src note : string) (t : Transaction) : list Cell :=
  [ CString "UNMATCHED"; CString src; CString (date t);
    CString (dq +:+ description t +:+ dq); CNumber (amount t);
    CString (orElse (reference t) ""); CString (typeString (type t));
    CString note ].

(** A company name is given when it is neither [undefined] nor empty. *)
Definition truthy (companyName : option string) : bool :=
  match companyName with
  | Some (String _ _) => true
  | _ => false
  end.

(** The rows of [downloadCSV]. *)
Definition downloadCSV_rows (report : ReconciliationReport)
    (companyName : option string) (today : string) : M (list (list Cell)) :=
  let companyHeader :=
    if truthy companyName
    then CString ("Company: " +:+ orElse companyName "") ::
         replicate 7 (CString "")
    else [] in
  let reportDateHeader :=
    CString ("Generated: " +:+ today) :: replicate 7 (CString "") in
  matchedBank ← mapM (λ m, t ← deref (Some (bankParams m));
                           mret (matchedRow "BANK" t m)) (matches report);
  matchedLedger ← mapM (λ m, t ← deref (Some (ledgerParams m));
                             mret (matchedRow "LEDGER" t m)) (matches report);
  onlyBank ← mapM (λ r, t ← deref (Some r);
                        mret (unmatchedRow "BANK" "Only in Bank" t))
                  (unmatchedBank report);
  onlyLedger ← mapM (λ r, t ← deref (Some r);
                          mret (unmatchedRow "LEDGER" "Only in Ledger" t))
                    (unmatchedLedger report);
  mret ((if truthy companyName then [companyHeader] else []) ++
        [reportDateHeader] ++
        [[]] ++ (* Empty row for spacing *)
        [CString <$> ["Status"; "Source"; "Date"; "Description"; "Amount";
                      "Reference"; "Type"; "Match Notes"]] ++
        matchedBank ++ matchedLedger ++ onlyBank ++ onlyLedger).

(** The file name prefix of [downloadCSV]. *)
Definition csvSafeCompanyName (companyName : option string) : string :=
  if truthy companyName
  then replaceNonAlnum (orElse companyName "") +:+ "_"
  else "".

(** [downloadCSV] up to the call of [encodeURI]: the text of the link and
    its [download] attribute. *)
Definition downloadCSV (report : ReconciliationReport)
    (companyName : option string) (today : string) : M (string * string) :=
  rows ← downloadCSV_rows report companyName today;
  let csvContent :=
    "data:text/csv;charset=utf-8," +:+
    join nl ((λ e, join "," (cellToString <$> e)) <$> rows) in
  mret (csvContent,
        csvSafeCompanyName companyName +:+ "reconciliation_report_" +:+
        today +:+ ".csv").

(** The sheets of [downloadXLSX], each with its name and its rows, and the
    name of the file. *)
Definition xlsxTransactionRow (t : Transaction) : list Cell :=
  [ CString (date t); CString (description t); CNumber (amount t);
    CString (typeString (type t)); CString (orElse (reference t) "") ].

Definition xlsxMatchRow (b l : Transaction) (m : MatchedTransaction)
  : list Cell :=
  [ CString (date b); CString (description b);
    CString (orElse (reference b) ""); CNumber (amount b);
    CString (typeString (type b));
    CString (date l); CString (description l);
    CString (orElse (reference l) "");
    CNumber (confidence m); optionCell (notes m) ].

Definition downloadXLSX (report : ReconciliationReport)
    (companyName : option string) (today : string)
  : M (list (string * list (list Cell)) * string) :=
  let safeCompanyName := orElse companyName "My Company" in
  (* --- Summary Sheet --- *)
  let summaryData :=
    [ [CString "Reconciliation Report"];
      [CString ("Company: " +:+ safeCompanyName)];
      [CString ("Generated: " +:+ today)];
      [];
      [CString "Category"; CString "Count"; CString "Total Amount"];
      [CString "Matched Transactions"; CNat (matchCount (summary report));
       CNumber (totalMatchedAmount (summary report))];
      [CString "Unmatched (Bank)"; CNat (length (unmatchedBank report));
       CNumber (totalUnmatchedBankAmount (summary report))];
      [CString "Unmatched (Ledger)"; CNat (length (unmatchedLedger report));
       CNumber (totalUnmatchedLedgerAmount (summary report))] ] in
  (* --- Matches Sheet --- *)
  let matchesHeader :=
    CString <$> ["Bank Date"; "Bank Description"; "Bank Ref"; "Amount"; "Type";
                 "Ledger Date"; "Ledger Description"; "Ledger Ref";
                 "Match Confidence"; "Notes"] in
  matchesRows ← mapM (λ m, b ← deref (Some (bankParams m));
                           l ← deref (Some (ledgerParams m));
                           mret (xlsxMatchRow b l m)) (matches report);
  (* --- Unmatched Bank Sheet --- *)
  let bankHeader :=
    CString <$> ["Date"; "Description"; "Amount"; "Type"; "Reference"] in
  bankRows ← mapM (λ r, t ← deref (Some r); mret (xlsxTransactionRow t))
                  (unmatchedBank report);
  (* --- Unmatched Ledger Sheet --- *)
  let ledgerHeader :=
    CString <$> ["Date"; "Description"; "Amount"; "Type"; "Reference"] in
  ledgerRows ← mapM (λ r, t ← deref (Some r); mret (xlsxTransactionRow t))
                    (unmatchedLedger report);
  (* Write file *)
  let safeName := replaceNonAlnum safeCompanyName in
  mret ([ ("Summary", summaryData);
          ("Matched Transactions", matchesHeader :: matchesRows);
          ("Unmatched Bank", bankHeader :: bankRows);
          ("Unmatched Ledger", ledgerHeader :: ledgerRows) ],
        safeName +:+ "_reconciliation_report_" +:+ today +:+ ".xlsx").

End Exports.

(** [String(x)] on the integers below [10^21]: their decimal digits. *)
Definition integerToString (x : Q) : string := pretty (Qfloor x).


(** *** Reading a quoted field back

    A quoted CSV field is a double quote, the text with every double quote
    doubled, and a double quote.  [csvUnquote] reads such a field; it is the
    reader the fields of the exports are measured against. *)
Fixpoint csvUnquoteBody (s : string) : option string :=
  match s with
  | EmptyString => None
  | String c s' =>
      if Ascii.eqb c dquote then
        match s' with
        | EmptyString => Some EmptyString
        | String c' s'' =>
            if Ascii.eqb c' dquote
            then String dquote <$> csvUnquoteBody s''
            else None
        end
      else String c <$> csvUnquoteBody s'
  end.

Definition csvUnquote (s : string) : option string :=
  match s with
  | EmptyString => None
  | String c s' => if Ascii.eqb c dquote then csvUnquoteBody s' else None
  end.

(** The number of occurrences of [c] in [s]. *)
Fixpoint countChar (c : ascii) (s : string) : nat :=
  match s with
  | EmptyString => 0
  | String c' s' => (if Ascii.eqb c' c then 1 else 0) + countChar c s'
  end.



(** ** The rows of a parsed file (services/geminiService.ts) *)

Definition sourceString (s : Source) : string :=
  match s with BANK => "BANK" | LEDGER => "LEDGER" end.

(** [parseDocumentWithGemini] from the answer of the model on.  [rawData] is
    [None] when reading the file or the request fails, when the answer has no
    text or when its text is not the JSON of an array: each of these throws
    inside the [try].  The rows of an answer are taken to be records with the
    fields of the response schema; an [id] or a [source] they hold is
    overwritten.  [Date.now()] is evaluated once for every row: [now index]
    is its value for the row at [index].  The result is the array the promise
    resolves to, or the message of the error it rejects with. *)
Definition parseDocumentWithGemini (rawData : option (list Transaction))
    (source : Source) (now : nat → Z) : string + list Transaction :=
  match rawData with
  | Some rawData =>
      (* Post-process to add IDs and Source *)
      inr (imap (λ index t,
                   mkTransaction
                     (sourceString source +:+ "-" +:+ pretty (now index) +:+
                      "-" +:+ pretty index)
                     (date t) (description t) (amount t) (reference t)
                     (type t) source)
                rawData)
  | None =>
      inl ("Failed to parse " +:+ sourceString source +:+
           " file. Please ensure it is a legible PDF or CSV.")
  end.

(** ** The handlers of App.tsx

    The state of the component is a record of its nine [useState] cells and
    every setter replaces one cell.  A handler is a function on that record;
    the two handlers that go on later, [handleFileSelect] after its [await]
    and [handleReconcile] in its timer, are two functions each, and what the
    second part keeps from the first is an argument.  Every event finds the
    state as the events before it left it. *)

Module FileData.

Inductive Status := PENDING | PARSING | READY | ERROR.

(** Of a [File], its name and its media type. *)
Record File := mkFile { name : string; mimeType : string }.

Record t := mk {
  file : File;
  type : Source;
  status : Status;
  parsedData : option (list Transaction);
  error : option string
}.

End FileData.

Module App.

Record State := mkState {
  bankFile : option FileData.t;
  ledgerFile : option FileData.t;
  reconciliationReport : option (ReconciliationReport * Store);
  isProcessing : bool;
  error : option string;
  currencyCode : string;
  customSymbol : string;
  isCustomCurrency : bool;
  companyName : string
}.

Definition initial : State :=
  mkState None None None false None "USD" "" false "".

Definition setBankFile (v : option FileData.t) (s : State) : State :=
  mkState v (ledgerFile s) (reconciliationReport s) (isProcessing s) (error s)
          (currencyCode s) (customSymbol s) (isCustomCurrency s) (companyName s).

Definition setLedgerFile (v : option FileData.t) (s : State) : State :=
  mkState (bankFile s) v (reconciliationReport s) (isProcessing s) (error s)
          (currencyCode s) (customSymbol s) (isCustomCurrency s) (companyName s).

Definition setReconciliationReport (v : option (ReconciliationReport * Store))
    (s : State) : State :=
  mkState (bankFile s) (ledgerFile s) v (isProcessing s) (error s)
          (currencyCode s) (customSymbol s) (isCustomCurrency s) (companyName s).

Definition setIsProcessing (v : bool) (s : State) : State :=
  mkState (bankFile s) (ledgerFile s) (reconciliationReport s) v (error s)
          (currencyCode s) (customSymbol s) (isCustomCurrency s) (companyName s).

Definition setError (v : option string) (s : State) : State :=
  mkState (bankFile s) (ledgerFile s) (reconciliationReport s) (isProcessing s)
          v (currencyCode s) (customSymbol s) (isCustomCurrency s)
          (companyName s).

Definition setCurrencyCode (v : string) (s : State) : State :=
  mkState (bankFile s) (ledgerFile s) (reconciliationReport s) (isProcessing s)
          (error s) v (customSymbol s) (isCustomCurrency s) (companyName s).

Definition setCustomSymbol (v : string) (s : State) : State :=
  mkState (bankFile s) (ledgerFile s) (reconciliationReport s) (isProcessing s)
          (error s) (currencyCode s) v (isCustomCurrency s) (companyName s).

Definition setIsCustomCurrency (v : bool) (s : State) : State :=
  mkState (bankFile s) (ledgerFile s) (reconciliationReport s) (isProcessing s)
          (error s) (currencyCode s) (customSymbol s) v (companyName s).

Definition setCompanyName (v : string) (s : State) : State :=
  mkState (bankFile s) (ledgerFile s) (reconciliationReport s) (isProcessing s)
          (error s) (currencyCode s) (customSymbol s) (isCustomCurrency s) v.

Definition handleCurrencyChange (value : string) (s : State) : State :=
  if String.eqb value "CUSTOM"
  then setIsCustomCurrency true s
  else setCurrencyCode value (setIsCustomCurrency false s).

(** [handleFileSelect] up to its [await]: the new state and the
    [newFileData] the rest of the handler goes on with. *)
Definition handleFileSelect_start (file : FileData.File) (type : Source)
    (s : State) : State * FileData.t :=
  (* Optimistic update *)
  let newFileData := FileData.mk file type FileData.PARSING None None in
  let s := match type with
           | BANK => setBankFile (Some newFileData) s
           | LEDGER => setLedgerFile (Some newFileData) s
           end in
  (setError None s, newFileData).

(** [handleFileSelect] after its [await], on the outcome [result] of
    [parseDocumentWithGemini]; its [type] is the one of [newFileData]. *)
Definition handleFileSelect_settled (newFileData : FileData.t)
    (result : string + list Transaction) (s : State) : State :=
  match result with
  | inr parsedData =>
      let readyFileData :=
        FileData.mk (FileData.file newFileData) (FileData.type newFileData)
                    FileData.READY (Some parsedData)
                    (FileData.error newFileData) in
      match FileData.type newFileData with
      | BANK => setBankFile (Some readyFileData) s
      | LEDGER => setLedgerFile (Some readyFileData) s
      end
  | inl message =>
      let errorFileData :=
        FileData.mk (FileData.file newFileData) (FileData.type newFileData)
                    FileData.ERROR (FileData.parsedData newFileData)
                    (Some message) in
      match FileData.type newFileData with
      | BANK => setBankFile (Some errorFileData) s
      | LEDGER => setLedgerFile (Some errorFileData) s
      end
  end.

Definition handleLoadSampleData (s : State) : State :=
  (* Create dummy files for display *)
  let dummyBankFile :=
    FileData.mkFile "sample_bank_statement_mar24.pdf" "application/pdf" in
  let dummyLedgerFile :=
    FileData.mkFile "sample_general_ledger_mar24.csv" "text/csv" in
  let s := setBankFile
             (Some (FileData.mk dummyBankFile BANK FileData.READY
                                (Some SAMPLE_BANK_DATA) None)) s in
  let s := setLedgerFile
             (Some (FileData.mk dummyLedgerFile LEDGER FileData.READY
                                (Some SAMPLE_LEDGER_DATA) None)) s in
  let s := setCompanyName "Tech Startups Inc" s in
  setError None s.

(** [handleReconcile] up to [setTimeout]: the new state and, when a timer is
    set, the two arrays its callback holds. *)
Definition handleReconcile (s : State)
  : State * option (list Transaction * list Transaction) :=
  match bankFile s ≫= FileData.parsedData,
        ledgerFile s ≫= FileData.parsedData with
  | Some bank, Some ledger => (setIsProcessing true s, Some (bank, ledger))
  | _, _ =>
      (setError (Some "Please wait for both files to finish parsing.") s,
       None)
  end.

Section WithHost.
Context {host : Host}.

(** The callback of the timer of [handleReconcile]; the engine runs on a
    heap that holds the two arrays. *)
Definition handleReconcile_timeout (bank ledger : list Transaction)
    (s : State) : State :=
  let s := match reconcileTransactions 0 1 (heapOf bank ledger) with
           | Ok report σ => setReconciliationReport (Some (report, σ)) s
           | Throw =>
               setError
                 (Some "An unexpected error occurred during reconciliation.") s
           end in
  setIsProcessing false s.

Definition reset (s : State) : State :=
  setError None
    (setReconciliationReport None (setLedgerFile None (setBankFile None s))).

(** The [disabled] of the button that calls [handleReconcile]. *)
Definition reconcileDisabled (s : State) : bool :=
  negb (bool_decide (is_Some (bankFile s ≫= FileData.parsedData))) ||
  negb (bool_decide (is_Some (ledgerFile s ≫= FileData.parsedData))) ||
  isProcessing s.

(** *** The component in the browser

    Besides the state there are the calls of [handleFileSelect] that wait
    for their parse, each with its [newFileData], and the timers of
    [handleReconcile] that have not fired, each with its two arrays. *)
Record System := mkSystem {
  state : State;
  parsing : list FileData.t;
  timers : list (list Transaction * list Transaction)
}.

Inductive Event :=
| CurrencyChange (value : string)
| CompanyNameChange (value : string)
| CustomSymbolChange (value : string)
| FileSelect (file : FileData.File) (type : Source)
| ParseSettled (k : nat) (rawData : option (list Transaction)) (now : nat → Z)
| LoadSampleData
| Reconcile
| Timeout
| Reset.

(** What an event makes of the system; [None] when it cannot happen: no
    such parse is waiting, the button is disabled, no timer is set.  Timers
    have the same delay and fire in the order they were set. *)
Definition fire (e : Event) (sys : System) : option System :=
  let s := state sys in
  match e with
  | CurrencyChange value =>
      Some (mkSystem (handleCurrencyChange value s) (parsing sys) (timers sys))
  | CompanyNameChange value =>
      Some (mkSystem (setCompanyName value s) (parsing sys) (timers sys))
  | CustomSymbolChange value =>
      Some (mkSystem (setCustomSymbol value s) (parsing sys) (timers sys))
  | FileSelect file type =>
      let '(s', newFileData) := handleFileSelect_start file type s in
      Some (mkSystem s' (parsing sys ++ [newFileData]) (timers sys))
  | ParseSettled k rawData now =>
      newFileData ← parsing sys !! k;
      Some (mkSystem
              (handleFileSelect_settled newFileData
                 (parseDocumentWithGemini rawData
                    (FileData.type newFileData) now) s)
              (delete k (parsing sys)) (timers sys))
  | LoadSampleData =>
      Some (mkSystem (handleLoadSampleData s) (parsing sys) (timers sys))
  | Reconcile =>
      if reconcileDisabled s then None
      else
        let '(s', timer) := handleReconcile s in
        Some (mkSystem s' (parsing sys) (timers sys ++ option_list timer))
  | Timeout =>
      match timers sys with
      | [] => None
      | (bank, ledger) :: rest =>
          Some (mkSystem (handleReconcile_timeout bank ledger s)
                         (parsing sys) rest)
      end
  | Reset => Some (mkSystem (reset s) (parsing sys) (timers sys))
  end.

(** The systems a sequence of events leads to from the start. *)
Inductive reachable : System → Prop :=
| reachable_initial : reachable (mkSystem initial [] [])
| reachable_fire e sys sys' :
    reachable sys → fire e sys = Some sys' → reachable sys'.

(** A file slot of the state as the handlers leave it: empty, or of the type
    of the slot and waiting without rows and message, ready with rows of the
    source of the slot, or failed with a message. *)
Definition slotOk (type : Source) (slot : option FileData.t) : Prop :=
  match slot with
  | None => True
  | Some d =>
      FileData.type d = type ∧
      match FileData.status d with
      | FileData.PENDING => False
      | FileData.PARSING =>
          FileData.parsedData d = None ∧ FileData.error d = None
      | FileData.READY =>
          (∃ rows, FileData.parsedData d = Some rows ∧
                   Forall (λ t, source t = type) rows) ∧
          FileData.error d = None
      | FileData.ERROR =>
          FileData.parsedData d = None ∧ is_Some (FileData.error d)
      end
  end.

(** What holds of every system the events lead to: the two slots are as
    [slotOk] says, the calls that wait hold their [newFileData] as
    [handleFileSelect] made it, no error is set, and a timer is set exactly
    while the state is processing, and then one. *)
Definition invariant (sys : System) : Prop :=
  slotOk BANK (bankFile (state sys)) ∧
  slotOk LEDGER (ledgerFile (state sys)) ∧
  Forall (λ d, FileData.status d = FileData.PARSING ∧
               FileData.parsedData d = None ∧ FileData.error d = None)
         (parsing sys) ∧
  error (state sys) = None ∧
  length (timers sys) = (if isProcessing (state sys) then 1 else 0).

(** A sample session: a bank file is chosen, the sample data are loaded
    while it is parsed, and the reconciliation is started. *)
Definition sampleSession : System :=
  let newFileData :=
    FileData.mk (FileData.mkFile "statement.pdf" "application/pdf") BANK
                FileData.PARSING None None in
  mkSystem
    (setIsProcessing true (handleLoadSampleData initial))
    [newFileData]
    [(SAMPLE_BANK_DATA, SAMPLE_LEDGER_DATA)].

End WithHost.

End App.

(** * Properties *)

(** ** The library functions on examples *)

Example calendarDay_epoch : calendarDay "1970-01-01" = Some 0%Z.
Proof. reflexivity. Qed.

Example calendarDay_sample : calendarDay "2024-03-15" = Some 19797%Z.
Proof. reflexivity. Qed.

Example calendarDay_leap :
  calendarDay "2024-02-29" = Some 19782%Z ∧ calendarDay "2023-02-29" = None.
Proof. split; reflexivity. Qed.

Example Date_getTime_sample :
  Date_getTime "2024-03-15" = Some 1710460800000%Z.
Proof. reflexivity. Qed.

(** Doubles: the literals [0.1] and [0.01], and [0.1 + 0.2] against
    [0.3]. *)
Example roundDouble_samples :
  roundDouble (1 # 10) = (3602879701896397 # 36028797018963968)%Q ∧
  roundDouble (1 # 100) = tolerance ∧
  roundDouble 4500 = 4500%Q ∧
  roundDouble (roundDouble (1 # 10) + roundDouble (2 # 10)) ≠
    roundDouble (3 # 10).
Proof. split_and!; [vm_compute; reflexivity..|vm_compute; discriminate]. Qed.

(** The tolerance on doubles: the doubles of 245.51 and 245.50 are less
    than 0.01 apart, those of 0.0101 and 0.0001 are not, although their
    exact difference is below 1/100, and those of 0.02 and 0.01 are not. *)
Example tolerance_samples :
  (Qabs (fsub (roundDouble (24551 # 100)) (roundDouble (24550 # 100)))
   < tolerance)%Q ∧
  (Qabs (fsub (roundDouble (101 # 10000)) (roundDouble (1 # 10000)))
   == tolerance)%Q ∧
  (Qabs (roundDouble (101 # 10000) - roundDouble (1 # 10000)) < 1 # 100)%Q ∧
  (Qabs (fsub (roundDouble (2 # 100)) (roundDouble (1 # 100)))
   == tolerance)%Q.
Proof. split_and!; vm_compute; reflexivity. Qed.

Example normalize_sample :
  normalize "TechSolutions Inc - Inv #2024-001" = "techsolutionsincinv2024001".
Proof. reflexivity. Qed.

Example includes_samples :
  includes "abcdef" "cde" = true ∧ includes "abc" "abcd" = false ∧
  includes "" "" = true ∧ includes "" "a" = false.
Proof. repeat split; reflexivity. Qed.

Example unclaimed_sample :
  unclaimed [1; 3] ["a"; "b"; "c"; "d"] = ["a"; "c"].
Proof. reflexivity. Qed.

(** The sample fixtures: the AWS records have no description in common and
    are apart by zero days; the check deposit is three days apart. *)
Example sample_predicates :
  exactPredicate (SAMPLE_BANK_DATA !!! 5) (SAMPLE_LEDGER_DATA !!! 3) = true ∧
  descSim (SAMPLE_BANK_DATA !!! 5) (SAMPLE_LEDGER_DATA !!! 3) = false ∧
  exactPredicate (SAMPLE_BANK_DATA !!! 4) (SAMPLE_LEDGER_DATA !!! 2) = false ∧
  fuzzyPredicate (SAMPLE_BANK_DATA !!! 4) (SAMPLE_LEDGER_DATA !!! 2) = true.
Proof. repeat split; vm_compute; reflexivity. Qed.

Section Facts.
Context {host : Host}.

(** ** One pass, functionally *)

Section MatchPairsFacts.
Context {A B : Type}.
Variable P : A → B → bool.

(** The last bank record is the first to be treated. *)
Lemma matchPairs_snoc (ub : list A) (b : A) (ul : list B) :
  matchPairs P (ub ++ [b]) ul =
  match list_find (λ l, Is_true (P b l)) ul with
  | Some (j, l) =>
      let '(ms, bs, ul') := matchPairs P ub (delete j ul) in
      ((b, l) :: ms, bs, ul')
  | None =>
      let '(ms, bs, ul') := matchPairs P ub ul in
      (ms, bs ++ [b], ul')
  end.
Proof.
  induction ub as [|a ub IH]; simpl.
  - destruct (list_find _ ul) as [[j l]|]; reflexivity.
  - rewrite IH. destruct (list_find _ ul) as [[j l]|].
    + destruct (matchPairs P ub (delete j ul)) as [[ms bs] ul']. simpl.
      destruct (list_find _ ul') as [[j' l']|]; reflexivity.
    + destruct (matchPairs P ub ul) as [[ms bs] ul']. simpl.
      destruct (list_find _ ul') as [[j' l']|]; reflexivity.
Qed.

Lemma matchPairs_bank_perm (ub : list A) (ul : list B) :
  (matchPairs P ub ul).1.1.*1 ++ (matchPairs P ub ul).1.2 ≡ₚ ub.
Proof.
  induction ub as [|b bs IH]; simpl; [done|].
  destruct (matchPairs P bs ul) as [[ms bs'] ul']. simpl in *.
  destruct (list_find _ ul') as [[j l]|]; simpl.
  - rewrite fmap_app. simpl. rewrite <- IH.
    rewrite <- (assoc_L (++)). simpl. symmetry. apply Permutation_middle.
  - rewrite <- IH. symmetry. apply Permutation_middle.
Qed.

Lemma delete_lookup_perm {X} (l : list X) (j : nat) (x : X) :
  l !! j = Some x → x :: delete j l ≡ₚ l.
Proof.
  revert j. induction l as [|y l IH]; intros [|j] H; simplify_eq/=; [done|].
  rewrite Permutation_swap. f_equiv. by apply IH.
Qed.

Lemma matchPairs_ledger_perm (ub : list A) (ul : list B) :
  (matchPairs P ub ul).1.1.*2 ++ (matchPairs P ub ul).2 ≡ₚ ul.
Proof.
  induction ub as [|b bs IH]; simpl; [done|].
  destruct (matchPairs P bs ul) as [[ms bs'] ul']. simpl in *.
  destruct (list_find _ ul') as [[j l]|] eqn:E; simpl; [|done].
  apply list_find_Some in E as (Hj & _ & _).
  rewrite fmap_app. simpl. rewrite <- IH.
  rewrite <- (assoc_L (++)). simpl. f_equiv. by apply delete_lookup_perm.
Qed.

Lemma matchPairs_bank_sublist (ub : list A) (ul : list B) :
  (matchPairs P ub ul).1.2 `sublist_of` ub.
Proof.
  induction ub as [|b bs IH]; simpl; [done|].
  destruct (matchPairs P bs ul) as [[ms bs'] ul']. simpl in *.
  destruct (list_find _ ul') as [[j l]|]; simpl.
  - by apply sublist_cons.
  - by apply sublist_skip.
Qed.

Lemma matchPairs_ledger_sublist (ub : list A) (ul : list B) :
  (matchPairs P ub ul).2 `sublist_of` ul.
Proof.
  induction ub as [|b bs IH]; simpl; [done|].
  destruct (matchPairs P bs ul) as [[ms bs'] ul']. simpl in *.
  destruct (list_find _ ul') as [[j l]|]; simpl; [|done].
  etrans; [apply sublist_delete|done].
Qed.

(** The pairs come out in the reverse of the bank order. *)
Lemma matchPairs_found_sublist (ub : list A) (ul : list B) :
  reverse (matchPairs P ub ul).1.1.*1 `sublist_of` ub.
Proof.
  induction ub as [|b bs IH]; simpl; [done|].
  destruct (matchPairs P bs ul) as [[ms bs'] ul']. simpl in *.
  destruct (list_find _ ul') as [[j l]|]; simpl.
  - rewrite fmap_app, reverse_app. simpl. by apply sublist_skip.
  - by apply sublist_cons.
Qed.

(** Every pair found satisfies the predicate of the pass. *)
Lemma matchPairs_sound (ub : list A) (ul : list B) :
  Forall (λ m, P m.1 m.2 = true) (matchPairs P ub ul).1.1.
Proof.
  induction ub as [|b bs IH]; simpl; [done|].
  destruct (matchPairs P bs ul) as [[ms bs'] ul']. simpl in *.
  destruct (list_find _ ul') as [[j l]|] eqn:E; simpl; [|done].
  apply list_find_Some in E as (_ & HP & _).
  apply Forall_app. split; [done|].
  constructor; [|done]. simpl. by apply Is_true_true.
Qed.

(** No pair that satisfies the predicate is left in the pools. *)
Lemma matchPairs_complete (ub : list A) (ul : list B) (b : A) (l : B) :
  b ∈ (matchPairs P ub ul).1.2 → l ∈ (matchPairs P ub ul).2 → P b l = false.
Proof.
  revert b l. induction ub as [|a bs IH]; simpl; intros b l Hb Hl.
  { by apply elem_of_nil in Hb. }
  pose proof (matchPairs_ledger_sublist bs ul) as Hsub.
  destruct (matchPairs P bs ul) as [[ms bs'] ul']. simpl in *.
  destruct (list_find _ ul') as [[j l']|] eqn:E; simpl in *.
  - apply IH; [done|]. eapply elem_of_sublist; [done|apply sublist_delete].
  - apply elem_of_cons in Hb as [->|Hb]; [|by apply IH].
    apply list_find_None in E.
    rewrite Forall_forall in E. specialize (E l Hl).
    destruct (P a l); [by destruct E|done].
Qed.

End MatchPairsFacts.

(** [matchPairs] commutes with a renaming of the elements of the pools. *)
Lemma matchPairs_fmap {A B A' B'} (f : A' → A) (g : B' → B)
    (P : A → B → bool) (ub : list A') (ul : list B') :
  matchPairs P (f <$> ub) (g <$> ul) =
  let '(ms, bs, ls) := matchPairs (λ a b, P (f a) (g b)) ub ul in
  (prod_map f g <$> ms, f <$> bs, g <$> ls).
Proof.
  induction ub as [|b bs IH]; [done|].
  rewrite fmap_cons. cbn [matchPairs]. rewrite IH. clear IH.
  destruct (matchPairs _ bs ul) as [[ms bs'] ls]. simpl.
  rewrite list_find_fmap.
  unfold compose.
  destruct (list_find _ ls) as [[j l]|]; simpl; [|done].
  rewrite fmap_app. simpl. by rewrite list_fmap_delete.
Qed.

(** ** One pass against the wording of the specification *)

Lemma SpecPass_equiv {A B} (E E' : A → B → Prop) ub ul found ub' ul' :
  (∀ a b, E a b ↔ E' a b) →
  SpecPass E ub ul found ub' ul' → SpecPass E' ub ul found ub' ul'.
Proof.
  intros HE. induction 1 as [ul|ub b ul j l found ub' ul' (Hj & Hb & Hfirst) _ IH
                            |ub b ul found ub' ul' Hnone _ IH].
  - constructor.
  - eapply SpecPass_hit; [|done]. split_and!; [done|by apply HE|].
    intros j' l' Hlt Hl' HE'. eapply Hfirst; [done..|by apply HE].
  - apply SpecPass_miss; [|done]. intros l Hl HE'. eapply Hnone; [done|by apply HE].
Qed.

Lemma matchPairs_SpecPass {A B} (P : A → B → bool) (ub : list A) (ul : list B) :
  SpecPass (λ a b, P a b = true) ub ul
    (matchPairs P ub ul).1.1 (matchPairs P ub ul).1.2 (matchPairs P ub ul).2.
Proof.
  revert ul. induction ub as [|b ub IH] using rev_ind; intros ul; simpl.
  { constructor. }
  rewrite matchPairs_snoc.
  destruct (list_find _ ul) as [[j l]|] eqn:E.
  - apply list_find_Some in E as (Hj & HP & Hfirst).
    specialize (IH (delete j ul)).
    destruct (matchPairs P ub (delete j ul)) as [[ms bs] ul']. simpl in *.
    eapply SpecPass_hit; [|done]. split_and!; [done|by apply Is_true_true|].
    intros j' l' Hlt Hl' HP'. eapply Hfirst; [done..|by apply Is_true_true].
  - apply list_find_None in E. rewrite Forall_forall in E.
    specialize (IH ul).
    destruct (matchPairs P ub ul) as [[ms bs] ul']. simpl in *.
    apply SpecPass_miss; [|done]. intros l Hl HP. apply (E l Hl).
    by apply Is_true_true.
Qed.

Lemma FirstEligible_unique {A B} (E : A → B → Prop) b pool j l j' l' :
  FirstEligible E b pool j l → FirstEligible E b pool j' l' → j = j' ∧ l = l'.
Proof.
  intros (Hj & HE & Hfirst) (Hj' & HE' & Hfirst').
  assert (j = j') as ->.
  { destruct (lt_eq_lt_dec j j') as [[Hlt|Heq]|Hlt]; [|done|].
    - by destruct (Hfirst' j l Hlt Hj).
    - by destruct (Hfirst j' l' Hlt Hj'). }
  split; [done|congruence].
Qed.

Lemma SpecPass_nil_inv {A B} (E : A → B → Prop) ul found ub' ul' :
  SpecPass E [] ul found ub' ul' → found = [] ∧ ub' = [] ∧ ul' = ul.
Proof.
  intros H. remember [] as ub eqn:Hub.
  destruct H as [|ub ? ? ? ? ? ? ? ? ?|ub ? ? ? ? ? ? ?]; [done|by destruct ub..].
Qed.

Lemma SpecPass_snoc_inv {A B} (E : A → B → Prop) ub b ul found ub' ul' :
  SpecPass E (ub ++ [b]) ul found ub' ul' →
  (∃ j l rest, FirstEligible E b ul j l ∧
     SpecPass E ub (delete j ul) rest ub' ul' ∧ found = (b, l) :: rest) ∨
  ((∀ l, l ∈ ul → ¬ E b l) ∧
   ∃ bs, SpecPass E ub ul found bs ul' ∧ ub' = bs ++ [b]).
Proof.
  intros H. remember (ub ++ [b]) as ubb eqn:Hub.
  destruct H as [|ub0 b0 ul j l rest ub' ul' Hfirst Hrest
                 |ub0 b0 ul rest ub' ul' Hnone Hrest].
  - by destruct ub.
  - apply app_inj_tail in Hub as [-> ->]. left. eauto 10.
  - apply app_inj_tail in Hub as [-> ->]. right. eauto 10.
Qed.

(** The relation determines the outcome of a pass. *)
Lemma SpecPass_deterministic {A B} (E : A → B → Prop) ub ul f1 b1 l1 f2 b2 l2 :
  SpecPass E ub ul f1 b1 l1 → SpecPass E ub ul f2 b2 l2 →
  f1 = f2 ∧ b1 = b2 ∧ l1 = l2.
Proof.
  intros H1. revert f2 b2 l2.
  induction H1 as [ul|ub b ul j l found ub' ul' Hfirst _ IH
                  |ub b ul found ub' ul' Hnone _ IH]; intros f2 b2 l2 H2.
  - apply SpecPass_nil_inv in H2 as (-> & -> & ->). done.
  - apply SpecPass_snoc_inv in H2
      as [(j' & l' & rest & Hfirst' & Hrest & ->)|(Hnone' & _)].
    + destruct (FirstEligible_unique _ _ _ _ _ _ _ Hfirst Hfirst') as [-> ->].
      destruct (IH _ _ _ Hrest) as (-> & -> & ->). done.
    + destruct Hfirst as (Hj & HE & _).
      destruct (Hnone' l); [|done]. by eapply list_elem_of_lookup_2.
  - apply SpecPass_snoc_inv in H2
      as [(j' & l' & rest & Hfirst' & Hrest & ->)|(Hnone' & bs & Hrest & ->)].
    + destruct Hfirst' as (Hj & HE & _).
      destruct (Hnone l'); [|done]. by eapply list_elem_of_lookup_2.
    + destruct (IH _ _ _ Hrest) as (-> & -> & ->). done.
Qed.

(** ** The loop of the source computes [matchPairs] *)

Lemma bind_run {X Y} (m : M X) (k : X → M Y) (σ : Store) :
  (m ≫= k) σ = match m σ with Ok a σ' => k a σ' | Throw => Throw end.
Proof. reflexivity. Qed.

Lemma findIndexFrom_run P σ b tb l k :
  txs σ !! b = Some tb → allocated σ l →
  findIndexFrom (callback P (Some b)) l k σ =
  Ok ((λ jl : nat * loc, k + jl.1) <$>
        list_find (λ r, Is_true (onHeap (txs σ) P b r)) l) σ.
Proof.
  intros Hb Hl. revert k. induction Hl as [|r l [tr Hr] Hl IH]; intros k; [done|].
  cbn [findIndexFrom list_find]. rewrite bind_run.
  unfold callback at 1. rewrite !bind_run. simpl. rewrite Hr.
  rewrite bind_run. simpl. rewrite Hb.
  assert (onHeap (txs σ) P b r = P tb tr) as Hoh.
  { unfold onHeap. by rewrite Hb, Hr. }
  change ((mret (M:=M) (P tb tr) : M bool) σ) with (Ok (P tb tr) σ). cbv beta iota.
  destruct (P tb tr) eqn:HP.
  - destruct (decide _) as [_|Hd]; [|by rewrite Hoh in Hd].
    simpl. do 2 f_equal. lia.
  - destruct (decide _) as [Hd|_]; [by rewrite Hoh in Hd|]. rewrite IH.
    destruct (list_find _ l) as [[j x]|]; simpl; [|done].
    do 2 f_equal. lia.
Qed.

Lemma allocated_sublist σ l l' :
  l' `sublist_of` l → allocated σ l → allocated σ l'.
Proof.
  unfold allocated. rewrite !Forall_forall. intros Hsub H x Hx.
  apply H. by eapply elem_of_sublist.
Qed.

Lemma withPools_bank σ uB uL ub ul :
  uB ≠ uL → arrays (withPools σ uB uL ub ul) !! uB = Some ub.
Proof. intros. simpl. rewrite lookup_insert_ne by done. apply lookup_insert_eq. Qed.

Lemma withPools_ledger σ uB uL ub ul :
  arrays (withPools σ uB uL ub ul) !! uL = Some ul.
Proof. simpl. apply lookup_insert_eq. Qed.

Lemma splice1_withPools_bank σ uB uL ub ul i :
  uB ≠ uL →
  splice1 uB i (withPools σ uB uL ub ul) =
  Ok tt (withPools σ uB uL (delete i ub) ul).
Proof.
  intros Hne. unfold splice1. rewrite withPools_bank by done.
  f_equal. unfold withPools. simpl. f_equal.
  rewrite (insert_insert_ne _ uB uL) by done. by rewrite insert_insert_eq.
Qed.

Lemma splice1_withPools_ledger σ uB uL ub ul j :
  splice1 uL j (withPools σ uB uL ub ul) =
  Ok tt (withPools σ uB uL ub (delete j ul)).
Proof.
  unfold splice1. rewrite withPools_ledger.
  f_equal. unfold withPools. simpl. f_equal. by rewrite insert_insert_eq.
Qed.

Lemma matchLoop_run P conf note uB uL σ0 :
  uB ≠ uL →
  ∀ n ub ul ms,
    n ≤ length ub → allocated σ0 ub → allocated σ0 ul →
    matchLoop P conf note uB uL n ms (withPools σ0 uB uL ub ul) =
    let '(found, ub', ul') := matchPairs (onHeap (txs σ0) P) (take n ub) ul in
    Ok (ms ++ (toMatch conf note <$> found))
       (withPools σ0 uB uL (ub' ++ drop n ub) ul').
Proof.
  intros Hne. induction n as [|i IH]; intros ub ul ms Hn Hub Hul.
  { simpl. rewrite drop_0, app_nil_r. done. }
  destruct (lookup_lt_is_Some_2 ub i) as [b Hb]; [lia|].
  assert (is_Some (txs σ0 !! b)) as [tb Htb].
  { eapply Forall_forall in Hub; [done|]. by eapply list_elem_of_lookup_2. }
  rewrite (take_S_r _ _ _ Hb), matchPairs_snoc.
  cbn [matchLoop]. rewrite bind_run.
  unfold arrayGet at 1. rewrite withPools_bank, Hb by done. rewrite bind_run.
  unfold findIndex. rewrite bind_run. unfold arrayElements.
  rewrite withPools_ledger.
  rewrite (findIndexFrom_run _ _ _ tb) by done.
  change (txs (withPools σ0 uB uL ub ul)) with (txs σ0).
  destruct (list_find _ ul) as [[j l]|] eqn:E.
  - apply list_find_Some in E as (Hj & _ & _).
    cbn [fmap option_fmap option_map fst plus].
    rewrite bind_run. unfold arrayGet at 1. rewrite withPools_ledger, Hj.
    rewrite bind_run. cbn [newMatch]. rewrite bind_run.
    rewrite splice1_withPools_bank by done. rewrite bind_run.
    rewrite splice1_withPools_ledger.
    rewrite IH; cycle 1.
    { rewrite length_delete by eauto. lia. }
    { eapply allocated_sublist; [apply sublist_delete|done]. }
    { eapply allocated_sublist; [apply sublist_delete|done]. }
    assert (length (take i ub) = i) as Hlen by (rewrite length_take; lia).
    rewrite (delete_take_drop ub i).
    rewrite take_app_length', drop_app_length' by done.
    destruct (matchPairs _ (take i ub) (delete j ul)) as [[found ub'] ul'].
    simpl. by rewrite <- (assoc_L (++)).
  - cbn [fmap option_fmap option_map].
    rewrite IH by (done || lia).
    destruct (matchPairs _ (take i ub) ul) as [[found ub'] ul'].
    rewrite (drop_S _ _ _ Hb). by rewrite <- (assoc_L (++)).
Qed.

Lemma matchPass_run P conf note uB uL σ0 ub ul ms :
  uB ≠ uL → allocated σ0 ub → allocated σ0 ul →
  matchPass P conf note uB uL ms (withPools σ0 uB uL ub ul) =
  let '(found, ub', ul') := matchPairs (onHeap (txs σ0) P) ub ul in
  Ok (ms ++ (toMatch conf note <$> found)) (withPools σ0 uB uL ub' ul').
Proof.
  intros Hne Hub Hul. unfold matchPass. rewrite bind_run.
  unfold arrayLength. rewrite withPools_bank by done.
  rewrite matchLoop_run by done.
  rewrite firstn_all, drop_all.
  destruct (matchPairs _ ub ul) as [[found ub'] ul']. by rewrite app_nil_r.
Qed.

(** ** The whole function *)

Lemma sumAmountsFrom_run σ l acc :
  allocated σ l →
  sumAmountsFrom l acc σ =
  Ok (foldl (λ a r, (a + amountAt (txs σ) r)%Q) acc l) σ.
Proof.
  intros Hl. revert acc. induction Hl as [|r l [t Hr] _ IH]; intros acc; [done|].
  cbn [sumAmountsFrom foldl]. rewrite bind_run. simpl. rewrite Hr, IH.
  unfold amountAt. by rewrite Hr.
Qed.

Lemma sumMatchedFrom_run σ ms acc :
  allocated σ (bankParams <$> ms) →
  sumMatchedFrom ms acc σ =
  Ok (foldl (λ a r, (a + amountAt (txs σ) r)%Q) acc (bankParams <$> ms)) σ.
Proof.
  revert acc. induction ms as [|m ms IH]; intros acc Hl; [done|].
  apply Forall_cons in Hl as [[t Hr] Hl].
  cbn [sumMatchedFrom foldl fmap list_fmap]. rewrite bind_run. simpl.
  rewrite Hr, IH by done. unfold amountAt. by rewrite Hr.
Qed.

Lemma matchPairs_allocated σ P ub ul :
  allocated σ ub → allocated σ ul →
  allocated σ (matchPairs P ub ul).1.1.*1 ∧
  allocated σ (matchPairs P ub ul).1.2 ∧
  allocated σ (matchPairs P ub ul).2.
Proof.
  intros Hub Hul. split_and!.
  - unfold allocated. rewrite <- (Forall_reverse _ _).
    eapply allocated_sublist; [apply matchPairs_found_sublist|done].
  - eapply allocated_sublist; [apply matchPairs_bank_sublist|done].
  - eapply allocated_sublist; [apply matchPairs_ledger_sublist|done].
Qed.

Lemma bankParams_matchesOf m1 m2 m3 :
  bankParams <$> matchesOf m1 m2 m3 = m1.*1 ++ m2.*1 ++ m3.*1.
Proof.
  unfold matchesOf. rewrite !fmap_app, <- !list_fmap_compose. done.
Qed.

Lemma ledgerParams_matchesOf m1 m2 m3 :
  ledgerParams <$> matchesOf m1 m2 m3 = m1.*2 ++ m2.*2 ++ m3.*2.
Proof.
  unfold matchesOf. rewrite !fmap_app, <- !list_fmap_compose. done.
Qed.

(** On arrays of transaction objects the function returns; its report is
    the one of [passes], and the heap gains the two working arrays. *)
Lemma reconcileTransactions_run σ aB aL bank ledger :
  validInput σ aB aL bank ledger →
  ∃ uB uL,
    arrays σ !! uB = None ∧ arrays σ !! uL = None ∧ uB ≠ uL ∧
    reconcileTransactions aB aL σ =
    let rep := reportOf (txs σ) (passes (txs σ) bank ledger) in
    Ok rep (withPools σ uB uL (unmatchedBank rep) (unmatchedLedger rep)).
Proof.
  intros (HB & HL & Halloc). apply Forall_app in Halloc as [Hbank Hledger].
  set (uB := fresh (dom (arrays σ))).
  set (σ1 := mkStore (txs σ) (<[uB := bank]> (arrays σ))).
  set (uL := fresh (dom (arrays σ1))).
  assert (arrays σ !! uB = None) as HuB.
  { apply not_elem_of_dom. apply is_fresh. }
  assert (arrays σ1 !! uL = None) as HuL1.
  { apply not_elem_of_dom. apply is_fresh. }
  assert (uB ≠ uL) as Hne.
  { intros Heq. rewrite <- Heq in HuL1. simpl in HuL1.
    by rewrite lookup_insert_eq in HuL1. }
  assert (arrays σ !! uL = None) as HuL.
  { simpl in HuL1. by rewrite lookup_insert_ne in HuL1. }
  unfold reconcileTransactions. rewrite bind_run.
  unfold spread at 1. rewrite HB. fold uB. fold σ1. rewrite bind_run.
  unfold spread at 1.
  assert (arrays σ1 !! aL = Some ledger) as ->.
  { simpl. rewrite lookup_insert_ne; [done|]. intros ->. congruence. }
  fold uL. change (mkStore (txs σ1) _) with (withPools σ uB uL bank ledger).
  unfold passes, threePasses.
  destruct (matchPairs_allocated σ (onHeap (txs σ) exactPredicate) bank ledger)
    as (Hm1 & Hb1 & Hl1); [done..|].
  rewrite bind_run, matchPass_run by done.
  destruct (matchPairs _ bank ledger) as [[m1 ub1] ul1]. simpl in Hm1, Hb1, Hl1.
  destruct (matchPairs_allocated σ (onHeap (txs σ) fuzzyPredicate) ub1 ul1)
    as (Hm2 & Hb2 & Hl2); [done..|].
  rewrite bind_run, matchPass_run by done.
  destruct (matchPairs _ ub1 ul1) as [[m2 ub2] ul2]. simpl in Hm2, Hb2, Hl2.
  destruct (matchPairs_allocated σ (onHeap (txs σ) descriptionPredicate) ub2 ul2)
    as (Hm3 & Hb3 & Hl3); [done..|].
  rewrite bind_run, matchPass_run by done.
  destruct (matchPairs _ ub2 ul2) as [[m3 ub3] ul3]. simpl in Hm3, Hb3, Hl3.
  exists uB, uL. split_and!; [done..|].
  rewrite app_nil_l, <- (assoc_L (++)). fold (matchesOf m1 m2 m3).
  rewrite bind_run, sumMatchedFrom_run; cycle 1.
  { rewrite bankParams_matchesOf. unfold allocated. rewrite !Forall_app. done. }
  rewrite bind_run. unfold sumAmounts at 1. rewrite bind_run.
  unfold arrayElements at 1. rewrite withPools_bank by done.
  rewrite sumAmountsFrom_run by done.
  rewrite bind_run. unfold sumAmounts at 1. rewrite bind_run.
  unfold arrayElements at 1. rewrite withPools_ledger.
  rewrite sumAmountsFrom_run by done.
  rewrite bind_run. unfold arrayElements at 1. rewrite withPools_bank by done.
  rewrite bind_run. unfold arrayElements at 1. rewrite withPools_ledger.
  reflexivity.
Qed.

(** ** Rounding to the nearest double *)

Lemma roundTiesToEven_bounds (x : Q) :
  (Qfloor x ≤ roundTiesToEven x ≤ Qfloor x + 1)%Z.
Proof.
  unfold roundTiesToEven. destruct (_ ?= _)%Q; [destruct (Z.even _)|..]; lia.
Qed.

Lemma roundTiesToEven_Z (n : Z) : roundTiesToEven (inject_Z n) = n.
Proof.
  unfold roundTiesToEven. rewrite Qfloor_Z.
  destruct (Qcompare_spec (inject_Z n - inject_Z n) (1 # 2)) as [E|E|E];
    [exfalso; lra|done|exfalso; lra].
Qed.

Lemma roundTiesToEven_mono (x y : Q) :
  (x <= y)%Q → (roundTiesToEven x ≤ roundTiesToEven y)%Z.
Proof.
  intros Hxy. pose proof (Qfloor_resp_le _ _ Hxy) as Hf.
  destruct (Z.eq_dec (Qfloor x) (Qfloor y)) as [E|NE].
  - unfold roundTiesToEven. rewrite <- E.
    destruct (Qcompare_spec (x - inject_Z (Qfloor x)) (1 # 2)) as [E1|E1|E1];
      destruct (Qcompare_spec (y - inject_Z (Qfloor x)) (1 # 2)) as [E2|E2|E2];
      try (destruct (Z.even _)); try lia; exfalso; lra.
  - pose proof (roundTiesToEven_bounds x). pose proof (roundTiesToEven_bounds y).
    lia.
Qed.

Lemma pow2_pos (n : Z) : (0 < inject_Z (2 ^ n))%Q ∨ (n < 0)%Z.
Proof.
  destruct (Z.le_gt_cases 0 n) as [H|H]; [left|right; lia].
  change 0%Q with (inject_Z 0). rewrite <- Zlt_Qlt. by apply Z.pow_pos_nonneg.
Qed.

Lemma binade_nonneg (y : Q) : (0 ≤ binade y)%Z.
Proof. unfold binade. lia. Qed.

(** Below [N] units of the binade the rounding stays below [N] units. *)
Lemma roundTiesToEven_le (x : Q) (n : Z) :
  (x <= inject_Z n)%Q → (roundTiesToEven x ≤ n)%Z.
Proof. intros H. rewrite <- (roundTiesToEven_Z n). by apply roundTiesToEven_mono. Qed.

Lemma roundTiesToEven_ge (x : Q) (n : Z) :
  (inject_Z n <= x)%Q → (n ≤ roundTiesToEven x)%Z.
Proof. intros H. rewrite <- (roundTiesToEven_Z n) at 1. by apply roundTiesToEven_mono. Qed.

Lemma roundUnits_mono (x y : Q) :
  (0 <= x)%Q → (x <= y)%Q → (roundUnits x ≤ roundUnits y)%Z.
Proof.
  intros H0 Hxy.
  assert (0 ≤ Qfloor x)%Z as Hfx0.
  { rewrite <- (Qfloor_Z 0). by apply Qfloor_resp_le. }
  pose proof (Qfloor_resp_le _ _ Hxy) as Hf.
  pose proof (Z.log2_le_mono _ _ Hf) as HL.
  pose proof (Z.log2_nonneg (Qfloor x)) as HLx0.
  unfold roundUnits, binade.
  set (Lx := Z.log2 (Qfloor x)) in *. set (Ly := Z.log2 (Qfloor y)) in *.
  set (qx := Z.max (Lx - 52) 0). set (qy := Z.max (Ly - 52) 0).
  assert (0 < inject_Z (2 ^ qx))%Q as Hpx.
  { destruct (pow2_pos qx); [done|lia]. }
  assert (0 < inject_Z (2 ^ qy))%Q as Hpy.
  { destruct (pow2_pos qy); [done|lia]. }
  destruct (Z.eq_dec qx qy) as [E|NE].
  - rewrite <- E. apply Z.mul_le_mono_nonneg_r; [apply Z.pow_nonneg; lia|].
    apply roundTiesToEven_mono. apply Qmult_le_compat_r; [done|].
    apply Qlt_le_weak, Qinv_lt_0_compat. done.
  - assert (Lx + 1 ≤ Ly ∧ qy = Ly - 52 ∧ 53 ≤ Ly)%Z as (HLxy & Eqy & HLy) by lia.
    trans (2 ^ (Lx + 1))%Z; [|trans (2 ^ Ly)%Z].
    + assert (2 ^ (Lx + 1) = 2 ^ (Lx + 1 - qx) * 2 ^ qx)%Z as ->.
      { rewrite <- Z.pow_add_r by lia. f_equal. lia. }
      apply Z.mul_le_mono_nonneg_r; [apply Z.pow_nonneg; lia|].
      apply roundTiesToEven_le. apply Qle_shift_div_r; [done|].
      rewrite <- inject_Z_mult, <- Z.pow_add_r by lia.
      replace (Lx + 1 - qx + qx)%Z with (Lx + 1)%Z by lia.
      apply Qlt_le_weak. eapply Qlt_le_trans; [apply Qlt_floor|].
      rewrite <- Zle_Qle.
      destruct (Z.eq_dec (Qfloor x) 0) as [E0|N0].
      * rewrite E0. subst Lx. rewrite E0. simpl. lia.
      * pose proof (Z.log2_spec (Qfloor x) ltac:(lia)) as Hspec. fold Lx in Hspec.
        replace (Z.succ Lx) with (Lx + 1)%Z in Hspec by lia. lia.
    + apply Z.pow_le_mono_r; lia.
    + assert (2 ^ Ly = 2 ^ 52 * 2 ^ qy)%Z as ->.
      { rewrite <- Z.pow_add_r by lia. f_equal. lia. }
      apply Z.mul_le_mono_nonneg_r; [apply Z.pow_nonneg; lia|].
      apply roundTiesToEven_ge. apply Qle_shift_div_l; [done|].
      rewrite <- inject_Z_mult, <- Z.pow_add_r by lia.
      replace (52 + qy)%Z with Ly by lia.
      eapply Qle_trans; [|apply Qfloor_le].
      rewrite <- Zle_Qle.
      assert (0 < Qfloor y)%Z as Hpos.
      { destruct (Z.le_gt_cases (Qfloor y) 0) as [Hle|]; [|lia].
        pose proof (Z.log2_nonpos _ Hle). lia. }
      pose proof (Z.log2_spec _ Hpos) as Hspec. fold Ly in Hspec. lia.
Qed.

Lemma roundUnits_nonneg (x : Q) : (0 <= x)%Q → (0 ≤ roundUnits x)%Z.
Proof.
  intros H. unfold roundUnits.
  pose proof (binade_nonneg x) as Hb.
  apply Z.mul_nonneg_nonneg; [|apply Z.pow_nonneg; lia].
  apply roundTiesToEven_ge. apply Qle_shift_div_l.
  - destruct (pow2_pos (binade x)); [done|lia].
  - by rewrite Qmult_0_l.
Qed.

Lemma roundMagnitude_mono (x y : Q) :
  (0 <= x)%Q → (x <= y)%Q → (roundMagnitude x <= roundMagnitude y)%Q.
Proof.
  intros H0 Hxy. unfold roundMagnitude.
  apply Qmult_le_compat_r; [|done].
  rewrite <- Zle_Qle. apply roundUnits_mono.
  - apply Qmult_le_0_compat; done.
  - apply Qmult_le_compat_r; done.
Qed.

Lemma roundMagnitude_nonneg (x : Q) : (0 <= x)%Q → (0 <= roundMagnitude x)%Q.
Proof.
  intros H. unfold roundMagnitude. apply Qmult_le_0_compat; [|done].
  change 0%Q with (inject_Z 0). rewrite <- Zle_Qle. apply roundUnits_nonneg.
  apply Qmult_le_0_compat; done.
Qed.

Lemma Qabs_nonneg_eq (x : Q) : (0 <= x)%Q → Qabs x = x.
Proof.
  destruct x as [n d]. unfold Qle, Qabs. simpl. intros H.
  f_equal. apply Z.abs_eq. lia.
Qed.

Lemma Qabs_neg_eq (x : Q) : ¬ (0 <= x)%Q → Qabs x = (- x)%Q.
Proof.
  destruct x as [n d]. unfold Qle, Qabs, Qopp. simpl. intros H.
  f_equal. apply Z.abs_neq. lia.
Qed.

(** The magnitude of the rounded number is the rounded magnitude. *)
Lemma roundDouble_abs (x : Q) :
  (Qabs (roundDouble x) == roundMagnitude (Qabs x))%Q.
Proof.
  unfold roundDouble. rewrite Qred_correct.
  destruct (Qle_bool 0 x) eqn:E.
  - apply Qle_bool_iff in E. rewrite (Qabs_nonneg_eq x E).
    apply Qabs_pos, roundMagnitude_nonneg, E.
  - assert (¬ (0 <= x)%Q) as Hneg.
    { intros H. apply Qle_bool_iff in H. congruence. }
    rewrite (Qabs_neg_eq x Hneg). rewrite Qabs_opp.
    apply Qabs_pos, roundMagnitude_nonneg. lra.
Qed.


Lemma tolerance_below (x y : Q) :
  (Qabs (x - y) <= 9999999999999998 # 1000000000000000000)%Q →
  (Qabs (fsub x y) < tolerance)%Q.
Proof.
  intros H. unfold fsub. rewrite roundDouble_abs.
  eapply Qle_lt_trans.
  - apply roundMagnitude_mono; [apply Qabs_nonneg|exact H].
  - vm_compute. reflexivity.
Qed.

Lemma tolerance_above (x y : Q) :
  (10000000000000001 # 1000000000000000000 <= Qabs (x - y))%Q →
  ¬ (Qabs (fsub x y) < tolerance)%Q.
Proof.
  intros H. unfold fsub. rewrite roundDouble_abs. apply Qle_not_lt.
  eapply Qle_trans; [|apply roundMagnitude_mono; [|exact H]].
  - vm_compute. discriminate.
  - done.
Qed.

Lemma dayDiff_exact (d1 d2 : Z) :
  (Qabs (fdiv (fsub (inject_Z d1) (inject_Z d2)) (inject_Z msPerDay)) <= 3)%Q ↔
  (Z.abs (d1 - d2) ≤ 3 * msPerDay)%Z.
Proof.
  unfold fdiv. rewrite roundDouble_abs.
  assert (Qabs (fsub (inject_Z d1) (inject_Z d2) / inject_Z msPerDay)
          == roundMagnitude (inject_Z (Z.abs (d1 - d2))) / inject_Z msPerDay)%Q
    as Hq.
  { unfold Qdiv. rewrite Qabs_Qmult. unfold fsub. rewrite roundDouble_abs.
    rewrite (Qabs_pos (/ _)) by done.
    assert (Qabs (inject_Z d1 - inject_Z d2) = inject_Z (Z.abs (d1 - d2))) as ->.
    { unfold inject_Z, Qminus, Qplus, Qopp, Qabs. simpl. f_equal. lia. }
    reflexivity. }
  split.
  - intros H. apply Z.le_ngt. intros Hgt.
    assert (inject_Z (3 * msPerDay + 1) <= inject_Z (Z.abs (d1 - d2)))%Q as Hle.
    { rewrite <- Zle_Qle. lia. }
    apply roundMagnitude_mono in Hle; [|by vm_compute].
    assert (roundMagnitude (inject_Z (3 * msPerDay + 1)) / inject_Z msPerDay
            <= Qabs (fsub (inject_Z d1) (inject_Z d2) / inject_Z msPerDay))%Q
      as Hle2.
    { rewrite Hq. apply Qmult_le_compat_r; [exact Hle|by vm_compute]. }
    apply (roundMagnitude_mono _ _) in Hle2; cycle 1.
    { vm_compute. discriminate. }
    apply (Qle_not_lt _ _ (Qle_trans _ _ _ Hle2 H)).
    vm_compute. reflexivity.
  - intros H.
    assert (inject_Z (Z.abs (d1 - d2)) <= inject_Z (3 * msPerDay))%Q as Hle.
    { by rewrite <- Zle_Qle. }
    apply roundMagnitude_mono in Hle; cycle 1.
    { change 0%Q with (inject_Z 0). rewrite <- Zle_Qle. lia. }
    eapply Qle_trans.
    + apply roundMagnitude_mono; [apply Qabs_nonneg|].
      rewrite Hq. apply Qmult_le_compat_r; [exact Hle|by vm_compute].
    + vm_compute. discriminate.
Qed.

(** From here on the rounding is used through these lemmas. *)
#[global] Opaque roundUnits roundMagnitude roundDouble.

(** ** The predicates of the three passes *)

Lemma Qltb_spec (x y : Q) : Qltb x y = true ↔ (x < y)%Q.
Proof.
  unfold Qltb. rewrite negb_true_iff. split.
  - intros H. apply Qnot_le_lt. intros Hle.
    apply Qle_bool_iff in Hle. congruence.
  - intros H. destruct (Qle_bool y x) eqn:E; [|done].
    apply Qle_bool_iff in E. by apply Qlt_not_le in H.
Qed.

Lemma amountMatch_spec bankTx ledgerTx :
  amountMatch bankTx ledgerTx = true ↔ AmountWithinTolerance bankTx ledgerTx.
Proof. apply Qltb_spec. Qed.

Lemma typeMatch_spec bankTx ledgerTx :
  typeMatch bankTx ledgerTx = true ↔ type ledgerTx = type bankTx.
Proof. unfold typeMatch. by rewrite bool_decide_eq_true. Qed.

Lemma exactPredicate_spec bankTx ledgerTx :
  exactPredicate bankTx ledgerTx = true ↔ ExactEligible bankTx ledgerTx.
Proof.
  unfold exactPredicate, ExactEligible.
  rewrite !andb_true_iff, amountMatch_spec, typeMatch_spec, String.eqb_eq.
  tauto.
Qed.

Lemma fuzzyPredicate_spec bankTx ledgerTx :
  fuzzyPredicate bankTx ledgerTx = true ↔ FuzzyEligible bankTx ledgerTx.
Proof.
  unfold fuzzyPredicate, FuzzyEligible, dayDiff.
  rewrite !andb_true_iff, amountMatch_spec, typeMatch_spec.
  destruct (Date_getTime (date bankTx)) as [t1|]; cycle 1.
  { split; [by intros [_ ?]|]. by intros (_ & _ & ? & ? & ? & _). }
  destruct (Date_getTime (date ledgerTx)) as [t2|]; cycle 1.
  { split; [by intros [_ ?]|]. by intros (_ & _ & ? & ? & _ & ? & _). }
  cbn [mbind option_bind]. rewrite Qle_bool_iff, dayDiff_exact. split.
  - intros [[Ha Ht] Hd]. split_and!; [done..|]. by exists t1, t2.
  - intros (Ha & Ht & t1' & t2' & [= <-] & [= <-] & Hle). done.
Qed.


Lemma append_String (c : ascii) (s t : string) :
  String c s +:+ t = String c (s +:+ t).
Proof. reflexivity. Qed.

Lemma prefix_spec (t s : string) :
  String.prefix t s = true ↔ ∃ q, s = t +:+ q.
Proof.
  revert s. induction t as [|a t IH]; intros s; simpl.
  - split; [eauto|]. by destruct s.
  - destruct s as [|b s]; simpl.
    + split; [done|]. intros [q Hq]. by rewrite append_String in Hq.
    + destruct (ascii_dec a b) as [->|Hne].
      * rewrite IH. split; intros [q Hq]; exists q.
        -- rewrite append_String. congruence.
        -- rewrite append_String in Hq. congruence.
      * split; [done|]. intros [q Hq]. rewrite append_String in Hq. congruence.
Qed.

Lemma includes_spec (s t : string) :
  includes s t = true ↔ Substring t s.
Proof.
  unfold Substring. induction s as [|c s IH]; cbn [includes].
  - rewrite orb_false_r, prefix_spec. split.
    + intros [q Hq]. by exists "", q.
    + intros (p & q & Hpq). destruct p; [by exists q|].
      by rewrite append_String in Hpq.
  - rewrite orb_true_iff, prefix_spec, IH. split.
    + intros [[q Hq]|(p & q & Hpq)].
      * by exists "", q.
      * exists (String c p), q. rewrite append_String. by rewrite Hpq.
    + intros (p & q & Hpq). destruct p as [|c' p].
      * left. by exists q.
      * right. rewrite append_String in Hpq. exists p, q. congruence.
Qed.

Lemma includes_empty (s : string) : includes s "" = true.
Proof. by destruct s. Qed.

Lemma lower_class (c : ascii) :
  isUpper c = false → isLowerOrDigit c = isLetterOrDigit c.
Proof. destruct c as [[] [] [] [] [] [] [] []]; done. Qed.

Lemma removeOthers_keepChars (s : string) :
  allChars (λ c, negb (isUpper c)) s = true →
  removeOthers s = keepChars isLetterOrDigit s.
Proof.
  induction s as [|c s IH]; [done|]. simpl.
  intros [Hc Hs]%andb_true_iff. apply negb_true_iff in Hc.
  rewrite (lower_class c Hc), (IH Hs). done.
Qed.

(** After lowercasing, the class [[a-z0-9]] is the ASCII letters and
    digits. *)
Lemma normalize_alt (s : string) : normalize s = specNormalize s.
Proof. apply removeOthers_keepChars, toLowerCase_lower. Qed.

Lemma descSim_spec bankTx ledgerTx :
  descSim bankTx ledgerTx = true ↔
  Substring (specNormalize (description ledgerTx))
            (specNormalize (description bankTx)) ∨
  Substring (specNormalize (description bankTx))
            (specNormalize (description ledgerTx)).
Proof.
  unfold descSim. by rewrite orb_true_iff, !includes_spec, !normalize_alt.
Qed.

Lemma descriptionPredicate_spec bankTx ledgerTx :
  descriptionPredicate bankTx ledgerTx = true ↔
  DescriptionEligible bankTx ledgerTx.
Proof.
  unfold descriptionPredicate, DescriptionEligible.
  rewrite !andb_true_iff, amountMatch_spec, typeMatch_spec, descSim_spec.
  tauto.
Qed.

(** The predicate of a pass, read through the heap, is the eligibility of
    the specification on the two objects. *)
Lemma onHeap_spec h (P : Transaction → Transaction → bool)
    (E : Transaction → Transaction → Prop) :
  (∀ tb tl, P tb tl = true ↔ E tb tl) →
  ∀ b l, onHeap h P b l = true ↔ eligibleOn h E b l.
Proof.
  intros HPE b l. unfold onHeap, eligibleOn.
  destruct (h !! b) as [tb|]; cycle 1.
  { split; [done|]. by intros (? & ? & ? & _). }
  destruct (h !! l) as [tl|]; cycle 1.
  { split; [done|]. by intros (? & ? & _ & ? & _). }
  rewrite HPE. split.
  - intros HE. by exists tb, tl.
  - by intros (tb' & tl' & [= <-] & [= <-] & HE).
Qed.

(** ** The three passes together *)

Lemma reconcile_passes σ aB aL bank ledger :
  validInput σ aB aL bank ledger →
  ∃ m1 ub1 ul1 m2 ub2 ul2 m3 ub3 ul3 uB uL,
    matchPairs (onHeap (txs σ) exactPredicate) bank ledger = (m1, ub1, ul1) ∧
    matchPairs (onHeap (txs σ) fuzzyPredicate) ub1 ul1 = (m2, ub2, ul2) ∧
    matchPairs (onHeap (txs σ) descriptionPredicate) ub2 ul2 = (m3, ub3, ul3) ∧
    arrays σ !! uB = None ∧ arrays σ !! uL = None ∧ uB ≠ uL ∧
    reconcileTransactions aB aL σ =
    Ok (reportOf (txs σ) (m1, m2, m3, ub3, ul3)) (withPools σ uB uL ub3 ul3).
Proof.
  intros Hvalid.
  destruct (reconcileTransactions_run _ _ _ _ _ Hvalid)
    as (uB & uL & HuB & HuL & Hne & Hrun).
  unfold passes, threePasses in Hrun.
  destruct (matchPairs _ bank ledger) as [[m1 ub1] ul1] eqn:E1.
  destruct (matchPairs _ ub1 ul1) as [[m2 ub2] ul2] eqn:E2.
  destruct (matchPairs _ ub2 ul2) as [[m3 ub3] ul3] eqn:E3.
  exists m1, ub1, ul1, m2, ub2, ul2, m3, ub3, ul3, uB, uL.
  split_and!; done.
Qed.

Lemma passes_bank_perm {A B} (P1 P2 P3 : A → B → bool) bank ledger
    m1 ub1 ul1 m2 ub2 ul2 m3 ub3 ul3 :
  matchPairs P1 bank ledger = (m1, ub1, ul1) →
  matchPairs P2 ub1 ul1 = (m2, ub2, ul2) →
  matchPairs P3 ub2 ul2 = (m3, ub3, ul3) →
  (m1.*1 ++ m2.*1 ++ m3.*1) ++ ub3 ≡ₚ bank ∧
  (m1.*2 ++ m2.*2 ++ m3.*2) ++ ul3 ≡ₚ ledger.
Proof.
  intros E1 E2 E3.
  pose proof (matchPairs_bank_perm P1 bank ledger) as HB1.
  pose proof (matchPairs_ledger_perm P1 bank ledger) as HL1.
  pose proof (matchPairs_bank_perm P2 ub1 ul1) as HB2.
  pose proof (matchPairs_ledger_perm P2 ub1 ul1) as HL2.
  pose proof (matchPairs_bank_perm P3 ub2 ul2) as HB3.
  pose proof (matchPairs_ledger_perm P3 ub2 ul2) as HL3.
  rewrite E1 in HB1, HL1. rewrite E2 in HB2, HL2. rewrite E3 in HB3, HL3.
  simpl in *. split.
  - rewrite <- HB1, <- HB2, <- HB3. by rewrite <- !(assoc_L (++)).
  - rewrite <- HL1, <- HL2, <- HL3. by rewrite <- !(assoc_L (++)).
Qed.

Lemma exactly_one_of {X} (l1 l2 l : list X) (x : X) :
  l1 ++ l2 ≡ₚ l → NoDup l → x ∈ l →
  (x ∈ l1 ∧ x ∉ l2) ∨ (x ∈ l2 ∧ x ∉ l1).
Proof.
  intros Hperm Hnd Hx. rewrite <- Hperm in Hnd, Hx.
  apply NoDup_app in Hnd as (_ & Hdisj & _).
  apply elem_of_app in Hx as [Hx|Hx].
  - left. split; [done|]. by apply Hdisj.
  - right. split; [done|]. intros Hx1. by apply (Hdisj x).
Qed.

Lemma withPools_frame σ uB uL ub ul a :
  arrays σ !! uB = None → arrays σ !! uL = None →
  is_Some (arrays σ !! a) →
  arrays (withPools σ uB uL ub ul) !! a = arrays σ !! a.
Proof.
  intros HuB HuL [l Ha]. simpl.
  rewrite !lookup_insert_ne; [done|congruence..].
Qed.

(** ** Sums of amounts *)

Lemma foldl_Qplus_acc h (l : list loc) (acc : Q) :
  (foldl (λ a r, (a + amountAt h r)%Q) acc l == acc + sumLeft h l)%Q.
Proof.
  unfold sumLeft. revert acc. induction l as [|r l IH] using rev_ind; intros acc.
  - simpl. ring.
  - rewrite !foldl_app. simpl. rewrite IH. ring.
Qed.

Lemma sumLeft_cons h r (l : list loc) :
  (sumLeft h (r :: l) == amountAt h r + sumLeft h l)%Q.
Proof.
  unfold sumLeft at 1. simpl. rewrite foldl_Qplus_acc. ring.
Qed.

Lemma sumLeft_app h (l1 l2 : list loc) :
  (sumLeft h (l1 ++ l2) == sumLeft h l1 + sumLeft h l2)%Q.
Proof.
  induction l1 as [|r l1 IH]; simpl.
  - unfold sumLeft at 2. simpl. ring.
  - rewrite !sumLeft_cons, IH. ring.
Qed.

Lemma sumLeft_perm h (l1 l2 : list loc) :
  l1 ≡ₚ l2 → (sumLeft h l1 == sumLeft h l2)%Q.
Proof.
  induction 1 as [|x l1 l2 _ IH|x y l|l1 l2 l3 _ IH1 _ IH2].
  - reflexivity.
  - by rewrite !sumLeft_cons, IH.
  - rewrite !sumLeft_cons. ring.
  - by rewrite IH1.
Qed.

Lemma pass_spec h (P : Transaction → Transaction → bool)
    (E : Transaction → Transaction → Prop) ub ul found ub' ul' :
  (∀ tb tl, P tb tl = true ↔ E tb tl) →
  matchPairs (onHeap h P) ub ul = (found, ub', ul') →
  SpecPass (eligibleOn h E) ub ul found ub' ul'.
Proof.
  intros HPE Hrun.
  pose proof (matchPairs_SpecPass (onHeap h P) ub ul) as Hspec.
  rewrite Hrun in Hspec. simpl in Hspec.
  eapply SpecPass_equiv; [|exact Hspec].
  intros b l. by apply onHeap_spec.
Qed.

Lemma Forall_confidence (conf : Q) note (found : list (loc * loc)) :
  Forall (λ m, confidence m = conf) (toMatch conf note <$> found).
Proof. apply Forall_fmap. by apply Forall_true. Qed.

(** ** A pair with no rivals is matched *)

Lemma elem_of_delete_ne {X} (l : list X) (j : nat) (x y : X) :
  x ∈ l → l !! j = Some y → x ≠ y → x ∈ delete j l.
Proof.
  intros Hx Hj Hne. rewrite <- (delete_lookup_perm l j y Hj) in Hx.
  apply elem_of_cons in Hx as [->|Hx]; done.
Qed.

Lemma matchPairs_unclaimed_ledger {A B} (P : A → B → bool) ub ul (l : B) :
  l ∈ ul → (∀ b, b ∈ ub → P b l = false) → l ∈ (matchPairs P ub ul).2.
Proof.
  intros Hl. induction ub as [|a bs IH]; intros Hnone; simpl; [done|].
  assert (l ∈ (matchPairs P bs ul).2) as Hl1.
  { apply IH. intros b Hb. apply Hnone. by right. }
  destruct (matchPairs P bs ul) as [[ms bs'] ul1]. simpl in *.
  destruct (list_find _ ul1) as [[j l']|] eqn:E; simpl; [|done].
  apply list_find_Some in E as (Hj & HP & _).
  eapply elem_of_delete_ne; [done..|].
  intros ->. rewrite (Hnone a) in HP; [done|by left].
Qed.

Lemma matchPairs_only_candidates {A B} `{EqDecision A} (P : A → B → bool)
    ub ul (b : A) (l : B) :
  b ∈ ub → l ∈ ul → P b l = true →
  (∀ l', l' ∈ ul → P b l' = true → l' = l) →
  (∀ b', b' ∈ ub → P b' l = true → b' = b) →
  (b, l) ∈ (matchPairs P ub ul).1.1.
Proof.
  intros Hb Hl HP Hl1. induction ub as [|a bs IH]; intros Hb1.
  { by apply elem_of_nil in Hb. }
  simpl. destruct (decide (b ∈ bs)) as [Hin|Hnotin].
  - assert ((b, l) ∈ (matchPairs P bs ul).1.1) as Hm.
    { apply IH; [done|]. intros b' Hb'. apply Hb1. by right. }
    destruct (matchPairs P bs ul) as [[ms bs'] ul1]. simpl in *.
    destruct (list_find _ ul1) as [[j l']|]; simpl; [|done].
    apply elem_of_app. by left.
  - apply elem_of_cons in Hb as [<-|Hb]; [|done].
    assert (l ∈ (matchPairs P bs ul).2) as Hl2.
    { apply matchPairs_unclaimed_ledger; [done|]. intros b' Hb'.
      destruct (P b' l) eqn:HP'; [|done].
      destruct Hnotin. rewrite <- (Hb1 b'); [done|by right|done]. }
    pose proof (matchPairs_ledger_sublist P bs ul) as Hsub.
    destruct (matchPairs P bs ul) as [[ms bs'] ul1]. simpl in *.
    destruct (list_find _ ul1) as [[j l']|] eqn:E; simpl.
    + apply list_find_Some in E as (Hj & HP' & _).
      assert (l' = l) as ->.
      { apply Hl1; [|by apply Is_true_true].
        eapply elem_of_sublist; [|done]. by eapply list_elem_of_lookup_2. }
      apply elem_of_app. right. by apply list_elem_of_singleton.
    + apply list_find_None in E. rewrite Forall_forall in E.
      destruct (E l Hl2). by apply Is_true_true.
Qed.






Lemma matchPairs_ext {A B} (P P' : A → B → bool) ub ul :
  (∀ b l, P b l = P' b l) → matchPairs P ub ul = matchPairs P' ub ul.
Proof.
  intros Hext. induction ub as [|a bs IH]; [done|].
  simpl. rewrite IH. destruct (matchPairs P' bs ul) as [[ms bs'] ul1]. simpl.
  rewrite (list_find_ext _ (λ l, Is_true (P' a l))); [done|].
  intros l. by rewrite Hext.
Qed.

(** ** Precedence of the passes *)

Lemma matchPairs_found_from {A B} (P : A → B → bool) ub ul (b : A) (l : B) :
  (b, l) ∈ (matchPairs P ub ul).1.1 → b ∈ ub ∧ l ∈ ul.
Proof.
  intros Hin. split.
  - rewrite <- (matchPairs_bank_perm P ub ul). apply elem_of_app. left.
    by apply (list_elem_of_fmap_2 fst) in Hin.
  - rewrite <- (matchPairs_ledger_perm P ub ul). apply elem_of_app. left.
    by apply (list_elem_of_fmap_2 snd) in Hin.
Qed.

Lemma matchPairs_left_from {A B} (P : A → B → bool) ub ul :
  (∀ b, b ∈ (matchPairs P ub ul).1.2 → b ∈ ub) ∧
  (∀ l, l ∈ (matchPairs P ub ul).2 → l ∈ ul).
Proof.
  split; intros x Hx.
  - eapply elem_of_sublist; [done|]. apply matchPairs_bank_sublist.
  - eapply elem_of_sublist; [done|]. apply matchPairs_ledger_sublist.
Qed.

(** Treating [pre ++ post] is treating [post] and then [pre] on what is
    left of the ledger pool. *)
Lemma matchPairs_app {A B} (P : A → B → bool) (pre post : list A) (ul : list B) :
  matchPairs P (pre ++ post) ul =
  let '(ms2, bs2, ul2) := matchPairs P post ul in
  let '(ms1, bs1, ul1) := matchPairs P pre ul2 in
  (ms2 ++ ms1, bs1 ++ bs2, ul1).
Proof.
  induction pre as [|a pre IH]; simpl.
  - destruct (matchPairs P post ul) as [[ms2 bs2] ul2]. by rewrite app_nil_r.
  - rewrite IH. destruct (matchPairs P post ul) as [[ms2 bs2] ul2].
    destruct (matchPairs P pre ul2) as [[ms1 bs1] ul1]. simpl.
    destruct (list_find _ ul1) as [[j l]|]; [|done].
    by rewrite <- (assoc_L (++)).
Qed.

(** A bank record that finds an eligible ledger record in the pool when
    its turn comes is claimed in this pass, by an eligible record. *)
Lemma matchPairs_claims {A B} (P : A → B → bool) pre (b : A) post ul (l : B) :
  l ∈ (matchPairs P post ul).2 → P b l = true →
  ∃ l0, (b, l0) ∈ (matchPairs P (pre ++ b :: post) ul).1.1 ∧ P b l0 = true.
Proof.
  intros Hl HP. rewrite matchPairs_app. cbn [matchPairs].
  destruct (matchPairs P post ul) as [[ms2 bs2] ul2]. simpl in Hl.
  unfold matchStep.
  destruct (list_find _ ul2) as [[j l0]|] eqn:E.
  - apply list_find_Some in E as (_ & HP0 & _).
    exists l0. split; [|by apply Is_true_true].
    destruct (matchPairs P pre (delete j ul2)) as [[ms1 bs1] ul1]. simpl.
    apply elem_of_app. left. apply elem_of_app. right.
    by apply list_elem_of_singleton.
  - apply list_find_None in E. rewrite Forall_forall in E.
    destruct (E l Hl). by apply Is_true_true.
Qed.

(** ** Positions in the inputs *)

Lemma tagged_snd {X} (l : list X) : (tagged l).*2 = l.
Proof. unfold tagged. apply snd_zip. by rewrite length_seq. Qed.

Lemma tagged_fst {X} (l : list X) : (tagged l).*1 = seq 0 (length l).
Proof. unfold tagged. apply fst_zip. by rewrite length_seq. Qed.

Lemma elem_of_tagged {X} (l : list X) (i : nat) (x : X) :
  (i, x) ∈ tagged l → l !! i = Some x.
Proof.
  intros Hin. apply list_elem_of_lookup in Hin as [k Hk].
  apply lookup_zip_Some in Hk as [Hseq Hx].
  apply lookup_seq in Hseq as [-> _]. done.
Qed.

Lemma NoDup_tagged_fst {X} (l : list X) : NoDup (tagged l).*1.
Proof. rewrite tagged_fst. apply NoDup_seq. Qed.

Lemma StronglySorted_sublist {X} (R : relation X) (l' l : list X) :
  l' `sublist_of` l → StronglySorted R l → StronglySorted R l'.
Proof.
  induction 1 as [|x l1 l2 Hsub IH|x l1 l2 Hsub IH]; intros Hs.
  - constructor.
  - apply StronglySorted_inv in Hs as [Hs Hx]. constructor; [by apply IH|].
    rewrite Forall_forall in Hx |- *. intros y Hy. apply Hx.
    by eapply elem_of_sublist.
  - apply StronglySorted_inv in Hs as [Hs _]. by apply IH.
Qed.

Lemma StronglySorted_seq (j n : nat) : StronglySorted lt (seq j n).
Proof.
  revert j. induction n as [|n IH]; intros j; simpl; constructor; [apply IH|].
  apply Forall_seq. intros i Hi. lia.
Qed.

Lemma StronglySorted_reverse_gt (p : list nat) :
  StronglySorted lt (reverse p) → StronglySorted gt p.
Proof.
  induction p as [|x p IH]; intros Hs; [constructor|].
  rewrite reverse_cons in Hs. apply StronglySorted_app in Hs as (Hx & Hp & _).
  constructor; [by apply IH|].
  apply Forall_forall. intros y Hy. unfold gt. apply Hx.
  - by apply elem_of_reverse.
  - by apply list_elem_of_singleton.
Qed.

(** Positions that come out in the reverse of the input order are strictly
    decreasing. *)
Lemma positions_decreasing {X} (bank : list X) (found : list (nat * X)) :
  reverse found `sublist_of` tagged bank → StronglySorted gt found.*1.
Proof.
  intros Hsub. apply StronglySorted_reverse_gt.
  rewrite <- fmap_reverse.
  eapply StronglySorted_sublist; [by apply fmap_sublist|].
  rewrite tagged_fst. apply StronglySorted_seq.
Qed.

Lemma filter_ext_elem {X} (P Q : X → Prop) `{∀ x, Decision (P x)}
    `{∀ x, Decision (Q x)} (l : list X) :
  (∀ x, x ∈ l → P x ↔ Q x) → filter P l = filter Q l.
Proof.
  induction l as [|x l IH]; intros HPQ; [done|].
  rewrite !filter_cons.
  assert (filter P l = filter Q l) as ->.
  { apply IH. intros y Hy. apply HPQ. by right. }
  destruct (decide (P x)) as [HP|HP], (decide (Q x)) as [HQ|HQ]; try done.
  - destruct HQ. apply HPQ; [by left|done].
  - destruct HP. apply HPQ; [by left|done].
Qed.

Lemma sublist_filter_elem {X} `{EqDecision X} (l' l : list X) :
  NoDup l → l' `sublist_of` l → l' = filter (λ x, x ∈ l') l.
Proof.
  intros Hnd Hsub. induction Hsub as [|x l1 l2 Hsub IH|x l1 l2 Hsub IH].
  - done.
  - apply NoDup_cons in Hnd as [Hx Hnd].
    rewrite filter_cons_True by (by left). f_equal.
    rewrite (IH Hnd) at 1. apply filter_ext_elem. intros y Hy. split.
    + intros Hy1. by right.
    + intros [->|Hy1]%elem_of_cons; done.
  - apply NoDup_cons in Hnd as [Hx Hnd].
    rewrite filter_cons_False; [by apply IH|].
    intros Hx1. apply Hx. by eapply elem_of_sublist.
Qed.

(** What a tagged pool keeps of its input is the input without the claimed
    positions. *)
Lemma sublist_unclaimed {X} `{EqDecision X} (l : list X)
    (found left : list (nat * X)) :
  left `sublist_of` tagged l → found ++ left ≡ₚ tagged l →
  NoDup found.*1 ∧ left.*2 = unclaimed found.*1 l.
Proof.
  intros Hsub Hperm.
  pose proof (NoDup_tagged_fst l) as Hnd1.
  pose proof (NoDup_fmap_1 fst _ Hnd1) as Hnd.
  assert (NoDup (found ++ left).*1) as Hnd2 by by rewrite Hperm.
  rewrite fmap_app in Hnd2. apply NoDup_app in Hnd2 as (Hndf & Hdisj & _).
  split; [done|]. unfold unclaimed. f_equal.
  rewrite (sublist_filter_elem left (tagged l)) at 1 by done.
  apply filter_ext_elem. intros [i x] Hix. simpl. split.
  - intros Hleft Hfound. apply (Hdisj i Hfound).
    by apply (list_elem_of_fmap_2 fst) in Hleft.
  - intros Hnot. rewrite <- Hperm in Hix.
    apply elem_of_app in Hix as [Hix|Hix]; [|done].
    destruct Hnot. by apply (list_elem_of_fmap_2 fst) in Hix.
Qed.

Lemma matchPairs_untag h P (tb tl : list (nat * loc)) :
  matchPairs (onHeap h P) tb.*2 tl.*2 =
  let '(tm, tb', tl') := matchPairs (λ a b, onHeap h P a.2 b.2) tb tl in
  (prod_map snd snd <$> tm, tb'.*2, tl'.*2).
Proof. apply (matchPairs_fmap snd snd). Qed.

Lemma matchPairs_tagged h P (tb tl : list (nat * loc)) m ub ul :
  matchPairs (onHeap h P) tb.*2 tl.*2 = (m, ub, ul) →
  ∃ tm tb' tl',
    matchPairs (onTagged h P) tb tl = (tm, tb', tl') ∧
    m = untag tm ∧ ub = tb'.*2 ∧ ul = tl'.*2.
Proof.
  rewrite matchPairs_untag. fold (onTagged h P).
  destruct (matchPairs (onTagged h P) tb tl) as [[tm tb'] tl'].
  intros [= <- <- <-]. by exists tm, tb', tl'.
Qed.

(** The run of the function, with every record followed by its position in
    its input array. *)
Lemma reconcile_tagged σ aB aL bank ledger :
  validInput σ aB aL bank ledger →
  ∃ tm1 tb1 tl1 tm2 tb2 tl2 tm3 tb3 tl3 uB uL,
    matchPairs (onTagged (txs σ) exactPredicate) (tagged bank) (tagged ledger)
      = (tm1, tb1, tl1) ∧
    matchPairs (onTagged (txs σ) fuzzyPredicate) tb1 tl1 = (tm2, tb2, tl2) ∧
    matchPairs (onTagged (txs σ) descriptionPredicate) tb2 tl2
      = (tm3, tb3, tl3) ∧
    reconcileTransactions aB aL σ =
    Ok (reportOf (txs σ) (untag tm1, untag tm2, untag tm3, tb3.*2, tl3.*2))
       (withPools σ uB uL tb3.*2 tl3.*2).
Proof.
  intros Hvalid.
  destruct (reconcile_passes _ _ _ _ _ Hvalid)
    as (m1 & ub1 & ul1 & m2 & ub2 & ul2 & m3 & ub3 & ul3 & uB & uL &
        E1 & E2 & E3 & _ & _ & _ & Hrun).
  rewrite <- (tagged_snd bank), <- (tagged_snd ledger) in E1.
  apply matchPairs_tagged in E1 as (tm1 & tb1 & tl1 & T1 & -> & -> & ->).
  apply matchPairs_tagged in E2 as (tm2 & tb2 & tl2 & T2 & -> & -> & ->).
  apply matchPairs_tagged in E3 as (tm3 & tb3 & tl3 & T3 & -> & -> & ->).
  by exists tm1, tb1, tl1, tm2, tb2, tl2, tm3, tb3, tl3, uB, uL.
Qed.

Lemma pass_facts {A B} (P : A → B → bool) ub ul tm ub' ul' :
  matchPairs P ub ul = (tm, ub', ul') →
  reverse tm.*1 `sublist_of` ub ∧ ub' `sublist_of` ub ∧ ul' `sublist_of` ul ∧
  tm.*1 ++ ub' ≡ₚ ub ∧ tm.*2 ++ ul' ≡ₚ ul.
Proof.
  intros E.
  pose proof (matchPairs_found_sublist P ub ul) as H1.
  pose proof (matchPairs_bank_sublist P ub ul) as H2.
  pose proof (matchPairs_ledger_sublist P ub ul) as H3.
  pose proof (matchPairs_bank_perm P ub ul) as H4.
  pose proof (matchPairs_ledger_perm P ub ul) as H5.
  rewrite E in H1, H2, H3, H4, H5. done.
Qed.

Lemma bank_positions bank conf note (tm : list ((nat * loc) * (nat * loc))) :
  (∀ x, x ∈ tm.*1 → x ∈ tagged bank) →
  Forall2 (λ m i, bank !! i = Some (bankParams m))
    (toMatch conf note <$> untag tm) tm.*1.*1.
Proof.
  induction tm as [|[[i x] y] tm IH]; intros Hin; simpl; constructor.
  - simpl. apply elem_of_tagged, Hin. by left.
  - apply IH. intros z Hz. apply Hin. by right.
Qed.

Lemma ledger_positions ledger conf note (tm : list ((nat * loc) * (nat * loc))) :
  (∀ x, x ∈ tm.*2 → x ∈ tagged ledger) →
  Forall2 (λ m i, ledger !! i = Some (ledgerParams m))
    (toMatch conf note <$> untag tm) tm.*2.*1.
Proof.
  induction tm as [|[y [i x]] tm IH]; intros Hin; simpl; constructor.
  - simpl. apply elem_of_tagged, Hin. by left.
  - apply IH. intros z Hz. apply Hin. by right.
Qed.

Lemma found_in_pool {X} (found pool : list X) :
  reverse found `sublist_of` pool → ∀ x, x ∈ found → x ∈ pool.
Proof.
  intros Hsub x Hx. eapply elem_of_sublist; [|done]. by apply elem_of_reverse.
Qed.

Lemma unclaimed_sublist {X} (claimed : list nat) (l : list X) :
  unclaimed claimed l `sublist_of` l.
Proof.
  unfold unclaimed. rewrite <- (tagged_snd l) at 2.
  apply fmap_sublist, sublist_filter.
Qed.

(** The positions claimed by the matches, and what is left. *)
Lemma reconcile_positions σ bankTransactions ledgerTransactions bank ledger :
  validInput σ bankTransactions ledgerTransactions bank ledger →
  ∃ rep σ' claimedBank claimedLedger,
    reconcileTransactions bankTransactions ledgerTransactions σ = Ok rep σ' ∧
    Forall2 (λ m i, bank !! i = Some (bankParams m)) (matches rep) claimedBank ∧
    NoDup claimedBank ∧
    unmatchedBank rep = unclaimed claimedBank bank ∧
    Forall2 (λ m i, ledger !! i = Some (ledgerParams m))
      (matches rep) claimedLedger ∧
    NoDup claimedLedger ∧
    unmatchedLedger rep = unclaimed claimedLedger ledger.
Proof.
  intros Hvalid.
  destruct (reconcile_tagged _ _ _ _ _ Hvalid)
    as (tm1 & tb1 & tl1 & tm2 & tb2 & tl2 & tm3 & tb3 & tl3 & uB & uL &
        T1 & T2 & T3 & Hrun).
  destruct (pass_facts _ _ _ _ _ _ T1) as (_ & Hb1 & Hl1 & Hpb1 & Hpl1).
  destruct (pass_facts _ _ _ _ _ _ T2) as (_ & Hb2 & Hl2 & Hpb2 & Hpl2).
  destruct (pass_facts _ _ _ _ _ _ T3) as (_ & Hb3 & Hl3 & Hpb3 & Hpl3).
  set (tm := tm1 ++ tm2 ++ tm3).
  assert (tm.*1 ++ tb3 ≡ₚ tagged bank) as HpB.
  { unfold tm. rewrite !fmap_app, <- Hpb1, <- Hpb2, <- Hpb3.
    by rewrite <- !(assoc_L (++)). }
  assert (tm.*2 ++ tl3 ≡ₚ tagged ledger) as HpL.
  { unfold tm. rewrite !fmap_app, <- Hpl1, <- Hpl2, <- Hpl3.
    by rewrite <- !(assoc_L (++)). }
  assert (tb3 `sublist_of` tagged bank) as HsB.
  { etrans; [done|]. by etrans. }
  assert (tl3 `sublist_of` tagged ledger) as HsL.
  { etrans; [done|]. by etrans. }
  destruct (sublist_unclaimed bank tm.*1 tb3 HsB HpB) as [HndB HuB].
  destruct (sublist_unclaimed ledger tm.*2 tl3 HsL HpL) as [HndL HuL].
  assert (matchesOf (untag tm1) (untag tm2) (untag tm3) =
          (toMatch 1 note1 <$> untag tm1) ++
          (toMatch (9 # 10) note2 <$> untag tm2) ++
          (toMatch (7 # 10) note3 <$> untag tm3)) as Hms by done.
  eexists _, _, tm.*1.*1, tm.*2.*1. split; [exact Hrun|]. simpl.
  split_and!; [|done..| |done|done].
  - rewrite Hms. unfold tm. rewrite !fmap_app.
    repeat apply Forall2_app; apply bank_positions; intros x Hx;
      rewrite <- HpB; apply elem_of_app; left; unfold tm;
      rewrite !fmap_app, !elem_of_app; tauto.
  - rewrite Hms. unfold tm. rewrite !fmap_app.
    repeat apply Forall2_app; apply ledger_positions; intros x Hx;
      rewrite <- HpL; apply elem_of_app; left; unfold tm;
      rewrite !fmap_app, !elem_of_app; tauto.
Qed.

End Facts.

(** ** Records every host reads alike *)

Section Transfer.
Context {host : Host}.

Lemma fuzzyPredicate_plain tb tl :
  plainRecord tb = true → plainRecord tl = true →
  fuzzyPredicate tb tl = fuzzyPredicate (host := asciiHost) tb tl.
Proof.
  intros [[d1 H1]%bool_decide_eq_true _]%andb_true_iff
         [[d2 H2]%bool_decide_eq_true _]%andb_true_iff.
  unfold fuzzyPredicate, dayDiff.
  rewrite (Date_getTime_calendar (Host := host) _ _ H1).
  rewrite (Date_getTime_calendar (Host := host) _ _ H2).
  rewrite (Date_getTime_calendar (Host := asciiHost) _ _ H1).
  rewrite (Date_getTime_calendar (Host := asciiHost) _ _ H2).
  reflexivity.
Qed.

Lemma descriptionPredicate_plain tb tl :
  plainRecord tb = true → plainRecord tl = true →
  descriptionPredicate tb tl = descriptionPredicate (host := asciiHost) tb tl.
Proof.
  intros [_ H1]%andb_true_iff [_ H2]%andb_true_iff.
  unfold descriptionPredicate, descSim, normalize.
  rewrite (toLowerCase_ascii (Host := host) _ H1).
  rewrite (toLowerCase_ascii (Host := host) _ H2).
  reflexivity.
Qed.

Lemma passes_plain h bank ledger :
  map_Forall (λ _ t, plainRecord t = true) h →
  passes h bank ledger = passes (host := asciiHost) h bank ledger.
Proof.
  intros Hplain. unfold passes, threePasses.
  destruct (matchPairs _ bank ledger) as [[m1 ub1] ul1].
  rewrite (matchPairs_ext (onHeap h fuzzyPredicate)
             (onHeap h (fuzzyPredicate (host := asciiHost)))); cycle 1.
  { intros b l. unfold onHeap.
    destruct (h !! b) as [tb|] eqn:Eb; [|done].
    destruct (h !! l) as [tl|] eqn:El; [|done].
    apply fuzzyPredicate_plain;
      [apply (Hplain _ _ Eb)|apply (Hplain _ _ El)]. }
  destruct (matchPairs _ ub1 ul1) as [[m2 ub2] ul2].
  rewrite (matchPairs_ext (onHeap h descriptionPredicate)
             (onHeap h (descriptionPredicate (host := asciiHost)))); cycle 1.
  { intros b l. unfold onHeap.
    destruct (h !! b) as [tb|] eqn:Eb; [|done].
    destruct (h !! l) as [tl|] eqn:El; [|done].
    apply descriptionPredicate_plain;
      [apply (Hplain _ _ Eb)|apply (Hplain _ _ El)]. }
  done.
Qed.


End Transfer.

(** * The properties of the specification *)

Section Claims.
Context {host : Host}.

(** C1 (partition property).  For every input, the bank sides of the
    matches together with [unmatchedBank] are the bank input up to order,
    occurrence for occurrence, and likewise on the ledger side.  Position
    by position: the bank records of the matches sit at pairwise distinct
    positions of the bank input, and [unmatchedBank] holds the records at
    all other positions, so that every position is in exactly one of the
    two; likewise for the ledger.  When the objects of a side are distinct,
    each of them is in exactly one of the two, never in both and never in
    neither. *)
Theorem partition_property σ bankTransactions ledgerTransactions bank ledger :
  validInput σ bankTransactions ledgerTransactions bank ledger →
  ∃ rep σ' claimedBank claimedLedger,
    reconcileTransactions bankTransactions ledgerTransactions σ = Ok rep σ' ∧
    (bankParams <$> matches rep) ++ unmatchedBank rep ≡ₚ bank ∧
    (ledgerParams <$> matches rep) ++ unmatchedLedger rep ≡ₚ ledger ∧
    Forall2 (λ m i, bank !! i = Some (bankParams m)) (matches rep) claimedBank ∧
    NoDup claimedBank ∧
    unmatchedBank rep = unclaimed claimedBank bank ∧
    Forall2 (λ m i, ledger !! i = Some (ledgerParams m))
      (matches rep) claimedLedger ∧
    NoDup claimedLedger ∧
    unmatchedLedger rep = unclaimed claimedLedger ledger ∧
    (NoDup bank → ∀ r, r ∈ bank →
       (r ∈ (bankParams <$> matches rep) ∧ r ∉ unmatchedBank rep) ∨
       (r ∈ unmatchedBank rep ∧ r ∉ (bankParams <$> matches rep))) ∧
    (NoDup ledger → ∀ r, r ∈ ledger →
       (r ∈ (ledgerParams <$> matches rep) ∧ r ∉ unmatchedLedger rep) ∨
       (r ∈ unmatchedLedger rep ∧ r ∉ (ledgerParams <$> matches rep))).
Proof.
  intros Hvalid.
  destruct (reconcile_positions _ _ _ _ _ Hvalid)
    as (rep & σ' & claimedBank & claimedLedger & Hrun & Hpositions).
  destruct (reconcile_passes _ _ _ _ _ Hvalid)
    as (m1 & ub1 & ul1 & m2 & ub2 & ul2 & m3 & ub3 & ul3 & uB & uL &
        E1 & E2 & E3 & _ & _ & _ & Hrun').
  destruct (passes_bank_perm _ _ _ _ _ _ _ _ _ _ _ _ _ _ E1 E2 E3) as [HB HL].
  rewrite Hrun' in Hrun. injection Hrun as <- <-.
  eexists _, _, claimedBank, claimedLedger. split; [exact Hrun'|].
  simpl in *. rewrite bankParams_matchesOf, ledgerParams_matchesOf.
  split; [done|]. split; [done|].
  destruct Hpositions as (H1 & H2 & H3 & H4 & H5 & H6).
  split_and!; [done..| |].
  - intros Hnd r Hr. by eapply exactly_one_of.
  - intros Hnd r Hr. by eapply exactly_one_of.
Qed.

(** C2 (pass 1).  For every input, the matches of the report start with the
    pairs of the exact pass, each with confidence 1.0 and the note "Exact
    match on Date, Amount, and Type", and every later match has another
    confidence.  The pairs of the exact pass are those of [SpecPass] on the
    two inputs: the bank pool is processed last-to-first, a bank record
    takes the first record of the remaining ledger pool whose amount is
    less than 0.01 away, whose date string is equal and whose type is
    equal, and both leave their pools at once; the loop of the exact pass,
    run on two working arrays that hold the inputs, leaves in them the
    pools of [SpecPass].  The difference of the amounts and the bound 0.01
    are the doubles the engine computes: two amounts whose exact
    difference is at most 0.009999999999999998 are within the tolerance,
    and two whose exact difference is at least 0.010000000000000001 are
    not. *)
Theorem pass1_exact_match σ bankTransactions ledgerTransactions bank ledger :
  validInput σ bankTransactions ledgerTransactions bank ledger →
  ∃ rep σ' found ub1 ul1 later,
    reconcileTransactions bankTransactions ledgerTransactions σ = Ok rep σ' ∧
    SpecPass (eligibleOn (txs σ) ExactEligible) bank ledger found ub1 ul1 ∧
    matches rep =
      ((λ p, mkMatched p.1 p.2 1%Q
               (Some "Exact match on Date, Amount, and Type")) <$> found)
      ++ later ∧
    Forall (λ m, confidence m ≠ 1%Q) later ∧
    (∀ unmatchedBank unmatchedLedger,
       unmatchedBank ≠ unmatchedLedger →
       matchPass exactPredicate 1 note1 unmatchedBank unmatchedLedger []
         (withPools σ unmatchedBank unmatchedLedger bank ledger) =
       Ok (toMatch 1 note1 <$> found)
          (withPools σ unmatchedBank unmatchedLedger ub1 ul1)) ∧
    (∀ tb tl,
       (Qabs (amount tl - amount tb)
        <= 9999999999999998 # 1000000000000000000)%Q →
       AmountWithinTolerance tb tl) ∧
    (∀ tb tl,
       (10000000000000001 # 1000000000000000000
        <= Qabs (amount tl - amount tb))%Q →
       ¬ AmountWithinTolerance tb tl).
Proof.
  intros Hvalid.
  destruct (reconcile_passes _ _ _ _ _ Hvalid)
    as (m1 & ub1 & ul1 & m2 & ub2 & ul2 & m3 & ub3 & ul3 & uB & uL &
        E1 & E2 & E3 & _ & _ & _ & Hrun).
  destruct Hvalid as (_ & _ & [Hbank Hledger]%Forall_app).
  eexists _, _, m1, ub1, ul1, _. split; [exact Hrun|].
  split_and!.
  - eapply pass_spec; [apply exactPredicate_spec|done].
  - reflexivity.
  - apply Forall_app. split.
    + eapply Forall_impl; [apply Forall_confidence|]. by intros m ->.
    + eapply Forall_impl; [apply Forall_confidence|]. by intros m ->.
  - intros wB wL Hne. rewrite matchPass_run by done. by rewrite E1.
  - intros tb tl. apply tolerance_below.
  - intros tb tl. apply tolerance_above.
Qed.


(** C4 (pass 3).  For every input, the matches of the report are the pairs
    of the exact pass, then those of the fuzzy pass, then those of the
    description pass, each of the last with confidence 0.7 and the note
    "Match on Amount and similar Description"; the description pass is
    [SpecPass] on the pools left by the fuzzy pass, with a ledger record
    eligible exactly when its amount is within 0.01, its type is equal and
    one normalized description contains the other, whatever the dates; what
    it leaves is the two unmatched lists.  [normalize] lowercases and keeps
    the ASCII letters and digits only, and a record whose description
    normalizes to the empty string is eligible for every counterpart of
    equal type and amount within tolerance. *)
Theorem pass3_description σ bankTransactions ledgerTransactions bank ledger :
  validInput σ bankTransactions ledgerTransactions bank ledger →
  ∃ rep σ' found1 ub1 ul1 found2 ub2 ul2 found3,
    reconcileTransactions bankTransactions ledgerTransactions σ = Ok rep σ' ∧
    SpecPass (eligibleOn (txs σ) ExactEligible) bank ledger found1 ub1 ul1 ∧
    SpecPass (eligibleOn (txs σ) FuzzyEligible) ub1 ul1 found2 ub2 ul2 ∧
    SpecPass (eligibleOn (txs σ) DescriptionEligible) ub2 ul2 found3
      (unmatchedBank rep) (unmatchedLedger rep) ∧
    matches rep =
      (toMatch 1 note1 <$> found1) ++ (toMatch (9 # 10) note2 <$> found2) ++
      ((λ p, mkMatched p.1 p.2 (7 # 10)%Q
               (Some "Match on Amount and similar Description")) <$> found3) ∧
    (∀ s, normalize s = specNormalize s) ∧
    (∀ tb tl,
       normalize (description tb) = "" ∨ normalize (description tl) = "" →
       AmountWithinTolerance tb tl → type tl = type tb →
       descriptionPredicate tb tl = true ∧ DescriptionEligible tb tl).
Proof.
  intros Hvalid.
  destruct (reconcile_passes _ _ _ _ _ Hvalid)
    as (m1 & ub1 & ul1 & m2 & ub2 & ul2 & m3 & ub3 & ul3 & uB & uL &
        E1 & E2 & E3 & _ & _ & _ & Hrun).
  eexists _, _, m1, ub1, ul1, m2, ub2, ul2, m3. split; [exact Hrun|].
  split_and!.
  - eapply pass_spec; [apply exactPredicate_spec|done].
  - eapply pass_spec; [apply fuzzyPredicate_spec|done].
  - eapply pass_spec; [apply descriptionPredicate_spec|done].
  - reflexivity.
  - apply normalize_alt.
  - intros tb tl Hempty Ha Ht.
    assert (descriptionPredicate tb tl = true) as HP.
    { unfold descriptionPredicate.
      rewrite (proj2 (amountMatch_spec _ _) Ha), (proj2 (typeMatch_spec _ _) Ht).
      unfold descSim. destruct Hempty as [-> | ->].
      - by rewrite (includes_empty (normalize (description tl))), orb_true_r.
      - by rewrite (includes_empty (normalize (description tb))). }
    split; [done|]. by apply descriptionPredicate_spec.
Qed.

(** C5 (pass precedence).  For every input, the matches of the report are
    the pairs of the exact pass, each emitted with confidence 1.0 and the
    note of that pass, followed by the matches of the two later passes, and
    none of these later matches joins two records that satisfy the criteria
    of the exact pass; nor is such a pair left in the pools after the exact
    pass.  A bank record that has an exact-eligible ledger record in the
    ledger pool when the exact pass reaches it is claimed in the exact
    pass: the report has a match of confidence 1.0 of this bank record
    with an exact-eligible ledger record, wherever other candidates stand
    in the ledger list. *)
Theorem pass_precedence σ bankTransactions ledgerTransactions bank ledger :
  validInput σ bankTransactions ledgerTransactions bank ledger →
  ∃ rep σ' found1 ub1 ul1 later,
    reconcileTransactions bankTransactions ledgerTransactions σ = Ok rep σ' ∧
    SpecPass (eligibleOn (txs σ) ExactEligible) bank ledger found1 ub1 ul1 ∧
    matches rep = (toMatch 1 note1 <$> found1) ++ later ∧
    Forall (λ p, eligibleOn (txs σ) ExactEligible p.1 p.2) found1 ∧
    Forall (λ m, confidence m ≠ 1%Q ∧
                 ¬ eligibleOn (txs σ) ExactEligible
                     (bankParams m) (ledgerParams m)) later ∧
    (∀ m, m ∈ matches rep →
       eligibleOn (txs σ) ExactEligible (bankParams m) (ledgerParams m) →
       confidence m = 1%Q ∧ notes m = Some note1 ∧
       (bankParams m, ledgerParams m) ∈ found1) ∧
    (∀ b l, b ∈ ub1 → l ∈ ul1 → ¬ eligibleOn (txs σ) ExactEligible b l) ∧
    (∀ pre b post found0 post' pool l,
       bank = pre ++ b :: post →
       SpecPass (eligibleOn (txs σ) ExactEligible) post ledger found0 post' pool →
       l ∈ pool → eligibleOn (txs σ) ExactEligible b l →
       ∃ l0, (b, l0) ∈ found1 ∧
             mkMatched b l0 1%Q (Some note1) ∈ matches rep ∧
             eligibleOn (txs σ) ExactEligible b l0).
Proof.
  intros Hvalid.
  destruct (reconcile_passes _ _ _ _ _ Hvalid)
    as (m1 & ub1 & ul1 & m2 & ub2 & ul2 & m3 & ub3 & ul3 & uB & uL &
        E1 & E2 & E3 & _ & _ & _ & Hrun).
  set (P1 := onHeap (txs σ) exactPredicate) in *.
  assert (∀ x y, P1 x y = true ↔ eligibleOn (txs σ) ExactEligible x y) as Hiff.
  { apply onHeap_spec, exactPredicate_spec. }
  assert (∀ b l, b ∈ ub1 → l ∈ ul1 → P1 b l = false) as Hleft.
  { intros b l Hb Hl. apply (matchPairs_complete P1 bank ledger); by rewrite E1. }
  assert (∀ b l, (b, l) ∈ m2 → P1 b l = false) as Hleft2.
  { intros b l Hin.
    pose proof (matchPairs_found_from (onHeap (txs σ) fuzzyPredicate)
                  ub1 ul1 b l) as Hfrom.
    rewrite E2 in Hfrom. destruct (Hfrom Hin) as [Hb Hl]. by apply Hleft. }
  assert (∀ b l, (b, l) ∈ m3 → P1 b l = false) as Hleft3.
  { intros b l Hin.
    pose proof (matchPairs_found_from (onHeap (txs σ) descriptionPredicate)
                  ub2 ul2 b l) as Hfrom.
    rewrite E3 in Hfrom. destruct (Hfrom Hin) as [Hb Hl].
    pose proof (matchPairs_left_from (onHeap (txs σ) fuzzyPredicate) ub1 ul1)
      as [Hfb Hfl].
    rewrite E2 in Hfb, Hfl. simpl in Hfb, Hfl.
    apply Hleft; [by apply Hfb|by apply Hfl]. }
  eexists _, _, m1, ub1, ul1, _. split; [exact Hrun|].
  split_and!.
  - eapply pass_spec; [apply exactPredicate_spec|done].
  - reflexivity.
  - pose proof (matchPairs_sound P1 bank ledger) as Hsound.
    rewrite E1 in Hsound. eapply Forall_impl; [exact Hsound|].
    intros p Hp. by apply Hiff.
  - apply Forall_app. split; apply Forall_fmap, Forall_forall;
      intros [b l] Hin; (split; [done|]); simpl; rewrite <- Hiff.
    + by rewrite (Hleft2 b l Hin).
    + by rewrite (Hleft3 b l Hin).
  - intros m Hm HE. apply Hiff in HE. simpl in Hm. unfold matchesOf in Hm.
    rewrite !elem_of_app in Hm. destruct Hm as [Hm|[Hm|Hm]];
      apply list_elem_of_fmap in Hm as ([b l] & -> & Hin); simpl in *.
    + done.
    + by rewrite (Hleft2 b l Hin) in HE.
    + by rewrite (Hleft3 b l Hin) in HE.
  - intros b l Hb Hl HE. apply Hiff in HE. by rewrite (Hleft b l Hb Hl) in HE.
  - intros pre b post found0 post' pool l -> Hpost Hl HE.
    assert (SpecPass (eligibleOn (txs σ) ExactEligible) post ledger
              (matchPairs P1 post ledger).1.1 (matchPairs P1 post ledger).1.2
              (matchPairs P1 post ledger).2) as Hcomputed.
    { eapply pass_spec; [apply exactPredicate_spec|].
      by destruct (matchPairs _ post ledger) as [[? ?] ?]. }
    destruct (SpecPass_deterministic _ _ _ _ _ _ _ _ _ Hpost Hcomputed)
      as (_ & _ & ->).
    destruct (matchPairs_claims P1 pre b post ledger l Hl) as (l0 & Hin & HP0).
    { by apply Hiff. }
    rewrite E1 in Hin. exists l0. split_and!; [done| |by apply Hiff].
    simpl. unfold matchesOf. apply elem_of_app. left.
    apply list_elem_of_fmap. by exists (b, l0).
Qed.

(** C6 (amount conservation).  For every input, under exact arithmetic,
    [totalMatchedAmount], the sum of the bank-side amounts of the matches,
    plus [totalUnmatchedBankAmount] is the sum of the amounts of the bank
    input; on the ledger side the sum of the ledger-side amounts of the
    matches plus [totalUnmatchedLedgerAmount] is the sum of the amounts of
    the ledger input. *)
Theorem amount_conservation σ bankTransactions ledgerTransactions bank ledger :
  validInput σ bankTransactions ledgerTransactions bank ledger →
  ∃ rep σ',
    reconcileTransactions bankTransactions ledgerTransactions σ = Ok rep σ' ∧
    totalMatchedAmount (summary rep) =
      sumLeft (txs σ) (bankParams <$> matches rep) ∧
    (totalMatchedAmount (summary rep) + totalUnmatchedBankAmount (summary rep)
     == sumLeft (txs σ) bank)%Q ∧
    (sumLeft (txs σ) (ledgerParams <$> matches rep) +
     totalUnmatchedLedgerAmount (summary rep)
     == sumLeft (txs σ) ledger)%Q.
Proof.
  intros Hvalid.
  destruct (reconcile_passes _ _ _ _ _ Hvalid)
    as (m1 & ub1 & ul1 & m2 & ub2 & ul2 & m3 & ub3 & ul3 & uB & uL &
        E1 & E2 & E3 & _ & _ & _ & Hrun).
  destruct (passes_bank_perm _ _ _ _ _ _ _ _ _ _ _ _ _ _ E1 E2 E3) as [HB HL].
  eexists _, _. split; [exact Hrun|]. simpl.
  rewrite bankParams_matchesOf, ledgerParams_matchesOf.
  split_and!; [done| |].
  - rewrite <- sumLeft_app. by apply sumLeft_perm.
  - rewrite <- sumLeft_app. by apply sumLeft_perm.
Qed.

(** C7 (order of discovery).  For every input, the matches of the report
    are the pairs of the exact pass (confidence 1.0), then those of the
    fuzzy pass (0.9), then those of the description pass (0.7), and within
    each pass the positions of the bank records in the bank input are
    strictly decreasing: the match of the last bank record comes first. *)
Theorem discovery_order σ bankTransactions ledgerTransactions bank ledger :
  validInput σ bankTransactions ledgerTransactions bank ledger →
  ∃ rep σ' ms1 ms2 ms3 p1 p2 p3,
    reconcileTransactions bankTransactions ledgerTransactions σ = Ok rep σ' ∧
    matches rep = ms1 ++ ms2 ++ ms3 ∧
    Forall (λ m, confidence m = 1%Q ∧ notes m = Some note1) ms1 ∧
    Forall (λ m, confidence m = (9 # 10)%Q ∧ notes m = Some note2) ms2 ∧
    Forall (λ m, confidence m = (7 # 10)%Q ∧ notes m = Some note3) ms3 ∧
    Forall2 (λ m i, bank !! i = Some (bankParams m)) ms1 p1 ∧
    StronglySorted gt p1 ∧
    Forall2 (λ m i, bank !! i = Some (bankParams m)) ms2 p2 ∧
    StronglySorted gt p2 ∧
    Forall2 (λ m i, bank !! i = Some (bankParams m)) ms3 p3 ∧
    StronglySorted gt p3.
Proof.
  intros Hvalid.
  destruct (reconcile_tagged _ _ _ _ _ Hvalid)
    as (tm1 & tb1 & tl1 & tm2 & tb2 & tl2 & tm3 & tb3 & tl3 & uB & uL &
        T1 & T2 & T3 & Hrun).
  destruct (pass_facts _ _ _ _ _ _ T1) as (Hr1 & Hb1 & _ & _ & _).
  destruct (pass_facts _ _ _ _ _ _ T2) as (Hr2 & Hb2 & _ & _ & _).
  destruct (pass_facts _ _ _ _ _ _ T3) as (Hr3 & _ & _ & _ & _).
  assert (reverse tm2.*1 `sublist_of` tagged bank) as Hr2' by by etrans.
  assert (reverse tm3.*1 `sublist_of` tagged bank) as Hr3'.
  { etrans; [done|]. by etrans. }
  eexists _, _, _, _, _, tm1.*1.*1, tm2.*1.*1, tm3.*1.*1.
  split; [exact Hrun|]. split; [reflexivity|].
  split_and!.
  - apply Forall_fmap. by apply Forall_true.
  - apply Forall_fmap. by apply Forall_true.
  - apply Forall_fmap. by apply Forall_true.
  - apply bank_positions. by apply found_in_pool.
  - by eapply positions_decreasing.
  - apply bank_positions. by apply found_in_pool.
  - by eapply positions_decreasing.
  - apply bank_positions. by apply found_in_pool.
  - by eapply positions_decreasing.
Qed.

(** C8 (unmatched lists).  For every input there are the positions of the
    bank records of the matches in the bank input, pairwise distinct, and
    [unmatchedBank] is the bank input without the records at these
    positions, in the order of the input, hence a subsequence of it;
    likewise [unmatchedLedger] is the ledger input without the records at
    the positions of the ledger records of the matches. *)
Theorem unmatched_in_order σ bankTransactions ledgerTransactions bank ledger :
  validInput σ bankTransactions ledgerTransactions bank ledger →
  ∃ rep σ' claimedBank claimedLedger,
    reconcileTransactions bankTransactions ledgerTransactions σ = Ok rep σ' ∧
    Forall2 (λ m i, bank !! i = Some (bankParams m)) (matches rep) claimedBank ∧
    NoDup claimedBank ∧
    unmatchedBank rep = unclaimed claimedBank bank ∧
    unmatchedBank rep `sublist_of` bank ∧
    Forall2 (λ m i, ledger !! i = Some (ledgerParams m))
      (matches rep) claimedLedger ∧
    NoDup claimedLedger ∧
    unmatchedLedger rep = unclaimed claimedLedger ledger ∧
    unmatchedLedger rep `sublist_of` ledger.
Proof.
  intros Hvalid.
  destruct (reconcile_positions _ _ _ _ _ Hvalid)
    as (rep & σ' & claimedBank & claimedLedger & Hrun &
        HposB & HndB & HuB & HposL & HndL & HuL).
  exists rep, σ', claimedBank, claimedLedger.
  split_and!; try done.
  - rewrite HuB. apply unclaimed_sublist.
  - rewrite HuL. apply unclaimed_sublist.
Qed.

(** C9 (no failure).  On arrays of transaction objects the function
    returns a report and does not throw; on two empty arrays the report has
    no matches, two empty unmatched lists and five zero summary fields. *)
Theorem never_throws σ bankTransactions ledgerTransactions bank ledger :
  validInput σ bankTransactions ledgerTransactions bank ledger →
  ∃ rep σ',
    reconcileTransactions bankTransactions ledgerTransactions σ = Ok rep σ' ∧
    (bank = [] → ledger = [] →
     rep = mkReport [] [] [] (mkSummary 0%Q 0%Q 0%Q 0 0)).
Proof.
  intros Hvalid.
  destruct (reconcileTransactions_run _ _ _ _ _ Hvalid)
    as (uB & uL & _ & _ & _ & Hrun).
  eexists _, _. split; [exact Hrun|].
  intros -> ->. reflexivity.
Qed.

(** C10 (frame).  For every input, the two argument arrays and every other
    array of the heap hold what they held before the call, no transaction
    object has changed, and every transaction of the report is an object of
    the input: the bank side of a match and the unmatched bank records are
    elements of the bank array, the ledger side and the unmatched ledger
    records are elements of the ledger array. *)
Theorem inputs_untouched σ bankTransactions ledgerTransactions bank ledger :
  validInput σ bankTransactions ledgerTransactions bank ledger →
  ∃ rep σ',
    reconcileTransactions bankTransactions ledgerTransactions σ = Ok rep σ' ∧
    arrays σ' !! bankTransactions = Some bank ∧
    arrays σ' !! ledgerTransactions = Some ledger ∧
    (∀ a, is_Some (arrays σ !! a) → arrays σ' !! a = arrays σ !! a) ∧
    txs σ' = txs σ ∧
    Forall (λ m, bankParams m ∈ bank ∧ ledgerParams m ∈ ledger) (matches rep) ∧
    Forall (λ r, r ∈ bank) (unmatchedBank rep) ∧
    Forall (λ r, r ∈ ledger) (unmatchedLedger rep).
Proof.
  intros Hvalid.
  destruct (reconcile_passes _ _ _ _ _ Hvalid)
    as (m1 & ub1 & ul1 & m2 & ub2 & ul2 & m3 & ub3 & ul3 & uB & uL &
        E1 & E2 & E3 & HuB & HuL & _ & Hrun).
  destruct (passes_bank_perm _ _ _ _ _ _ _ _ _ _ _ _ _ _ E1 E2 E3) as [HB HL].
  destruct Hvalid as (HaB & HaL & _).
  eexists _, _. split; [exact Hrun|].
  split_and!.
  - rewrite withPools_frame by eauto. done.
  - rewrite withPools_frame by eauto. done.
  - intros a Ha. by apply withPools_frame.
  - done.
  - simpl. apply Forall_forall. intros m Hm. split.
    + rewrite <- HB, <- bankParams_matchesOf. apply elem_of_app. left.
      by apply list_elem_of_fmap_2.
    + rewrite <- HL, <- ledgerParams_matchesOf. apply elem_of_app. left.
      by apply list_elem_of_fmap_2.
  - simpl. apply Forall_forall. intros r Hr.
    rewrite <- HB. apply elem_of_app. by right.
  - simpl. apply Forall_forall. intros r Hr.
    rewrite <- HL. apply elem_of_app. by right.
Qed.

End Claims.

(** * Further properties *)

Section Further.
Context {host : Host}.

(** ** The engine *)

Lemma matchPairs_none {A B} (P : A → B → bool) (ub : list A) (ul : list B) :
  (∀ b l, b ∈ ub → l ∈ ul → P b l = false) →
  matchPairs P ub ul = ([], ub, ul).
Proof.
  induction ub as [|a bs IH]; intros Hnone; [done|].
  simpl. rewrite IH by (intros b l Hb Hl; apply Hnone; [by right|done]).
  simpl. destruct (list_find _ ul) as [[j l]|] eqn:E; [|done].
  apply list_find_Some in E as (Hj & HP & _).
  rewrite (Hnone a l) in HP; [done|by left|by eapply list_elem_of_lookup_2].
Qed.

Lemma exact_Compatible tb tl : ExactEligible tb tl → Compatible tb tl.
Proof. intros (Ha & _ & Ht). by split. Qed.

Lemma fuzzy_Compatible tb tl : FuzzyEligible tb tl → Compatible tb tl.
Proof. intros (Ha & Ht & _). by split. Qed.

Lemma description_Compatible tb tl : DescriptionEligible tb tl → Compatible tb tl.
Proof. intros (Ha & Ht & _). by split. Qed.

Lemma onHeap_false h P (E : Transaction → Transaction → Prop) b l :
  (∀ tb tl, P tb tl = true ↔ E tb tl) →
  ¬ eligibleOn h E b l → onHeap h P b l = false.
Proof.
  intros HPE Hnot. destruct (onHeap h P b l) eqn:HP; [|done].
  destruct Hnot. by apply (onHeap_spec h P E HPE).
Qed.

Lemma eligibleOn_impl h (E E' : Transaction → Transaction → Prop) b l :
  (∀ tb tl, E tb tl → E' tb tl) → eligibleOn h E b l → eligibleOn h E' b l.
Proof. intros HE (tb & tl & Hb & Hl & H). exists tb, tl. eauto. Qed.

(** The three predicates on the heap, and what each pair found owes to
    them. *)
Lemma exact_iff h b l :
  onHeap h exactPredicate b l = true ↔ eligibleOn h ExactEligible b l.
Proof. apply onHeap_spec, exactPredicate_spec. Qed.

Lemma fuzzy_iff h b l :
  onHeap h fuzzyPredicate b l = true ↔ eligibleOn h FuzzyEligible b l.
Proof. apply onHeap_spec, fuzzyPredicate_spec. Qed.

Lemma description_iff h b l :
  onHeap h descriptionPredicate b l = true ↔
  eligibleOn h DescriptionEligible b l.
Proof. apply onHeap_spec, descriptionPredicate_spec. Qed.

(** X1.  When no bank record and ledger record of the input agree on the
    type with amounts within the tolerance, nothing is matched and the two
    unmatched lists are the two inputs, in their order. *)
Theorem no_compatible_no_match σ bankTransactions ledgerTransactions bank ledger :
  validInput σ bankTransactions ledgerTransactions bank ledger →
  (∀ b l, b ∈ bank → l ∈ ledger → ¬ eligibleOn (txs σ) Compatible b l) →
  ∃ rep σ',
    reconcileTransactions bankTransactions ledgerTransactions σ = Ok rep σ' ∧
    matches rep = [] ∧ unmatchedBank rep = bank ∧ unmatchedLedger rep = ledger ∧
    matchCount (summary rep) = 0 ∧
    discrepancyCount (summary rep) = length bank + length ledger.
Proof.
  intros Hvalid Hnone.
  destruct (reconcile_passes _ _ _ _ _ Hvalid)
    as (m1 & ub1 & ul1 & m2 & ub2 & ul2 & m3 & ub3 & ul3 & uB & uL &
        E1 & E2 & E3 & _ & _ & _ & Hrun).
  rewrite matchPairs_none in E1; cycle 1.
  { intros b l Hb Hl. apply (onHeap_false _ _ _ _ _ exactPredicate_spec).
    intros HE. apply (Hnone b l Hb Hl).
    eapply eligibleOn_impl; [apply exact_Compatible|done]. }
  injection E1 as <- <- <-.
  rewrite matchPairs_none in E2; cycle 1.
  { intros b l Hb Hl. apply (onHeap_false _ _ _ _ _ fuzzyPredicate_spec).
    intros HE. apply (Hnone b l Hb Hl).
    eapply eligibleOn_impl; [apply fuzzy_Compatible|done]. }
  injection E2 as <- <- <-.
  rewrite matchPairs_none in E3; cycle 1.
  { intros b l Hb Hl. apply (onHeap_false _ _ _ _ _ descriptionPredicate_spec).
    intros HE. apply (Hnone b l Hb Hl).
    eapply eligibleOn_impl; [apply description_Compatible|done]. }
  injection E3 as <- <- <-.
  eexists _, _. split; [exact Hrun|]. done.
Qed.

Lemma Compatible_dec_spec tb tl :
  amountMatch tb tl && typeMatch tb tl = true ↔ Compatible tb tl.
Proof.
  unfold Compatible. by rewrite andb_true_iff, amountMatch_spec, typeMatch_spec.
Qed.

(** Every pair found by any pass agrees on the type, with amounts within
    the tolerance. *)
Lemma passes_Compatible h bank ledger m1 ub1 ul1 m2 ub2 ul2 m3 ub3 ul3 :
  matchPairs (onHeap h exactPredicate) bank ledger = (m1, ub1, ul1) →
  matchPairs (onHeap h fuzzyPredicate) ub1 ul1 = (m2, ub2, ul2) →
  matchPairs (onHeap h descriptionPredicate) ub2 ul2 = (m3, ub3, ul3) →
  Forall (λ p, eligibleOn h Compatible p.1 p.2) (m1 ++ m2 ++ m3).
Proof.
  intros E1 E2 E3.
  pose proof (matchPairs_sound (onHeap h exactPredicate) bank ledger) as H1.
  pose proof (matchPairs_sound (onHeap h fuzzyPredicate) ub1 ul1) as H2.
  pose proof (matchPairs_sound (onHeap h descriptionPredicate) ub2 ul2) as H3.
  rewrite E1 in H1. rewrite E2 in H2. rewrite E3 in H3. simpl in *.
  rewrite !Forall_app. split_and!.
  - eapply Forall_impl; [exact H1|]. intros p Hp.
    eapply eligibleOn_impl; [apply exact_Compatible|]. by apply exact_iff.
  - eapply Forall_impl; [exact H2|]. intros p Hp.
    eapply eligibleOn_impl; [apply fuzzy_Compatible|]. by apply fuzzy_iff.
  - eapply Forall_impl; [exact H3|]. intros p Hp.
    eapply eligibleOn_impl; [apply description_Compatible|].
    by apply description_iff.
Qed.


(** X2.  For every input, [matchCount] is the number of matches,
    [discrepancyCount] the number of unmatched records of both sides, twice
    the first plus the second is the number of input records, and there are
    at most as many matches as records on either side. *)
Theorem summary_counts σ bankTransactions ledgerTransactions bank ledger :
  validInput σ bankTransactions ledgerTransactions bank ledger →
  ∃ rep σ',
    reconcileTransactions bankTransactions ledgerTransactions σ = Ok rep σ' ∧
    matchCount (summary rep) = length (matches rep) ∧
    discrepancyCount (summary rep) =
      length (unmatchedBank rep) + length (unmatchedLedger rep) ∧
    2 * matchCount (summary rep) + discrepancyCount (summary rep) =
      length bank + length ledger ∧
    matchCount (summary rep) ≤ length bank ∧
    matchCount (summary rep) ≤ length ledger.
Proof.
  intros Hvalid.
  destruct (reconcile_passes _ _ _ _ _ Hvalid)
    as (m1 & ub1 & ul1 & m2 & ub2 & ul2 & m3 & ub3 & ul3 & uB & uL &
        E1 & E2 & E3 & _ & _ & _ & Hrun).
  destruct (passes_bank_perm _ _ _ _ _ _ _ _ _ _ _ _ _ _ E1 E2 E3) as [HB HL].
  apply Permutation_length in HB, HL.
  rewrite <- bankParams_matchesOf in HB. rewrite <- ledgerParams_matchesOf in HL.
  rewrite length_app, length_fmap in HB, HL.
  eexists _, _. split; [exact Hrun|]. simpl. lia.
Qed.



(** X4.  For every input, no record of [unmatchedBank] and record of
    [unmatchedLedger] satisfy the criteria of any of the three passes:
    nothing the engine could match is left unmatched. *)
Theorem nothing_left_to_match σ bankTransactions ledgerTransactions bank ledger :
  validInput σ bankTransactions ledgerTransactions bank ledger →
  ∃ rep σ',
    reconcileTransactions bankTransactions ledgerTransactions σ = Ok rep σ' ∧
    ∀ b l, b ∈ unmatchedBank rep → l ∈ unmatchedLedger rep →
      ¬ eligibleOn (txs σ) ExactEligible b l ∧
      ¬ eligibleOn (txs σ) FuzzyEligible b l ∧
      ¬ eligibleOn (txs σ) DescriptionEligible b l.
Proof.
  intros Hvalid.
  destruct (reconcile_passes _ _ _ _ _ Hvalid)
    as (m1 & ub1 & ul1 & m2 & ub2 & ul2 & m3 & ub3 & ul3 & uB & uL &
        E1 & E2 & E3 & _ & _ & _ & Hrun).
  eexists _, _. split; [exact Hrun|]. simpl. intros b l Hb Hl.
  pose proof (matchPairs_left_from (onHeap (txs σ) descriptionPredicate) ub2 ul2)
    as [Hb3 Hl3].
  pose proof (matchPairs_left_from (onHeap (txs σ) fuzzyPredicate) ub1 ul1)
    as [Hb2 Hl2].
  rewrite E3 in Hb3, Hl3. rewrite E2 in Hb2, Hl2. simpl in *.
  split_and!.
  - rewrite <- exact_iff.
    rewrite (matchPairs_complete (onHeap (txs σ) exactPredicate) bank ledger b l);
      [done|rewrite E1; simpl; auto..].
  - rewrite <- fuzzy_iff.
    rewrite (matchPairs_complete (onHeap (txs σ) fuzzyPredicate) ub1 ul1 b l);
      [done|rewrite E2; simpl; auto..].
  - rewrite <- description_iff.
    rewrite (matchPairs_complete (onHeap (txs σ) descriptionPredicate)
               ub2 ul2 b l); [done|rewrite E3; simpl; auto..].
Qed.

Lemma residue_none h bank ledger m1 ub1 ul1 m2 ub2 ul2 m3 ub3 ul3 :
  matchPairs (onHeap h exactPredicate) bank ledger = (m1, ub1, ul1) →
  matchPairs (onHeap h fuzzyPredicate) ub1 ul1 = (m2, ub2, ul2) →
  matchPairs (onHeap h descriptionPredicate) ub2 ul2 = (m3, ub3, ul3) →
  ∀ b l, b ∈ ub3 → l ∈ ul3 →
    onHeap h exactPredicate b l = false ∧
    onHeap h fuzzyPredicate b l = false ∧
    onHeap h descriptionPredicate b l = false.
Proof.
  intros E1 E2 E3 b l Hb Hl.
  pose proof (matchPairs_left_from (onHeap h descriptionPredicate) ub2 ul2)
    as [Hb3 Hl3].
  pose proof (matchPairs_left_from (onHeap h fuzzyPredicate) ub1 ul1)
    as [Hb2 Hl2].
  rewrite E3 in Hb3, Hl3. rewrite E2 in Hb2, Hl2. simpl in *.
  split_and!.
  - apply (matchPairs_complete (onHeap h exactPredicate) bank ledger b l);
      rewrite E1; simpl; auto.
  - apply (matchPairs_complete (onHeap h fuzzyPredicate) ub1 ul1 b l);
      rewrite E2; simpl; auto.
  - apply (matchPairs_complete (onHeap h descriptionPredicate) ub2 ul2 b l);
      rewrite E3; simpl; auto.
Qed.

(** X5.  The two unmatched arrays of a report can be reconciled again: the
    second run finds no match and returns the same two unmatched lists. *)
Theorem rerun_on_residue σ bankTransactions ledgerTransactions bank ledger :
  validInput σ bankTransactions ledgerTransactions bank ledger →
  ∃ rep σ' unmatchedBankArray unmatchedLedgerArray rep2 σ'',
    reconcileTransactions bankTransactions ledgerTransactions σ = Ok rep σ' ∧
    arrays σ' !! unmatchedBankArray = Some (unmatchedBank rep) ∧
    arrays σ' !! unmatchedLedgerArray = Some (unmatchedLedger rep) ∧
    reconcileTransactions unmatchedBankArray unmatchedLedgerArray σ'
      = Ok rep2 σ'' ∧
    matches rep2 = [] ∧
    unmatchedBank rep2 = unmatchedBank rep ∧
    unmatchedLedger rep2 = unmatchedLedger rep.
Proof.
  intros Hvalid.
  destruct (reconcile_passes _ _ _ _ _ Hvalid)
    as (m1 & ub1 & ul1 & m2 & ub2 & ul2 & m3 & ub3 & ul3 & uB & uL &
        E1 & E2 & E3 & _ & _ & Hne & Hrun).
  pose proof (residue_none _ _ _ _ _ _ _ _ _ _ _ _ E1 E2 E3) as Hres.
  destruct (passes_bank_perm _ _ _ _ _ _ _ _ _ _ _ _ _ _ E1 E2 E3) as [HB HL].
  destruct Hvalid as (_ & _ & [Hbank Hledger]%Forall_app).
  assert (validInput (withPools σ uB uL ub3 ul3) uB uL ub3 ul3) as Hvalid2.
  { split_and!.
    - by apply withPools_bank.
    - apply withPools_ledger.
    - simpl. apply Forall_app. split.
      + rewrite Forall_forall in Hbank.
        apply Forall_forall. intros r Hr. apply Hbank.
        rewrite <- HB. apply elem_of_app. by right.
      + rewrite Forall_forall in Hledger.
        apply Forall_forall. intros r Hr. apply Hledger.
        rewrite <- HL. apply elem_of_app. by right. }
  destruct (reconcile_passes _ _ _ _ _ Hvalid2)
    as (n1 & vb1 & vl1 & n2 & vb2 & vl2 & n3 & vb3 & vl3 & uB' & uL' &
        F1 & F2 & F3 & _ & _ & _ & Hrun2).
  simpl in F1, F2, F3.
  rewrite matchPairs_none in F1 by (intros b l Hb Hl; by apply Hres).
  injection F1 as <- <- <-.
  rewrite matchPairs_none in F2 by (intros b l Hb Hl; by apply Hres).
  injection F2 as <- <- <-.
  rewrite matchPairs_none in F3 by (intros b l Hb Hl; by apply Hres).
  injection F3 as <- <- <-.
  eexists _, _, uB, uL, _, _. split; [exact Hrun|].
  split; [by apply withPools_bank|]. split; [apply withPools_ledger|].
  split; [exact Hrun2|]. done.
Qed.

(** X6.  A ledger record for which no bank record of the input has the
    same type and an amount within the tolerance is in no match and stays
    in [unmatchedLedger]; likewise a bank record without such a ledger
    record stays in [unmatchedBank]. *)
Theorem isolated_stays_unmatched
    σ bankTransactions ledgerTransactions bank ledger :
  validInput σ bankTransactions ledgerTransactions bank ledger →
  ∃ rep σ',
    reconcileTransactions bankTransactions ledgerTransactions σ = Ok rep σ' ∧
    (∀ l, l ∈ ledger →
       (∀ b, b ∈ bank → ¬ eligibleOn (txs σ) Compatible b l) →
       l ∈ unmatchedLedger rep ∧ l ∉ (ledgerParams <$> matches rep)) ∧
    (∀ b, b ∈ bank →
       (∀ l, l ∈ ledger → ¬ eligibleOn (txs σ) Compatible b l) →
       b ∈ unmatchedBank rep ∧ b ∉ (bankParams <$> matches rep)).
Proof.
  intros Hvalid.
  destruct (reconcile_passes _ _ _ _ _ Hvalid)
    as (m1 & ub1 & ul1 & m2 & ub2 & ul2 & m3 & ub3 & ul3 & uB & uL &
        E1 & E2 & E3 & _ & _ & _ & Hrun).
  pose proof (passes_Compatible _ _ _ _ _ _ _ _ _ _ _ _ E1 E2 E3) as Hcompat.
  rewrite Forall_forall in Hcompat.
  destruct (passes_bank_perm _ _ _ _ _ _ _ _ _ _ _ _ _ _ E1 E2 E3) as [HB HL].
  eexists _, _. split; [exact Hrun|]. simpl.
  rewrite bankParams_matchesOf, ledgerParams_matchesOf.
  rewrite <- !fmap_app in *.
  split.
  - intros l Hl Hnone.
    assert (l ∉ (m1 ++ m2 ++ m3).*2) as Hnot.
    { intros ([b l'] & -> & Hin)%list_elem_of_fmap. simpl in *.
      apply (Hnone b); [|by apply (Hcompat (b, l'))].
      rewrite <- HB. apply elem_of_app. left.
      by apply (list_elem_of_fmap_2 fst) in Hin. }
    split; [|done]. rewrite <- HL in Hl.
    apply elem_of_app in Hl as [Hl|Hl]; done.
  - intros b Hb Hnone.
    assert (b ∉ (m1 ++ m2 ++ m3).*1) as Hnot.
    { intros ([b' l] & -> & Hin)%list_elem_of_fmap. simpl in *.
      apply (Hnone l); [|by apply (Hcompat (b', l))].
      rewrite <- HL. apply elem_of_app. left.
      by apply (list_elem_of_fmap_2 snd) in Hin. }
    split; [|done]. rewrite <- HB in Hb.
    apply elem_of_app in Hb as [Hb|Hb]; done.
Qed.

(** X7.  Every match of the fuzzy pass (confidence 0.9) joins two records
    whose dates the host both reads, as times at most three days apart,
    and whose date strings differ; a record whose date the host does not
    read is never matched in that pass. *)
Theorem fuzzy_matches_have_dates
    σ bankTransactions ledgerTransactions bank ledger :
  validInput σ bankTransactions ledgerTransactions bank ledger →
  ∃ rep σ',
    reconcileTransactions bankTransactions ledgerTransactions σ = Ok rep σ' ∧
    ∀ m, m ∈ matches rep → confidence m = (9 # 10)%Q →
      ∃ tb tl t1 t2,
        txs σ !! bankParams m = Some tb ∧ txs σ !! ledgerParams m = Some tl ∧
        Date_getTime (date tb) = Some t1 ∧ Date_getTime (date tl) = Some t2 ∧
        (Z.abs (t1 - t2) ≤ 3 * msPerDay)%Z ∧ date tl ≠ date tb.
Proof.
  intros Hvalid.
  destruct (reconcile_passes _ _ _ _ _ Hvalid)
    as (m1 & ub1 & ul1 & m2 & ub2 & ul2 & m3 & ub3 & ul3 & uB & uL &
        E1 & E2 & E3 & _ & _ & _ & Hrun).
  eexists _, _. split; [exact Hrun|]. simpl. intros m Hm Hconf.
  unfold matchesOf in Hm. rewrite !elem_of_app in Hm.
  destruct Hm as [Hm|[Hm|Hm]];
    apply list_elem_of_fmap in Hm as ([b l] & -> & Hin); simpl in *;
    [discriminate Hconf| |discriminate Hconf].
  pose proof (matchPairs_sound (onHeap (txs σ) fuzzyPredicate) ub1 ul1) as Hs.
  rewrite E2 in Hs. rewrite Forall_forall in Hs. specialize (Hs _ Hin).
  apply fuzzy_iff in Hs as (tb & tl & Hb & Hl & Ha & Ht & t1 & t2 & H1 & H2 & Hd).
  exists tb, tl, t1, t2. split_and!; try done.
  intros Hdate.
  pose proof (matchPairs_found_from (onHeap (txs σ) fuzzyPredicate) ub1 ul1 b l)
    as Hfrom.
  rewrite E2 in Hfrom. destruct (Hfrom Hin) as [Hb1 Hl1].
  pose proof (matchPairs_complete (onHeap (txs σ) exactPredicate)
                bank ledger b l) as Hleft.
  rewrite E1 in Hleft. specialize (Hleft Hb1 Hl1).
  assert (onHeap (txs σ) exactPredicate b l = true) as Hexact.
  { apply exact_iff. exists tb, tl. by split_and!. }
  congruence.
Qed.

(** ** The text exports *)

Lemma append_Empty' (t : string) : "" +:+ t = t.
Proof. reflexivity. Qed.

Lemma length_append (s t : string) :
  String.length (s +:+ t) = String.length s + String.length t.
Proof. induction s as [|c s IH]; [done|]. rewrite append_String. simpl. by rewrite IH. Qed.

Lemma length_replaceQuotes (d : string) :
  String.length (replaceQuotes d) = String.length d + countChar dquote d.
Proof.
  induction d as [|c d IH]; [done|]. simpl.
  destruct (Ascii.eqb c dquote); simpl; rewrite IH; lia.
Qed.

Lemma replaceQuotes_id (d : string) :
  countChar dquote d = 0 → replaceQuotes d = d.
Proof.
  induction d as [|c d IH]; [done|]. simpl.
  destruct (Ascii.eqb c dquote); [done|]. simpl. intros H. by rewrite IH.
Qed.

Lemma csvUnquoteBody_escape (d : string) :
  csvUnquoteBody (replaceQuotes d +:+ dq) = Some d.
Proof.
  induction d as [|c d IH]; [done|]. cbn [replaceQuotes].
  destruct (Ascii.eqb c dquote) eqn:E.
  - apply Ascii.eqb_eq in E as ->. rewrite !append_String.
    cbn [csvUnquoteBody]. rewrite Ascii.eqb_refl. by rewrite IH.
  - rewrite append_String. cbn [csvUnquoteBody]. rewrite E. by rewrite IH.
Qed.

Lemma csvUnquoteBody_inv (s r : string) :
  csvUnquoteBody s = Some r → s = replaceQuotes r +:+ dq.
Proof.
  remember (String.length s) as n eqn:Hn. revert s r Hn.
  induction n as [n IH] using lt_wf_ind. intros s r Hn.
  destruct s as [|c s]; [done|]. cbn [csvUnquoteBody].
  destruct (Ascii.eqb c dquote) eqn:E.
  - apply Ascii.eqb_eq in E as ->. destruct s as [|c' s].
    + by intros [= <-].
    + destruct (Ascii.eqb c' dquote) eqn:E'; [|done].
      apply Ascii.eqb_eq in E' as ->.
      destruct (csvUnquoteBody s) as [r'|] eqn:Hs; [|done].
      intros [= <-]. cbn [replaceQuotes]. rewrite Ascii.eqb_refl.
      rewrite !append_String. do 2 f_equal.
      eapply (IH (String.length s)); [simpl in Hn; lia|done|done].
  - destruct (csvUnquoteBody s) as [r'|] eqn:Hs; [|done].
    intros [= <-]. cbn [replaceQuotes]. rewrite E, append_String. f_equal.
    eapply (IH (String.length s)); [simpl in Hn; lia|done|done].
Qed.

Lemma csvUnquote_plain (d : string) :
  csvUnquote (dq +:+ d +:+ dq) = Some d ↔ countChar dquote d = 0.
Proof.
  unfold dq at 1. rewrite append_String, append_Empty'.
  cbn [csvUnquote]. rewrite Ascii.eqb_refl. split.
  - intros H%csvUnquoteBody_inv.
    apply (f_equal String.length) in H.
    rewrite !length_append, length_replaceQuotes in H. lia.
  - intros H. rewrite <- (replaceQuotes_id d H) at 1.
    apply csvUnquoteBody_escape.
Qed.

Lemma mapM_run {X B} (f : X → M B) (g : X → B) (l : list X) (σ : Store) :
  (∀ x, x ∈ l → f x σ = Ok (g x) σ) →
  mapM f l σ = Ok (g <$> l) σ.
Proof.
  induction l as [|x l IH]; intros Hf; [done|].
  change (mapM f (x :: l)) with (y ← f x; k ← mapM f l; mret (y :: k)).
  rewrite bind_run, (Hf x) by (by left).
  rewrite bind_run, IH by (intros y Hy; apply Hf; by right).
  done.
Qed.

Lemma deref_run σ r :
  is_Some (txs σ !! r) → deref (Some r) σ = Ok (txs σ !!! r) σ.
Proof.
  intros [t Ht]. unfold deref. rewrite Ht.
  by rewrite (lookup_total_correct _ _ _ Ht).
Qed.

Lemma mapM_deref_run {X B} (key : X → loc) (build : Transaction → X → B)
    (l : list X) (σ : Store) :
  allocated σ (key <$> l) →
  mapM (λ x, t ← deref (Some (key x)); mret (build t x)) l σ =
  Ok ((λ x, build (txs σ !!! key x) x) <$> l) σ.
Proof.
  intros Hl. apply mapM_run. intros x Hx.
  rewrite bind_run, deref_run; [done|].
  unfold allocated in Hl. rewrite Forall_forall in Hl. apply Hl.
  by apply list_elem_of_fmap_2.
Qed.

(** The records of a report of the engine are objects of the heap the
    report comes with. *)
Lemma report_allocated σ aB aL bank ledger :
  validInput σ aB aL bank ledger →
  ∃ rep σ',
    reconcileTransactions aB aL σ = Ok rep σ' ∧ txs σ' = txs σ ∧
    allocated σ' (bankParams <$> matches rep) ∧
    allocated σ' (ledgerParams <$> matches rep) ∧
    allocated σ' (unmatchedBank rep) ∧
    allocated σ' (unmatchedLedger rep) ∧
    length (matches rep) = matchCount (summary rep) ∧
    2 * length (matches rep) + length (unmatchedBank rep) +
      length (unmatchedLedger rep) = length bank + length ledger.
Proof.
  intros Hvalid.
  destruct (reconcile_passes _ _ _ _ _ Hvalid)
    as (m1 & ub1 & ul1 & m2 & ub2 & ul2 & m3 & ub3 & ul3 & uB & uL &
        E1 & E2 & E3 & _ & _ & _ & Hrun).
  destruct (passes_bank_perm _ _ _ _ _ _ _ _ _ _ _ _ _ _ E1 E2 E3) as [HB HL].
  destruct Hvalid as (_ & _ & [Hbank Hledger]%Forall_app).
  eexists _, _. split; [exact Hrun|]. split; [done|]. simpl.
  rewrite bankParams_matchesOf, ledgerParams_matchesOf.
  unfold allocated. simpl.
  rewrite <- HB in Hbank. rewrite <- HL in Hledger.
  apply Forall_app in Hbank as [Hb1 Hb2]. apply Forall_app in Hledger as [Hl1 Hl2].
  split_and!; try done.
  apply Permutation_length in HB, HL. rewrite length_app in HB, HL.
  rewrite <- bankParams_matchesOf, length_fmap in HB.
  rewrite <- ledgerParams_matchesOf, length_fmap in HL. lia.
Qed.

Section ExportFacts.
Variable NumberToString : Q → string.

(** X8.  [generateSampleCSV] writes the description of a record as a
    quoted field with the double quotes doubled: the field reads back as
    the description, whatever characters it holds. *)
Theorem sample_description_reads_back (t : Transaction) :
  ∃ field,
    sampleRow NumberToString t !! 1 = Some field ∧
    csvUnquote field = Some (description t).
Proof.
  eexists. split; [reflexivity|].
  unfold dq at 1. rewrite append_String, append_Empty'.
  cbn [csvUnquote]. rewrite Ascii.eqb_refl. apply csvUnquoteBody_escape.
Qed.

(** X9.  [downloadCSV] puts the description between two double quotes as
    it is: in a matched and in an unmatched row the field reads back as the
    description exactly when the description holds no double quote. *)
Theorem csv_description_unescaped (src note : string) (t : Transaction)
    (m : MatchedTransaction) :
  matchedRow src t m !! 3 = Some (CString (dq +:+ description t +:+ dq)) ∧
  unmatchedRow src note t !! 3 = Some (CString (dq +:+ description t +:+ dq)) ∧
  (csvUnquote (dq +:+ description t +:+ dq) = Some (description t) ↔
   countChar dquote (description t) = 0).
Proof. split_and!; [reflexivity..|]. apply csvUnquote_plain. Qed.

(** X10.  The CSV export of a report of the engine does not fail and has,
    after its three or four heading rows, one row of eight cells for every
    record of the two inputs. *)
Theorem csv_one_row_per_record σ bankTransactions ledgerTransactions
    bank ledger (companyName : option string) (today : string) :
  validInput σ bankTransactions ledgerTransactions bank ledger →
  ∃ rep σ' heading data,
    reconcileTransactions bankTransactions ledgerTransactions σ = Ok rep σ' ∧
    downloadCSV_rows rep companyName today σ' = Ok (heading ++ data) σ' ∧
    length heading = (if truthy companyName then 4 else 3) ∧
    length data = length bank + length ledger ∧
    Forall (λ row, length row = 8) data.
Proof.
  intros Hvalid.
  destruct (report_allocated _ _ _ _ _ Hvalid)
    as (rep & σ' & Hrun & Htxs & Hmb & Hml & Hub & Hul & _ & Hlen).
  exists rep, σ'.
  unfold downloadCSV_rows.
  rewrite bind_run, (mapM_deref_run bankParams (λ t m, matchedRow "BANK" t m))
    by done.
  rewrite bind_run,
    (mapM_deref_run ledgerParams (λ t m, matchedRow "LEDGER" t m)) by done.
  rewrite bind_run,
    (mapM_deref_run (λ r, r) (λ t _, unmatchedRow "BANK" "Only in Bank" t))
    by (by rewrite list_fmap_id).
  rewrite bind_run,
    (mapM_deref_run (λ r, r) (λ t _, unmatchedRow "LEDGER" "Only in Ledger" t))
    by (by rewrite list_fmap_id).
  exists ((if truthy companyName
           then [if truthy companyName
                 then CString ("Company: " +:+ orElse companyName "") ::
                      replicate 7 (CString "")
                 else []]
           else []) ++
          [CString ("Generated: " +:+ today) :: replicate 7 (CString "");
           [];
           CString <$> ["Status"; "Source"; "Date"; "Description"; "Amount";
                        "Reference"; "Type"; "Match Notes"]]).
  eexists. split; [exact Hrun|]. split.
  { rewrite <- app_assoc. reflexivity. }
  split_and!.
  - destruct (truthy companyName); reflexivity.
  - rewrite !length_app, !length_fmap. lia.
  - rewrite !Forall_app. split_and!; apply Forall_fmap, Forall_true; done.
Qed.

Lemma countChar_app (c : ascii) (s t : string) :
  countChar c (s +:+ t) = countChar c s + countChar c t.
Proof.
  induction s as [|c' s IH]; [done|]. rewrite append_String. simpl.
  rewrite IH. lia.
Qed.

(** X11.  The heading of the CSV export has seven commas, for its eight
    columns, but the line of a match of the exact pass has at least nine:
    the note of that pass holds two commas and is written as it is. *)
Theorem csv_exact_note_commas (src : string) (t : Transaction)
    (m : MatchedTransaction) :
  notes m = Some "Exact match on Date, Amount, and Type" →
  countChar "," (join "," ["Status"; "Source"; "Date"; "Description"; "Amount";
                           "Reference"; "Type"; "Match Notes"]) = 7 ∧
  9 ≤ countChar ","
        (join "," (cellToString NumberToString <$> matchedRow src t m)).
Proof.
  intros Hnote. split; [reflexivity|].
  unfold matchedRow. rewrite Hnote.
  cbn [fmap list_fmap join cellToString optionCell].
  rewrite !countChar_app.
  change (countChar "," "Exact match on Date, Amount, and Type") with 2.
  change (countChar "," ",") with 1. lia.
Qed.

End ExportFacts.




(** The pattern sees a character outside ASCII as one unit, or as two. *)
Example replaceNonAlnum_sample :
  replaceNonAlnum "Café & Co" = "Caf____Co" ∧
  replaceNonAlnum "A😀1" = "A__1".
Proof. split; reflexivity. Qed.


(** X13.  The workbook of a report of the engine has the sheets Summary,
    Matched Transactions, Unmatched Bank and Unmatched Ledger, the last
    three with a heading row each; the Count column of the summary gives
    the number of the other rows of these three sheets, and the matched
    rows counted twice plus the unmatched rows are as many as the records
    of the two inputs. *)
Theorem xlsx_counts_agree (NumberToString : Q → string)
    σ bankTransactions ledgerTransactions bank ledger
    (companyName : option string) (today : string) :
  validInput σ bankTransactions ledgerTransactions bank ledger →
  ∃ rep σ' summaryRows matchRows bankRows ledgerRows fileName,
    reconcileTransactions bankTransactions ledgerTransactions σ = Ok rep σ' ∧
    downloadXLSX rep companyName today σ' =
      Ok ([("Summary", summaryRows);
           ("Matched Transactions", matchRows);
           ("Unmatched Bank", bankRows);
           ("Unmatched Ledger", ledgerRows)], fileName) σ' ∧
    (summaryRows !! 5) ≫= (.!! 1) = Some (CNat (length matchRows - 1)) ∧
    (summaryRows !! 6) ≫= (.!! 1) = Some (CNat (length bankRows - 1)) ∧
    (summaryRows !! 7) ≫= (.!! 1) = Some (CNat (length ledgerRows - 1)) ∧
    0 < length matchRows ∧ 0 < length bankRows ∧ 0 < length ledgerRows ∧
    2 * (length matchRows - 1) + (length bankRows - 1) +
      (length ledgerRows - 1) = length bank + length ledger.
Proof.
  intros Hvalid.
  destruct (report_allocated _ _ _ _ _ Hvalid)
    as (rep & σ' & Hrun & Htxs & Hmb & Hml & Hub & Hul & Hcount & Hlen).
  exists rep, σ'. unfold downloadXLSX.
  rewrite bind_run.
  rewrite (mapM_run _ (λ m, xlsxMatchRow (txs σ' !!! bankParams m)
                              (txs σ' !!! ledgerParams m) m)); cycle 1.
  { intros m Hm. unfold allocated in Hmb, Hml.
    rewrite Forall_forall in Hmb, Hml.
    rewrite bind_run, deref_run by (by apply Hmb, list_elem_of_fmap_2).
    rewrite bind_run, deref_run by (by apply Hml, list_elem_of_fmap_2).
    done. }
  rewrite bind_run, (mapM_deref_run (λ r, r) (λ t _, xlsxTransactionRow t))
    by (by rewrite list_fmap_id).
  rewrite bind_run, (mapM_deref_run (λ r, r) (λ t _, xlsxTransactionRow t))
    by (by rewrite list_fmap_id).
  eexists _, _, _, _, _. split; [exact Hrun|]. split; [reflexivity|].
  cbn [length]. rewrite !length_fmap, !Nat.sub_succ, !Nat.sub_0_r.
  rewrite <- Hcount.
  split_and!; [reflexivity..|lia|lia|lia|lia].
Qed.

(** ** The rows of a parsed file *)

Lemma countChar_pretty_N_go (x : N) (s : string) :
  countChar "-" (pretty_N_go x s) = countChar "-" s.
Proof.
  revert s. induction (N.lt_wf_0 x) as [x _ IH]; intros s.
  assert (x = 0 ∨ 0 < x)%N as [->|?] by lia.
  - by rewrite pretty_N_go_0.
  - rewrite pretty_N_go_step by done. rewrite IH by (by apply N.div_lt).
    simpl. unfold pretty_N_char. by repeat case_match.
Qed.

Lemma countChar_pretty_nat (n : nat) : countChar "-" (pretty n) = 0.
Proof.
  unfold pretty, pretty_nat, pretty, pretty_N.
  case_decide; [done|]. apply countChar_pretty_N_go.
Qed.

(** A text is split at its last dash in one way only. *)
Lemma dash_split (a a' b b' : string) :
  countChar "-" b = 0 → countChar "-" b' = 0 →
  a +:+ "-" +:+ b = a' +:+ "-" +:+ b' → a = a' ∧ b = b'.
Proof.
  intros Hb Hb'. revert a'.
  induction a as [|c a IH]; intros [|c' a'] E;
    rewrite ?append_String, ?append_Empty' in E.
  - by simplify_eq.
  - injection E as <- ->. rewrite countChar_app in Hb. simpl in Hb. lia.
  - injection E as -> <-. rewrite countChar_app in Hb'. simpl in Hb'. lia.
  - injection E as -> E. destruct (IH _ E) as [-> ->]. done.
Qed.

Lemma parsed_id_inj (s s' : Source) (n n' : Z) (i i' : nat) :
  sourceString s +:+ "-" +:+ pretty n +:+ "-" +:+ pretty i =
  sourceString s' +:+ "-" +:+ pretty n' +:+ "-" +:+ pretty i' →
  s = s' ∧ i = i'.
Proof.
  intros E.
  assert (s = s') as <- by (by destruct s, s').
  split; [done|].
  apply (inj (String.append _)), (inj (String.append _)) in E.
  apply dash_split in E as [_ E]; auto using countChar_pretty_nat.
  by apply (inj pretty).
Qed.

Lemma parsed_id_lookup rawData s now rows i x :
  parseDocumentWithGemini (Some rawData) s now = inr rows →
  (id <$> rows) !! i = Some x →
  x = sourceString s +:+ "-" +:+ pretty (now i) +:+ "-" +:+ pretty i.
Proof.
  intros [= <-]. rewrite list_lookup_fmap, list_lookup_imap.
  destruct (rawData !! i); intros E; inversion E. reflexivity.
Qed.

Lemma parsed_ids_NoDup rawData s now rows :
  parseDocumentWithGemini (Some rawData) s now = inr rows →
  NoDup (id <$> rows).
Proof.
  intros Hrows. apply NoDup_alt. intros i j x Hi Hj.
  apply (parsed_id_lookup _ _ _ _ _ _ Hrows) in Hi, Hj. subst x.
  by apply parsed_id_inj in Hj as [_ ?].
Qed.

Lemma parsed_source rawData s now rows :
  parseDocumentWithGemini (Some rawData) s now = inr rows →
  Forall (λ t, source t = s) rows.
Proof.
  intros [= <-]. apply Forall_lookup. intros i t.
  rewrite list_lookup_imap. destruct (rawData !! i); intros E; inversion E.
  reflexivity.
Qed.

(** X14.  The rows of a parsed bank file and of a parsed ledger file are as
    many as the answers had, carry the source they were parsed for, and
    their identifiers are all different, within a file and between the two,
    whatever the clock gives and whatever identifiers the answers held. *)
Theorem parsed_ids_distinct (now now' : nat → Z)
    (rawBank rawLedger : list Transaction) :
  ∃ bankRows ledgerRows,
    parseDocumentWithGemini (Some rawBank) BANK now = inr bankRows ∧
    parseDocumentWithGemini (Some rawLedger) LEDGER now' = inr ledgerRows ∧
    length bankRows = length rawBank ∧
    length ledgerRows = length rawLedger ∧
    Forall (λ t, source t = BANK) bankRows ∧
    Forall (λ t, source t = LEDGER) ledgerRows ∧
    NoDup (id <$> (bankRows ++ ledgerRows)).
Proof.
  eexists _, _. split; [reflexivity|]. split; [reflexivity|].
  split; [apply length_imap|]. split; [apply length_imap|].
  split; [by eapply parsed_source|]. split; [by eapply parsed_source|].
  rewrite fmap_app. apply NoDup_app. split_and!.
  - by eapply parsed_ids_NoDup.
  - intros x [i Hi]%list_elem_of_lookup Hx.
    apply list_elem_of_lookup in Hx as [j Hj].
    eapply parsed_id_lookup in Hi; [|reflexivity].
    eapply parsed_id_lookup in Hj; [|reflexivity]. subst x.
    by apply parsed_id_inj in Hj as [? _].
  - by eapply parsed_ids_NoDup.
Qed.

(** ** The handlers of App.tsx *)

(** Two arrays of records on a heap are an input of the engine. *)
Lemma heapOf_valid (bank ledger : list Transaction) :
  validInput (heapOf bank ledger) 0 1
    (seq 0 (length bank)) (seq (length bank) (length ledger)).
Proof.
  split_and!; [reflexivity..|].
  rewrite <- seq_app. apply Forall_forall. intros r Hr.
  apply not_eq_None_Some. intros Hnone.
  apply not_elem_of_list_to_map in Hnone.
  rewrite fst_zip in Hnone by (rewrite length_seq, length_app; lia).
  done.
Qed.

(** The callback of the timer never takes its [catch]. *)
Lemma timeout_reports (bank ledger : list Transaction) (s : App.State) :
  ∃ report σ,
    reconcileTransactions 0 1 (heapOf bank ledger) = Ok report σ ∧
    App.handleReconcile_timeout bank ledger s =
    App.setIsProcessing false
      (App.setReconciliationReport (Some (report, σ)) s).
Proof.
  destruct (report_allocated _ _ _ _ _ (heapOf_valid bank ledger))
    as (report & σ & Hrun & _).
  exists report, σ. split; [exact Hrun|].
  unfold App.handleReconcile_timeout. by rewrite Hrun.
Qed.

Lemma slotOk_settled (newFileData : FileData.t)
    (rawData : option (list Transaction)) (now : nat → Z) :
  FileData.status newFileData = FileData.PARSING →
  FileData.parsedData newFileData = None →
  FileData.error newFileData = None →
  ∃ d, (∀ s, App.handleFileSelect_settled newFileData
               (parseDocumentWithGemini rawData (FileData.type newFileData) now)
               s =
             match FileData.type newFileData with
             | BANK => App.setBankFile (Some d) s
             | LEDGER => App.setLedgerFile (Some d) s
             end) ∧
       App.slotOk (FileData.type newFileData) (Some d).
Proof.
  intros Hstatus Hdata Herror.
  destruct rawData as [rawData|].
  - eexists. split; [intros s; reflexivity|].
    split; [reflexivity|]. split; [|done].
    eexists. split; [reflexivity|]. by eapply parsed_source.
  - eexists. split; [intros s; reflexivity|].
    split; [reflexivity|]. split; [done|]. by eexists.
Qed.

Lemma reachable_invariant (sys : App.System) :
  App.reachable sys → App.invariant sys.
Proof.
  induction 1 as [|e sys sys' _ IH Hfire].
  { by split_and!. }
  destruct sys as [[bf lf rep ip err cc cs icc cn] ps ts].
  destruct IH as (Hb & Hl & Hp & He & Ht).
  cbn [App.state App.parsing App.timers App.bankFile App.ledgerFile
       App.error App.isProcessing] in Hb, Hl, Hp, He, Ht.
  unfold App.invariant.
  destruct e as [value|value|value|file ty|k rawData now| | | |];
    cbn [App.fire App.state App.parsing App.timers] in Hfire.
  - injection Hfire as <-. unfold App.handleCurrencyChange.
    by destruct (String.eqb _ _).
  - by injection Hfire as <-.
  - by injection Hfire as <-.
  - injection Hfire as <-.
    destruct ty; split_and!; try done; apply Forall_app; split; try done;
      by constructor.
  - destruct (ps !! k) as [newFileData|] eqn:Hk; [|done].
    injection Hfire as <-.
    pose proof (Forall_lookup_1 _ _ _ _ Hp Hk) as (Hs & Hd & Herr).
    destruct (slotOk_settled newFileData rawData now Hs Hd Herr)
      as (d & -> & Hok).
    assert (Forall (λ d, FileData.status d = FileData.PARSING ∧
                         FileData.parsedData d = None ∧
                         FileData.error d = None) (delete k ps)) as Hp'.
    { by apply Forall_delete. }
    destruct (FileData.type newFileData); by split_and!.
  - injection Hfire as <-.
    split_and!; try done.
    + split; [done|]. split; [|done]. eexists. split; [reflexivity|].
      repeat constructor.
    + split; [done|]. split; [|done]. eexists. split; [reflexivity|].
      repeat constructor.
  - destruct (App.reconcileDisabled _) eqn:Hdis; [done|].
    unfold App.reconcileDisabled in Hdis.
    cbn [App.bankFile App.ledgerFile App.isProcessing] in Hdis.
    apply orb_false_iff in Hdis as [[Hbd Hld]%orb_false_iff ->].
    apply negb_false_iff, bool_decide_eq_true in Hbd as [bank Hbank].
    apply negb_false_iff, bool_decide_eq_true in Hld as [ledger Hledger].
    unfold App.handleReconcile in Hfire.
    cbn [App.bankFile App.ledgerFile] in Hfire.
    rewrite Hbank, Hledger in Hfire. injection Hfire as <-.
    split_and!; try done.
    cbn [App.timers App.state App.isProcessing App.setIsProcessing].
    rewrite length_app. simpl in *. lia.
  - destruct ts as [|[bank ledger] rest]; [done|].
    injection Hfire as <-.
    destruct (timeout_reports bank ledger
                (App.mkState bf lf rep ip err cc cs icc cn))
      as (report & σ & _ & ->).
    destruct ip; simpl in Ht; [|lia].
    split_and!; try done. simpl. lia.
  - by injection Hfire as <-.
Qed.

(** The sample session is one the events lead to. *)
Lemma sampleSession_reachable : App.reachable App.sampleSession.
Proof.
  set (file := FileData.mkFile "statement.pdf" "application/pdf").
  set (newFileData := FileData.mk file BANK FileData.PARSING None None).
  apply (App.reachable_fire App.Reconcile
           (App.mkSystem (App.handleLoadSampleData App.initial)
                         [newFileData] []) _); [|reflexivity].
  apply (App.reachable_fire App.LoadSampleData
           (App.mkSystem (App.handleFileSelect_start file BANK App.initial).1
                         [newFileData] []) _); [|reflexivity].
  apply (App.reachable_fire (App.FileSelect file BANK)
           (App.mkSystem App.initial [] []) _); [|reflexivity].
  apply App.reachable_initial.
Qed.

Lemma slotOk_facts (ty : Source) (d : FileData.t) :
  App.slotOk ty (Some d) →
  FileData.type d = ty ∧
  FileData.status d ≠ FileData.PENDING ∧
  (is_Some (FileData.parsedData d) ↔ FileData.status d = FileData.READY) ∧
  (is_Some (FileData.error d) ↔ FileData.status d = FileData.ERROR) ∧
  (∀ rows, FileData.parsedData d = Some rows →
           Forall (λ t, source t = ty) rows).
Proof.
  intros [Hty Hst]. split; [done|].
  destruct (FileData.status d); [done|..].
  - destruct Hst as [-> ->]. split_and!.
    + done.
    + split; [by intros [? ?]|done].
    + split; [by intros [? ?]|done].
    + done.
  - destruct Hst as [(rows & Hrows & Hsrc) ->]. rewrite Hrows. split_and!.
    + done.
    + done.
    + split; [by intros [? ?]|done].
    + by intros ? [= <-].
  - destruct Hst as [-> Herr]. split_and!.
    + done.
    + split; [by intros [? ?]|done].
    + done.
    + done.
Qed.

Lemma slotOk_ready (ty : Source) (slot : option FileData.t) :
  App.slotOk ty slot →
  is_Some (slot ≫= FileData.parsedData) ↔
  ∃ d, slot = Some d ∧ FileData.status d = FileData.READY.
Proof.
  destruct slot as [d|]; simpl.
  - intros (_ & _ & Hready & _)%slotOk_facts. rewrite Hready.
    split; [by exists d|]. by intros (? & [= <-] & ?).
  - intros _. split; [by intros [? ?]|]. by intros (? & ? & _).
Qed.

(** X15.  In every state the events lead to, a file in the bank slot or in
    the ledger slot has the type of its slot and is never pending: it has
    rows exactly when it is ready, and these rows carry the source of the
    slot, and it has an error text exactly when it failed.  The button that
    starts the reconciliation is enabled exactly when both files are ready
    and no reconciliation is running. *)
Theorem file_slots_consistent (sys : App.System) :
  App.reachable sys →
  (∀ ty d,
     ty = BANK ∧ App.bankFile (App.state sys) = Some d ∨
     ty = LEDGER ∧ App.ledgerFile (App.state sys) = Some d →
     FileData.type d = ty ∧
     FileData.status d ≠ FileData.PENDING ∧
     (is_Some (FileData.parsedData d) ↔ FileData.status d = FileData.READY) ∧
     (is_Some (FileData.error d) ↔ FileData.status d = FileData.ERROR) ∧
     (∀ rows, FileData.parsedData d = Some rows →
              Forall (λ t, source t = ty) rows)) ∧
  (App.reconcileDisabled (App.state sys) = false ↔
   (∃ b l, App.bankFile (App.state sys) = Some b ∧
           App.ledgerFile (App.state sys) = Some l ∧
           FileData.status b = FileData.READY ∧
           FileData.status l = FileData.READY) ∧
   App.isProcessing (App.state sys) = false).
Proof.
  intros (Hb & Hl & _)%reachable_invariant. split.
  - intros ty d [[-> Hd]|[-> Hd]]; apply slotOk_facts; congruence.
  - unfold App.reconcileDisabled.
    rewrite !orb_false_iff, !negb_false_iff, !bool_decide_eq_true.
    rewrite (slotOk_ready _ _ Hb), (slotOk_ready _ _ Hl).
    split.
    + intros [[(b & ? & ?) (l & ? & ?)] ?]. split; [|done]. by exists b, l.
    + intros [(b & l & ? & ? & ? & ?) ?]. split_and!; [by exists b|by exists l|done].
Qed.

(** X16.  In every state the events lead to, a timer of the reconciliation
    is set exactly while the state is processing, and then it is the only
    one; when it fires, the report of the engine on its two arrays is
    shown and the processing is over, with no timer left. *)
Theorem processing_ends (sys : App.System) :
  App.reachable sys →
  (App.isProcessing (App.state sys) = false → App.timers sys = []) ∧
  (App.isProcessing (App.state sys) = true →
   ∃ bank ledger report σ sys',
     App.timers sys = [(bank, ledger)] ∧
     App.fire App.Timeout sys = Some sys' ∧
     reconcileTransactions 0 1 (heapOf bank ledger) = Ok report σ ∧
     App.reconciliationReport (App.state sys') = Some (report, σ) ∧
     App.isProcessing (App.state sys') = false ∧
     App.timers sys' = [] ∧
     App.bankFile (App.state sys') = App.bankFile (App.state sys) ∧
     App.ledgerFile (App.state sys') = App.ledgerFile (App.state sys)).
Proof.
  intros (_ & _ & _ & _ & Ht)%reachable_invariant.
  destruct sys as [s ps ts]. cbn [App.state App.timers] in *.
  split; intros Hip; rewrite Hip in Ht.
  - by destruct ts.
  - destruct ts as [|[bank ledger] [|? ?]]; try done.
    destruct (timeout_reports bank ledger s) as (report & σ & Hrun & Hs).
    exists bank, ledger, report, σ. eexists.
    split; [done|]. split; [reflexivity|]. split; [exact Hrun|].
    cbn [App.state App.timers]. rewrite Hs. by split_and!.
Qed.

(** X17.  No sequence of events sets the error of the component: the
    button is disabled whenever [handleReconcile] would refuse, and the
    engine does not throw on two arrays of records, so neither message is
    ever shown. *)
Theorem error_never_set (sys : App.System) :
  App.reachable sys → App.error (App.state sys) = None.
Proof. by intros (_ & _ & _ & He & _)%reachable_invariant. Qed.

End Further.

(** X18.  When every record has a calendar date [YYYY-MM-DD] and an ASCII
    description, as the extraction service is asked to deliver them, the
    report is the same on every host: it depends on no date format of an
    engine and on no Unicode table. *)
Theorem report_host_independent (host1 host2 : Host)
    σ bankTransactions ledgerTransactions bank ledger :
  validInput σ bankTransactions ledgerTransactions bank ledger →
  map_Forall (λ _ t, plainRecord t = true) (txs σ) →
  ∃ rep σ1 σ2,
    reconcileTransactions (host := host1)
      bankTransactions ledgerTransactions σ = Ok rep σ1 ∧
    reconcileTransactions (host := host2)
      bankTransactions ledgerTransactions σ = Ok rep σ2.
Proof.
  intros Hvalid Hplain.
  destruct (reconcileTransactions_run (host := host1) _ _ _ _ _ Hvalid)
    as (uB & uL & _ & _ & _ & Hrun1).
  destruct (reconcileTransactions_run (host := host2) _ _ _ _ _ Hvalid)
    as (uB' & uL' & _ & _ & _ & Hrun2).
  cbv zeta in Hrun1, Hrun2.
  rewrite (passes_plain (host := host1) _ _ _ Hplain) in Hrun1.
  rewrite (passes_plain (host := host2) _ _ _ Hplain) in Hrun2.
  eexists _, _, _. split; [exact Hrun1|exact Hrun2].
Qed.

(** * The properties on the fixtures

    On the sample data and on small heaps, with the host of the examples. *)

(** ** The properties of the specification *)

(** The sample fixtures are arrays of transaction objects. *)
Lemma sample_valid : validInput sampleStore 0 1 (seq 0 6) (seq 6 5).
Proof.
  unfold validInput. split_and!; [reflexivity..|].
  apply (bool_decide_unpack _). vm_compute. exact I.
Defined.

(** The report on the sample fixtures: three exact pairs, found from the
    last bank record backwards, then the pair three days apart; the AWS
    records pair in the exact pass whatever their descriptions. *)
Lemma sample_report :
  ∃ σ', reconcileTransactions 0 1 sampleStore =
        Ok (mkReport
              [mkMatched 5 9 1%Q (Some note1);
               mkMatched 1 7 1%Q (Some note1);
               mkMatched 0 6 1%Q (Some note1);
               mkMatched 4 8 (9 # 10)%Q (Some note2)]
              [2; 3] [10]
              (mkSummary (1813550 # 100)%Q
                 (0 + roundDouble (4520 # 100) + 35)%Q 1200%Q 4 3)) σ'.
Proof. eexists. vm_compute. reflexivity. Qed.

Lemma partition_property_witness :
  ∃ rep σ' claimedBank claimedLedger,
    reconcileTransactions 0 1 sampleStore = Ok rep σ' ∧
    (bankParams <$> matches rep) ++ unmatchedBank rep ≡ₚ seq 0 6 ∧
    (ledgerParams <$> matches rep) ++ unmatchedLedger rep ≡ₚ seq 6 5 ∧
    NoDup claimedBank ∧
    unmatchedBank rep = unclaimed claimedBank (seq 0 6) ∧
    NoDup claimedLedger ∧
    unmatchedLedger rep = unclaimed claimedLedger (seq 6 5) ∧
    (∀ r, r ∈ seq 0 6 →
       (r ∈ (bankParams <$> matches rep) ∧ r ∉ unmatchedBank rep) ∨
       (r ∈ unmatchedBank rep ∧ r ∉ (bankParams <$> matches rep))) ∧
    (∀ r, r ∈ seq 6 5 →
       (r ∈ (ledgerParams <$> matches rep) ∧ r ∉ unmatchedLedger rep) ∨
       (r ∈ unmatchedLedger rep ∧ r ∉ (ledgerParams <$> matches rep))).
Proof.
  destruct (partition_property sampleStore 0 1 _ _ sample_valid)
    as (rep & σ' & cB & cL & Hrun & HB & HL & _ & HndB & HuB & _ & HndL & HuL &
        HoneB & HoneL).
  exists rep, σ', cB, cL. split_and!; [done..| |].
  - apply HoneB, NoDup_seq.
  - apply HoneL, NoDup_seq.
Defined.

Lemma pass1_exact_match_witness :
  ∃ rep σ' found ub1 ul1 later,
    reconcileTransactions 0 1 sampleStore = Ok rep σ' ∧
    SpecPass (eligibleOn (txs sampleStore) ExactEligible)
      (seq 0 6) (seq 6 5) found ub1 ul1 ∧
    matches rep =
      ((λ p, mkMatched p.1 p.2 1%Q
               (Some "Exact match on Date, Amount, and Type")) <$> found)
      ++ later ∧
    Forall (λ m, confidence m ≠ 1%Q) later ∧
    matchPass exactPredicate 1 note1 2 3 []
      (withPools sampleStore 2 3 (seq 0 6) (seq 6 5)) =
    Ok (toMatch 1 note1 <$> found) (withPools sampleStore 2 3 ub1 ul1).
Proof.
  destruct (pass1_exact_match sampleStore 0 1 _ _ sample_valid)
    as (rep & σ' & found & ub1 & ul1 & later & Hrun & Hspec & Hms & Hlater &
        Hloop).
  exists rep, σ', found, ub1, ul1, later. split_and!; [done..|].
  apply Hloop. discriminate.
Defined.




(** At the edge of the tolerance: the doubles of 245.51 and 245.50 pair in
    the exact pass; those of 0.0101 and 0.0001, whose computed difference
    is the double 0.01, pair in no pass, the descriptions being equal. *)
Lemma tolerance_reports :
  (∃ rep σ', reconcileTransactions 0 1 centStore = Ok rep σ' ∧
             matches rep = [mkMatched 0 1 1%Q (Some note1)]) ∧
  (∃ rep σ', reconcileTransactions 0 1 edgeStore = Ok rep σ' ∧
             matches rep = [] ∧ unmatchedBank rep = [0] ∧
             unmatchedLedger rep = [1]).
Proof.
  split; eexists _, _; (split; [vm_compute; reflexivity|]); done.
Qed.

(** The records of [descriptionStore] are far apart in time and pair in
    the description pass. *)
Lemma description_valid : validInput descriptionStore 0 1 [0] [1].
Proof.
  unfold validInput. split_and!; [reflexivity..|].
  apply (bool_decide_unpack _). vm_compute. exact I.
Defined.

Lemma description_report :
  ∃ σ', reconcileTransactions 0 1 descriptionStore =
        Ok (mkReport [mkMatched 0 1 (7 # 10)%Q (Some note3)] [] []
              (mkSummary 75%Q 0%Q 0%Q 1 0)) σ'.
Proof. eexists. vm_compute. reflexivity. Qed.

Lemma pass3_description_witness :
  (∃ rep σ' found1 ub1 ul1 found2 ub2 ul2 found3,
     reconcileTransactions 0 1 descriptionStore = Ok rep σ' ∧
     SpecPass (eligibleOn (txs descriptionStore) ExactEligible)
       [0] [1] found1 ub1 ul1 ∧
     SpecPass (eligibleOn (txs descriptionStore) FuzzyEligible)
       ub1 ul1 found2 ub2 ul2 ∧
     SpecPass (eligibleOn (txs descriptionStore) DescriptionEligible)
       ub2 ul2 found3 (unmatchedBank rep) (unmatchedLedger rep) ∧
     matches rep =
       (toMatch 1 note1 <$> found1) ++ (toMatch (9 # 10) note2 <$> found2) ++
       ((λ p, mkMatched p.1 p.2 (7 # 10)%Q
                (Some "Match on Amount and similar Description")) <$> found3) ∧
     mkMatched 0 1 (7 # 10)%Q (Some "Match on Amount and similar Description")
       ∈ matches rep) ∧
  descriptionPredicate blankBankTx someLedgerTx = true ∧
  DescriptionEligible blankBankTx someLedgerTx.
Proof.
  destruct (pass3_description descriptionStore 0 1 _ _ description_valid)
    as (rep & σ' & found1 & ub1 & ul1 & found2 & ub2 & ul2 & found3 &
        Hrun & H1 & H2 & H3 & Hms & _ & Hblank).
  split.
  - exists rep, σ', found1, ub1, ul1, found2, ub2, ul2, found3.
    split; [exact Hrun|]. split; [exact H1|]. split; [exact H2|].
    split; [exact H3|]. split; [exact Hms|].
    destruct description_report as [σ'' Hreport].
    rewrite Hrun in Hreport. injection Hreport as -> _.
    apply list_elem_of_singleton. reflexivity.
  - apply Hblank.
    + left. vm_compute. reflexivity.
    + unfold AmountWithinTolerance. vm_compute. reflexivity.
    + reflexivity.
Defined.

Lemma pass_precedence_witness :
  ∃ rep σ',
    reconcileTransactions 0 1 precedenceStore = Ok rep σ' ∧
    ∃ l0, mkMatched 0 l0 1%Q (Some note1) ∈ matches rep ∧
          eligibleOn (txs precedenceStore) ExactEligible 0 l0.
Proof.
  assert (validInput precedenceStore 0 1 [0] [1; 2]) as Hvalid.
  { unfold validInput. split_and!; [reflexivity..|].
    apply (bool_decide_unpack _). vm_compute. exact I. }
  destruct (pass_precedence precedenceStore 0 1 _ _ Hvalid)
    as (rep & σ' & found1 & ub1 & ul1 & later & Hrun & _ & _ & _ & _ & _ & _ &
        Hclaimed).
  exists rep, σ'. split; [exact Hrun|].
  destruct (Hclaimed [] 0 [] [] [] [1; 2] 2) as (l0 & _ & Hin & Hel).
  - reflexivity.
  - constructor.
  - apply elem_of_cons. right. apply list_elem_of_singleton. reflexivity.
  - apply (onHeap_spec _ _ _ exactPredicate_spec). vm_compute. reflexivity.
  - exists l0. split; [exact Hin|exact Hel].
Defined.

(** On [precedenceStore] the ledger record of the same date is taken, not
    the earlier record within three days. *)
Lemma precedence_report :
  ∃ σ', reconcileTransactions 0 1 precedenceStore =
        Ok (mkReport [mkMatched 0 2 1%Q (Some note1)] [] [1]
              (mkSummary 4500%Q 0%Q 4500%Q 1 1)) σ'.
Proof. eexists. vm_compute. reflexivity. Qed.

Lemma amount_conservation_witness :
  ∃ rep σ',
    reconcileTransactions 0 1 sampleStore = Ok rep σ' ∧
    totalMatchedAmount (summary rep) =
      sumLeft (txs sampleStore) (bankParams <$> matches rep) ∧
    (totalMatchedAmount (summary rep) + totalUnmatchedBankAmount (summary rep)
     == sumLeft (txs sampleStore) (seq 0 6))%Q ∧
    (sumLeft (txs sampleStore) (ledgerParams <$> matches rep) +
     totalUnmatchedLedgerAmount (summary rep)
     == sumLeft (txs sampleStore) (seq 6 5))%Q.
Proof. exact (amount_conservation sampleStore 0 1 _ _ sample_valid). Defined.

(** On the ledger side the matched sum is the one of the ledger-side
    amounts: with [totalMatchedAmount], which adds bank-side amounts, the
    ledger total is missed by up to the tolerance of each pair. *)
Lemma ledger_total_uses_ledger_amounts :
  ∃ rep σ',
    reconcileTransactions 0 1 toleranceStore = Ok rep σ' ∧
    matches rep = [mkMatched 0 1 1%Q (Some note1)] ∧
    ¬ (totalMatchedAmount (summary rep) +
       totalUnmatchedLedgerAmount (summary rep)
       == sumLeft (txs toleranceStore) [1%nat])%Q.
Proof.
  eexists _, _. split; [vm_compute; reflexivity|]. split; [reflexivity|].
  vm_compute. discriminate.
Qed.

Lemma discovery_order_witness :
  ∃ rep σ' ms1 ms2 ms3 p1 p2 p3,
    reconcileTransactions 0 1 sampleStore = Ok rep σ' ∧
    matches rep = ms1 ++ ms2 ++ ms3 ∧
    Forall (λ m, confidence m = 1%Q ∧ notes m = Some note1) ms1 ∧
    Forall (λ m, confidence m = (9 # 10)%Q ∧ notes m = Some note2) ms2 ∧
    Forall (λ m, confidence m = (7 # 10)%Q ∧ notes m = Some note3) ms3 ∧
    Forall2 (λ m i, seq 0 6 !! i = Some (bankParams m)) ms1 p1 ∧
    StronglySorted gt p1 ∧
    Forall2 (λ m i, seq 0 6 !! i = Some (bankParams m)) ms2 p2 ∧
    StronglySorted gt p2 ∧
    Forall2 (λ m i, seq 0 6 !! i = Some (bankParams m)) ms3 p3 ∧
    StronglySorted gt p3.
Proof. exact (discovery_order sampleStore 0 1 _ _ sample_valid). Defined.

Lemma unmatched_in_order_witness :
  ∃ rep σ' claimedBank claimedLedger,
    reconcileTransactions 0 1 sampleStore = Ok rep σ' ∧
    Forall2 (λ m i, seq 0 6 !! i = Some (bankParams m))
      (matches rep) claimedBank ∧
    NoDup claimedBank ∧
    unmatchedBank rep = unclaimed claimedBank (seq 0 6) ∧
    unmatchedBank rep `sublist_of` seq 0 6 ∧
    Forall2 (λ m i, seq 6 5 !! i = Some (ledgerParams m))
      (matches rep) claimedLedger ∧
    NoDup claimedLedger ∧
    unmatchedLedger rep = unclaimed claimedLedger (seq 6 5) ∧
    unmatchedLedger rep `sublist_of` seq 6 5.
Proof. exact (unmatched_in_order sampleStore 0 1 _ _ sample_valid). Defined.

Lemma never_throws_witness :
  (∃ rep σ', reconcileTransactions 0 1 sampleStore = Ok rep σ') ∧
  (∃ σ', reconcileTransactions 0 1 emptyStore =
         Ok (mkReport [] [] [] (mkSummary 0%Q 0%Q 0%Q 0 0)) σ').
Proof.
  split.
  - destruct (never_throws sampleStore 0 1 _ _ sample_valid)
      as (rep & σ' & Hrun & _).
    by exists rep, σ'.
  - assert (validInput emptyStore 0 1 [] []) as Hvalid.
    { unfold validInput. split_and!; [reflexivity..|constructor]. }
    destruct (never_throws emptyStore 0 1 [] [] Hvalid)
      as (rep & σ' & Hrun & Hempty).
    exists σ'. by rewrite <- (Hempty eq_refl eq_refl).
Defined.

Lemma inputs_untouched_witness :
  ∃ rep σ',
    reconcileTransactions 0 1 sampleStore = Ok rep σ' ∧
    arrays σ' !! 0 = Some (seq 0 6) ∧
    arrays σ' !! 1 = Some (seq 6 5) ∧
    (∀ a, is_Some (arrays sampleStore !! a) →
          arrays σ' !! a = arrays sampleStore !! a) ∧
    txs σ' = txs sampleStore ∧
    Forall (λ m, bankParams m ∈ seq 0 6 ∧ ledgerParams m ∈ seq 6 5)
      (matches rep) ∧
    Forall (λ r, r ∈ seq 0 6) (unmatchedBank rep) ∧
    Forall (λ r, r ∈ seq 6 5) (unmatchedLedger rep).
Proof. exact (inputs_untouched sampleStore 0 1 _ _ sample_valid). Defined.

(** ** Further properties *)

Lemma disjoint_valid : validInput disjointStore 0 1 [0] [1; 2].
Proof.
  unfold validInput. split_and!; [reflexivity..|].
  apply (bool_decide_unpack _). vm_compute. exact I.
Defined.

Lemma no_compatible_no_match_witness :
  ∃ rep σ',
    reconcileTransactions 0 1 disjointStore = Ok rep σ' ∧
    matches rep = [] ∧ unmatchedBank rep = [0] ∧ unmatchedLedger rep = [1; 2] ∧
    matchCount (summary rep) = 0 ∧
    discrepancyCount (summary rep) = length [0] + length [1; 2].
Proof.
  apply (no_compatible_no_match disjointStore 0 1 _ _ disjoint_valid).
  intros b l Hb Hl HE.
  apply (onHeap_spec _ _ _ Compatible_dec_spec) in HE.
  apply list_elem_of_singleton in Hb as ->.
  apply elem_of_cons in Hl as [->|Hl]; [vm_compute in HE; done|].
  apply list_elem_of_singleton in Hl as ->. vm_compute in HE. done.
Defined.

Lemma summary_counts_witness :
  ∃ rep σ',
    reconcileTransactions 0 1 sampleStore = Ok rep σ' ∧
    matchCount (summary rep) = length (matches rep) ∧
    discrepancyCount (summary rep) =
      length (unmatchedBank rep) + length (unmatchedLedger rep) ∧
    2 * matchCount (summary rep) + discrepancyCount (summary rep) =
      length (seq 0 6) + length (seq 6 5) ∧
    matchCount (summary rep) ≤ length (seq 0 6) ∧
    matchCount (summary rep) ≤ length (seq 6 5).
Proof. exact (summary_counts sampleStore 0 1 _ _ sample_valid). Defined.


Lemma nothing_left_to_match_witness :
  ∃ rep σ',
    reconcileTransactions 0 1 sampleStore = Ok rep σ' ∧
    ∀ b l, b ∈ unmatchedBank rep → l ∈ unmatchedLedger rep →
      ¬ eligibleOn (txs sampleStore) ExactEligible b l ∧
      ¬ eligibleOn (txs sampleStore) FuzzyEligible b l ∧
      ¬ eligibleOn (txs sampleStore) DescriptionEligible b l.
Proof. exact (nothing_left_to_match sampleStore 0 1 _ _ sample_valid). Defined.

Lemma rerun_on_residue_witness :
  ∃ rep σ' unmatchedBankArray unmatchedLedgerArray rep2 σ'',
    reconcileTransactions 0 1 sampleStore = Ok rep σ' ∧
    arrays σ' !! unmatchedBankArray = Some (unmatchedBank rep) ∧
    arrays σ' !! unmatchedLedgerArray = Some (unmatchedLedger rep) ∧
    reconcileTransactions unmatchedBankArray unmatchedLedgerArray σ'
      = Ok rep2 σ'' ∧
    matches rep2 = [] ∧
    unmatchedBank rep2 = unmatchedBank rep ∧
    unmatchedLedger rep2 = unmatchedLedger rep.
Proof. exact (rerun_on_residue sampleStore 0 1 _ _ sample_valid). Defined.

(** On the sample fixtures the software licence of the ledger, 1200.00, has
    no counterpart. *)
Lemma isolated_stays_unmatched_witness :
  ∃ rep σ',
    reconcileTransactions 0 1 sampleStore = Ok rep σ' ∧
    10 ∈ unmatchedLedger rep ∧ 10 ∉ (ledgerParams <$> matches rep).
Proof.
  destruct (isolated_stays_unmatched sampleStore 0 1 _ _ sample_valid)
    as (rep & σ' & Hrun & Hledger & _).
  exists rep, σ'. split; [done|]. apply Hledger.
  - apply (bool_decide_unpack _). vm_compute. exact I.
  - intros b Hb HE. apply (onHeap_spec _ _ _ Compatible_dec_spec) in HE.
    repeat (apply elem_of_cons in Hb as [->|Hb]; [vm_compute in HE; done|]).
    by apply elem_of_nil in Hb.
Defined.

Lemma fuzzy_matches_have_dates_witness :
  ∃ rep σ',
    reconcileTransactions 0 1 sampleStore = Ok rep σ' ∧
    ∀ m, m ∈ matches rep → confidence m = (9 # 10)%Q →
      ∃ tb tl t1 t2,
        txs sampleStore !! bankParams m = Some tb ∧
        txs sampleStore !! ledgerParams m = Some tl ∧
        Date_getTime (date tb) = Some t1 ∧ Date_getTime (date tl) = Some t2 ∧
        (Z.abs (t1 - t2) ≤ 3 * msPerDay)%Z ∧ date tl ≠ date tb.
Proof. exact (fuzzy_matches_have_dates sampleStore 0 1 _ _ sample_valid). Defined.

Lemma csv_exact_note_commas_witness :
  9 ≤ countChar ","
        (join "," (cellToString integerToString <$>
                   matchedRow "BANK" (SAMPLE_BANK_DATA !!! 5)
                     (mkMatched 5 9 1%Q (Some note1)))).
Proof.
  apply (csv_exact_note_commas integerToString "BANK" (SAMPLE_BANK_DATA !!! 5)
           (mkMatched 5 9 1%Q (Some note1))).
  reflexivity.
Defined.

Lemma csv_one_row_per_record_witness :
  ∃ rep σ' heading data,
    reconcileTransactions 0 1 sampleStore = Ok rep σ' ∧
    downloadCSV_rows rep (Some "Tech Startups Inc") "2024-05-01" σ'
      = Ok (heading ++ data) σ' ∧
    length heading = 4 ∧
    length data = 11 ∧
    Forall (λ row, length row = 8) data.
Proof.
  exact (csv_one_row_per_record sampleStore 0 1 _ _
           (Some "Tech Startups Inc") "2024-05-01" sample_valid).
Defined.

Lemma xlsx_counts_agree_witness :
  ∃ rep σ' summaryRows matchRows bankRows ledgerRows fileName,
    reconcileTransactions 0 1 sampleStore = Ok rep σ' ∧
    downloadXLSX rep None "2024-05-01" σ' =
      Ok ([("Summary", summaryRows);
           ("Matched Transactions", matchRows);
           ("Unmatched Bank", bankRows);
           ("Unmatched Ledger", ledgerRows)], fileName) σ' ∧
    (summaryRows !! 5) ≫= (.!! 1) = Some (CNat (length matchRows - 1)) ∧
    (summaryRows !! 6) ≫= (.!! 1) = Some (CNat (length bankRows - 1)) ∧
    (summaryRows !! 7) ≫= (.!! 1) = Some (CNat (length ledgerRows - 1)) ∧
    0 < length matchRows ∧ 0 < length bankRows ∧ 0 < length ledgerRows ∧
    2 * (length matchRows - 1) + (length bankRows - 1) +
      (length ledgerRows - 1) = length (seq 0 6) + length (seq 6 5).
Proof.
  exact (xlsx_counts_agree integerToString sampleStore 0 1 _ _
           None "2024-05-01" sample_valid).
Defined.

Lemma file_slots_consistent_witness :
  (∀ ty d,
     ty = BANK ∧ App.bankFile (App.state App.sampleSession) = Some d ∨
     ty = LEDGER ∧ App.ledgerFile (App.state App.sampleSession) = Some d →
     FileData.type d = ty ∧
     FileData.status d ≠ FileData.PENDING ∧
     (is_Some (FileData.parsedData d) ↔ FileData.status d = FileData.READY) ∧
     (is_Some (FileData.error d) ↔ FileData.status d = FileData.ERROR) ∧
     (∀ rows, FileData.parsedData d = Some rows →
              Forall (λ t, source t = ty) rows)) ∧
  (App.reconcileDisabled (App.state App.sampleSession) = false ↔
   (∃ b l, App.bankFile (App.state App.sampleSession) = Some b ∧
           App.ledgerFile (App.state App.sampleSession) = Some l ∧
           FileData.status b = FileData.READY ∧
           FileData.status l = FileData.READY) ∧
   App.isProcessing (App.state App.sampleSession) = false).
Proof.
  exact (file_slots_consistent App.sampleSession sampleSession_reachable).
Defined.

Lemma processing_ends_witness :
  (App.isProcessing (App.state App.sampleSession) = false →
   App.timers App.sampleSession = []) ∧
  (App.isProcessing (App.state App.sampleSession) = true →
   ∃ bank ledger report σ sys',
     App.timers App.sampleSession = [(bank, ledger)] ∧
     App.fire App.Timeout App.sampleSession = Some sys' ∧
     reconcileTransactions 0 1 (heapOf bank ledger) = Ok report σ ∧
     App.reconciliationReport (App.state sys') = Some (report, σ) ∧
     App.isProcessing (App.state sys') = false ∧
     App.timers sys' = [] ∧
     App.bankFile (App.state sys') =
       App.bankFile (App.state App.sampleSession) ∧
     App.ledgerFile (App.state sys') =
       App.ledgerFile (App.state App.sampleSession)).
Proof.
  exact (processing_ends App.sampleSession sampleSession_reachable).
Defined.

Lemma error_never_set_witness :
  App.error (App.state App.sampleSession) = None.
Proof.
  exact (error_never_set App.sampleSession sampleSession_reachable).
Defined.

(** The sample data are such records; the two hosts differ on other
    strings. *)
Lemma sample_plain :
  map_Forall (λ _ t, plainRecord t = true) (txs sampleStore).
Proof. apply (bool_decide_unpack _). vm_compute. exact I. Qed.

Example hosts_differ :
  Date_getTime (Host := asciiHost) "03/15/2024" = None ∧
  Date_getTime (Host := lenientHost) "03/15/2024" = Some 0%Z.
Proof. split; reflexivity. Qed.

Lemma report_host_independent_witness :
  ∃ rep σ1 σ2,
    reconcileTransactions (host := asciiHost) 0 1 sampleStore = Ok rep σ1 ∧
    reconcileTransactions (host := lenientHost) 0 1 sampleStore = Ok rep σ2.
Proof.
  exact (report_host_independent asciiHost lenientHost sampleStore 0 1 _ _
           sample_valid sample_plain).
Defined.
